(** * aSocket Snow: a shallow embedding of [snow.js]

    The script keeps one [Controller] per configuration layer.  A controller
    owns an array of [Snowflake] objects, each of which wraps one DOM element
    whose inline style holds the position.  This file embeds the script as
    pure functions over an explicit page (the shared container element and
    the supplies of fresh nodes and timer handles) and proves the properties
    stated about it.

    Numbers.  JavaScript numbers are idealised as real numbers: [Math.sin] is
    the real sine and arithmetic is exact.  A position lives in the inline
    style of an element: the setters write a length there, the getters turn
    the style's text back into a number, and the box of an element comes
    from the layout engine.  What the browser makes of a length on these two
    ways is a parameter of the embedding, a [Host]; [chromium] serialises a
    length with six significant digits and lays boxes out on a grid of 1/64
    pixel.  Statements about the numbers a position reads are made for every
    host; the statements that do not depend on them are made on the host
    that hands every number back as it was written.  The host inputs
    [Date.now()] and [Math.random()] are supplied by an environment of
    readings. *)

From Stdlib Require Import Reals Lra Lia String.
From stdpp Require Import base list.

Local Open Scope R_scope.

(** ** Configuration *)

(** One entry of [aSocketSnow.CONFIG]. *)
Record CONFIG := {
  LIMIT : nat;
  BLUR : R;
  FALL_RATE : R;
  SWAY_RATE : R
}.

(** The three layers the script ships with. *)
Definition CONFIG_layers : list CONFIG :=
  [ {| LIMIT := 20; BLUR := 1; FALL_RATE := 5; SWAY_RATE := 1 |};
    {| LIMIT := 25; BLUR := 4; FALL_RATE := 3.5; SWAY_RATE := 0.25 |};
    {| LIMIT := 25; BLUR := 4; FALL_RATE := 3.0; SWAY_RATE := 0.25 |} ].

(** ** The page *)

(** The container [div] created by [createContainer], seen through what the
    script does with it: the nodes currently attached to it, in order, and
    the host's supplies of fresh node identities and of timer handles. *)
Record Page := {
  children : list nat;
  next_node : nat;
  next_handle : nat
}.

(** [container.appendChild(document.createElement('div'))]. *)
Definition appendChild (p : Page) : Page * nat :=
  ({| children := children p ++ [next_node p];
      next_node := S (next_node p);
      next_handle := next_handle p |},
   next_node p).

(** [element.remove()]: the node leaves its parent, if it has one. *)
Definition detach (n : nat) (p : Page) : Page :=
  {| children := filter (fun m => m ≠ n) (children p);
     next_node := next_node p;
     next_handle := next_handle p |}.

(** [setInterval(...)]: the host hands out a handle. *)
Definition setInterval (p : Page) : Page * nat :=
  ({| children := children p;
      next_node := next_node p;
      next_handle := S (next_handle p) |},
   next_handle p).

(** ** Snowflake *)

(** The [div] of one snowflake.  [node] is the identity of the DOM element,
    the three style fields are the lengths its inline style holds:
    [style.left], [style.top] (in pixels) and the radius of [style.filter]'s
    blur. *)
Record Element := {
  node : nat;
  style_left : R;
  style_top : R;
  style_filter : R
}.

(** A [Snowflake] has one field, its element; the position lives in the
    element's style only. *)
Record Snowflake := { element : Element }.

(** [new Snowflake(x, y, container, blur)]. *)
Definition new_Snowflake (x y blur : R) (p : Page) : Page * Snowflake :=
  let '(p', n) := appendChild p in
  (p', {| element := {| node := n; style_left := x; style_top := y;
                        style_filter := blur |} |}).

(** [get top()] and [get left()] on a host that hands a length back as the
    number that was written; [Rendered.top] and [Rendered.left] below read
    through any host. *)
Definition top (s : Snowflake) : R := style_top (element s).
Definition left (s : Snowflake) : R := style_left (element s).

(** [set top(value)] and [set left(value)]: the style takes the length
    [value + 'px'].  What it reads afterwards is the getter's business. *)
Definition set_top (value : R) (s : Snowflake) : Snowflake :=
  {| element := {| node := node (element s);
                   style_left := style_left (element s);
                   style_top := value;
                   style_filter := style_filter (element s) |} |}.

Definition set_left (value : R) (s : Snowflake) : Snowflake :=
  {| element := {| node := node (element s);
                   style_left := value;
                   style_top := style_top (element s);
                   style_filter := style_filter (element s) |} |}.

(** The result of [getBoundingClientRect()]. *)
Record DOMRect := { x : R; y : R; width : R; height : R }.

(** [get bounds()].  The stylesheet of [injectCSS] pins the container to the
    viewport's origin ([position: fixed; top: 0; left: 0]) and makes every
    snowflake an absolutely positioned box of [10px] by [10px], so on a host
    that lays a box out exactly where its style says the box of an attached
    snowflake starts at its style position; [Rendered.bounds] below asks
    any host. *)
Definition bounds (s : Snowflake) : DOMRect :=
  {| x := left s; y := top s; width := 10; height := 10 |}.

(** Two references denote the same snowflake object when they wrap the same
    node: every [new Snowflake] creates its own element. *)
Definition same_object (s t : Snowflake) : bool :=
  Nat.eqb (node (element s)) (node (element t)).

(** ** Host inputs *)

(** The readings of one synchronous call: [Date_now k] is what [Date.now()]
    returns during the [k]-th iteration of the loop that asks for it, and
    [Math_random k] what [Math.random()] returns there. *)
Record Env := {
  Date_now : nat -> R;
  Math_random : nat -> R
}.

(** [aSocketSnow.getSine(amplitude, frequency, verticalShift)], with the
    clock reading [now] made explicit. *)
Definition getSine (amplitude frequency verticalShift now : R) : R :=
  amplitude * sin (now * frequency) + verticalShift.

(** [a > b] as the boolean the script branches on. *)
Definition Rgtb (a b : R) : bool := if Rgt_dec a b then true else false.

(** ** Controller *)

(** The fields of a [Controller] ([body] is the page, which is shared and
    threaded separately), followed by what the event loop holds on its
    behalf: [timers] are the live [setInterval] handles whose callback is
    this controller's [animate], and [sleepers] are the calls of [generate]
    suspended at their [await], each with the value of its loop variable
    [i]. *)
Record Controller := {
  config : CONFIG;
  snowflakes : list Snowflake;
  document_width : R;
  document_height : R;
  active : bool;
  interval : option nat;
  timers : list nat;
  sleepers : list nat
}.

Definition with_snowflakes (l : list Snowflake) (c : Controller) : Controller :=
  {| config := config c; snowflakes := l;
     document_width := document_width c; document_height := document_height c;
     active := active c; interval := interval c;
     timers := timers c; sleepers := sleepers c |}.

Definition with_sleepers (l : list nat) (c : Controller) : Controller :=
  {| config := config c; snowflakes := snowflakes c;
     document_width := document_width c; document_height := document_height c;
     active := active c; interval := interval c;
     timers := timers c; sleepers := l |}.

(** A controller and the page it draws on. *)
Definition Scene : Type := Page * Controller.

(** [spawn()]. *)
Definition spawn (random : R) (sc : Scene) : Scene :=
  let '(p, c) := sc in
  let '(p', s) := new_Snowflake (random * document_width c) 0
                                (BLUR (config c)) p in
  (p', with_snowflakes (snowflakes c ++ [s]) c).

(** [Array.prototype.indexOf]: the first index holding the object, [None]
    standing for [-1]. *)
Fixpoint indexOf (l : list Snowflake) (s : Snowflake) : option nat :=
  match l with
  | [] => None
  | t :: l' => if same_object t s then Some 0%nat
               else option_map S (indexOf l' s)
  end.

(** [array.splice(start, 1)] for the values [indexOf] can give: an index in
    range removes that entry, and [-1] counts from the end, so it removes
    the last entry. *)
Definition splice1 (start : option nat) (l : list Snowflake) : list Snowflake :=
  match start with
  | Some i => delete i l
  | None => delete (length l - 1)%nat l
  end.

(** [remove(snowflake)]. *)
Definition remove (s : Snowflake) (sc : Scene) : Scene :=
  let '(p, c) := sc in
  (detach (node (element s)) p,
   with_snowflakes (splice1 (indexOf (snowflakes c) s) (snowflakes c)) c).

(** [animate()], the two assignments that open the loop body: first
    [snowflake.left], with the clock reading [now] that [getSine] takes,
    then [snowflake.top]. *)
Definition move (c : Controller) (now : R) (s : Snowflake) : Snowflake :=
  let s1 := set_left (getSine 1.0 0.005 (left s + SWAY_RATE (config c)) now) s in
  set_top (top s1 + FALL_RATE (config c)) s1.

(** [animate()], the condition of the [if] on the snowflake's bounds. *)
Definition exits (c : Controller) (s : Snowflake) : bool :=
  let b := bounds s in
  Rgtb (x b) (document_width c + width b)
  || Rgtb (y b) (document_height c + height b).

(** [animate()], the whole loop body for the snowflake [s] that the array
    iterator delivered from slot [k].  The setters change the object in
    place, so the array sees the moved snowflake in that slot; only then are
    the bounds read and the snowflake possibly removed and replaced. *)
Definition animate_visit (e : Env) (k : nat) (s : Snowflake) (sc : Scene) : Scene :=
  let '(p, c) := sc in
  let s' := move c (Date_now e k) s in
  let sc' := (p, with_snowflakes (<[k := s']> (snowflakes c)) c) in
  if exits c s' then spawn (Math_random e k) (remove s' sc') else sc'.

(** The [for ... of] loop of [animate()].  The array iterator keeps an index
    [k] into the live array: each step reads the current length, stops when
    [k] has reached it, and otherwise delivers slot [k] and moves on to
    [k + 1], whatever the body did to the array.  [None] means the fuel ran
    out before the iterator was done. *)
Fixpoint animate_loop (fuel : nat) (e : Env) (k : nat) (sc : Scene) : option Scene :=
  match fuel with
  | O => None
  | S fuel' =>
      match snowflakes sc.2 !! k with
      | None => Some sc
      | Some s => animate_loop fuel' e (S k) (animate_visit e k s sc)
      end
  end.

(** [animate()].  One more unit of fuel than there are snowflakes is always
    enough ([animate_loop_total] below), so the fallback is never taken. *)
Definition animate (e : Env) (sc : Scene) : Scene :=
  default sc (animate_loop (S (length (snowflakes sc.2))) e 0 sc).

(** [generate()] up to its first [await]: the loop variable starts at the
    current length; if it is below the limit the call suspends on its
    timeout, otherwise it is over at once.  The handle [setTimeout] returns
    is dropped by the script and not kept here either: handles only tell
    the intervals of a page apart, and no statement below depends on their
    values. *)
Definition generate (c : Controller) : Controller :=
  let i := length (snowflakes c) in
  if (i <? LIMIT (config c))%nat then with_sleepers (sleepers c ++ [i]) c else c.

(** The timeout of the [j]-th suspended [generate] fires: the call resumes
    after its [await], gives up if the controller is not active, and
    otherwise spawns, increments [i] and, if [i] is still below the limit,
    suspends again. *)
Definition generate_resume (j : nat) (random : R) (sc : Scene) : Scene :=
  let '(p, c) := sc in
  match sleepers c !! j with
  | None => sc
  | Some i =>
      let c1 := with_sleepers (delete j (sleepers c)) c in
      if negb (active c1) then (p, c1)
      else
        let '(p2, c2) := spawn random (p, c1) in
        if (S i <? LIMIT (config c2))%nat
        then (p2, with_sleepers (sleepers c2 ++ [S i]) c2)
        else (p2, c2)
  end.

(** [start()]. *)
Definition start (sc : Scene) : Scene :=
  let '(p, c) := sc in
  if active c then sc
  else
    let c1 := generate
                {| config := config c; snowflakes := snowflakes c;
                   document_width := document_width c;
                   document_height := document_height c;
                   active := true; interval := interval c;
                   timers := timers c; sleepers := sleepers c |} in
    let '(p', h) := setInterval p in
    (p', {| config := config c1; snowflakes := snowflakes c1;
            document_width := document_width c1;
            document_height := document_height c1;
            active := active c1; interval := Some h;
            timers := timers c1 ++ [h]; sleepers := sleepers c1 |}).

(** [clearInterval(handle)]: a handle that is not live, or [null], changes
    nothing. *)
Definition clearInterval (handle : option nat) (live : list nat) : list nat :=
  match handle with
  | Some h => filter (fun h' => h' ≠ h) live
  | None => live
  end.

(** [stop()]. *)
Definition stop (c : Controller) : Controller :=
  {| config := config c; snowflakes := snowflakes c;
     document_width := document_width c; document_height := document_height c;
     active := false; interval := None;
     timers := clearInterval (interval c) (timers c);
     sleepers := sleepers c |}.

(** [clear()]: every element is removed from the page, then the field is
    given a new, empty array. *)
Definition clear (sc : Scene) : Scene :=
  let '(p, c) := sc in
  (foldl (fun q s => detach (node (element s)) q) p (snowflakes c),
   with_snowflakes [] c).

(** [resize(width, height)].  The loop changes every snowflake in place and
    leaves the array as it is; the cached size is read inside the loop and
    written after it. *)
Definition resize (width height : R) (c : Controller) : Controller :=
  let shift s :=
    let s1 := set_left (left s + (width - document_width c)) s in
    set_top (top s1 + (height - document_height c)) s1 in
  {| config := config c; snowflakes := map shift (snowflakes c);
     document_width := width; document_height := height;
     active := active c; interval := interval c;
     timers := timers c; sleepers := sleepers c |}.

(** [new Controller(body, config)], with the viewport size the constructor
    reads from [document.documentElement].  [active] is not set by the
    constructor, so [start] finds it falsy. *)
Definition new_Controller (cfg : CONFIG) (clientWidth clientHeight : R)
    (p : Page) : Scene :=
  start (p, {| config := cfg; snowflakes := [];
               document_width := clientWidth; document_height := clientHeight;
               active := false; interval := None;
               timers := []; sleepers := [] |}).

(** ** The host's rendering *)

(** What becomes of a length between the script and the screen is the
    browser's business, and the script only sees the outcome.  [style_px v]
    is the number the getters compute,
    [Number(element.style.left.replace('px', ''))], after [v + 'px'] was
    assigned to that style property: the style keeps the length and
    serialises it whenever it is read.  [layout_px v] is the coordinate
    [getBoundingClientRect()] reports for a box whose style length is [v]. *)
Record Host := {
  style_px : R -> R;
  layout_px : R -> R
}.

(** A host that hands every number back as it was given.  [top], [left],
    [bounds] and what is built on them above are the script on this host
    ([rendered_exact] below); they serve where a statement does not depend
    on how a number reads back. *)
Definition exact_host : Host :=
  {| style_px := fun v => v; layout_px := fun v => v |}.

(** The decimal exponent of a non-zero number: [e] with
    [10^e <= |v| < 10^(e+1)]. *)
Definition decade (v : R) : Z := Int_part (ln (Rabs v) / ln 10).

(** Chromium serialises the number of a length with six significant
    digits: [0.30000000000000004px] reads ["0.3px"] and [1000.999px] reads
    ["1001px"].  The integer nearest to [|v| / 10^(e-5)] is taken, the half
    going up. *)
Definition six_digits (v : R) : R :=
  if Req_dec_T v 0 then 0
  else
    let e := decade v in
    let m := Int_part (Rabs v * powerRZ 10 (5 - e) + / 2) in
    (if Rlt_dec v 0 then - IZR m else IZR m) * powerRZ 10 (e - 5).

(** Chromium lays boxes out on a grid of 1/64 pixel and cuts a length down
    to it, towards zero: a box at [top: 110.01px] is reported at [110]. *)
Definition sixty_fourths (v : R) : R :=
  (if Rlt_dec v 0 then - IZR (Int_part (- v * 64)) else IZR (Int_part (v * 64)))
  / 64.

Definition chromium : Host :=
  {| style_px := six_digits; layout_px := sixty_fourths |}.

(** The part of the script that reads positions back, on a host [h].  The
    setters, the constructor, [spawn] and [remove] only write, so they are
    the ones above. *)
Module Rendered.
Section on_host.
Variable h : Host.

(** [get top()] and [get left()]: the style's text for the length that was
    written, as a number. *)
Definition top (s : Snowflake) : R := style_px h (style_top (element s)).
Definition left (s : Snowflake) : R := style_px h (style_left (element s)).

(** [get bounds()]: the box the layout engine made of the style position.
    The stylesheet of [injectCSS] pins the container to the viewport's
    origin and makes every snowflake an absolutely positioned box of [10px]
    by [10px]. *)
Definition bounds (s : Snowflake) : DOMRect :=
  {| x := layout_px h (style_left (element s));
     y := layout_px h (style_top (element s));
     width := 10; height := 10 |}.

(** [animate()], the two assignments that open the loop body. *)
Definition move (c : Controller) (now : R) (s : Snowflake) : Snowflake :=
  let s1 := set_left (getSine 1.0 0.005 (left s + SWAY_RATE (config c)) now) s in
  set_top (top s1 + FALL_RATE (config c)) s1.

(** [animate()], the condition of the [if] on the snowflake's bounds. *)
Definition exits (c : Controller) (s : Snowflake) : bool :=
  let b := bounds s in
  Rgtb (x b) (document_width c + width b)
  || Rgtb (y b) (document_height c + height b).

(** [animate()], the loop body for the snowflake [s] delivered from slot
    [k]. *)
Definition animate_visit (e : Env) (k : nat) (s : Snowflake) (sc : Scene) : Scene :=
  let '(p, c) := sc in
  let s' := move c (Date_now e k) s in
  let sc' := (p, with_snowflakes (<[k := s']> (snowflakes c)) c) in
  if exits c s' then spawn (Math_random e k) (remove s' sc') else sc'.

(** The [for ... of] loop of [animate()]; [None] means the fuel ran out
    before the iterator was done. *)
Fixpoint animate_loop (fuel : nat) (e : Env) (k : nat) (sc : Scene) : option Scene :=
  match fuel with
  | O => None
  | S fuel' =>
      match snowflakes sc.2 !! k with
      | None => Some sc
      | Some s => animate_loop fuel' e (S k) (animate_visit e k s sc)
      end
  end.

(** [animate()].  The fallback is never taken ([rendered_loop_total]). *)
Definition animate (e : Env) (sc : Scene) : Scene :=
  default sc (animate_loop (S (length (snowflakes sc.2))) e 0 sc).

(** [n] ticks in a row; the [i]-th tick (counting from 0) reads [es i]. *)
Fixpoint ticks (n : nat) (es : nat -> Env) (sc : Scene) : Scene :=
  match n with
  | O => sc
  | S n' => animate (es n') (ticks n' es sc)
  end.

(** [resize(width, height)]. *)
Definition resize (width height : R) (c : Controller) : Controller :=
  let shift s :=
    let s1 := set_left (left s + (width - document_width c)) s in
    set_top (top s1 + (height - document_height c)) s1 in
  {| config := config c; snowflakes := map shift (snowflakes c);
     document_width := width; document_height := height;
     active := active c; interval := interval c;
     timers := timers c; sleepers := sleepers c |}.

End on_host.
End Rendered.

(** ** The effect manager *)

(** [aSocketSnow] after [main]: the container and the [controllers] array. *)
Record World := {
  body : Page;
  controllers : list Controller
}.

(** Run a method of the [k]-th controller on the shared page. *)
Definition on_controller (k : nat) (f : Scene -> Scene) (w : World) : World :=
  match controllers w !! k with
  | None => w
  | Some c =>
      let '(p, c') := f (body w, c) in
      {| body := p; controllers := <[k := c']> (controllers w) |}
  end.

(** [createContainer()]: a container without children.  Timer handles of a
    browser start at [1]. *)
Definition createContainer : Page :=
  {| children := []; next_node := 0; next_handle := 1 |}.

(** [main()], for the list of layers in [aSocketSnow.CONFIG] and the size
    of the viewport at load time. *)
Definition main (layers : list CONFIG) (clientWidth clientHeight : R) : World :=
  foldl (fun w layer =>
           let '(p, c) := new_Controller layer clientWidth clientHeight (body w) in
           {| body := p; controllers := controllers w ++ [c] |})
        {| body := createContainer; controllers := [] |}
        layers.

(** The ['resize'] listener installed by [main]. *)
Definition on_resize (clientWidth clientHeight : R) (w : World) : World :=
  {| body := body w;
     controllers := map (resize clientWidth clientHeight) (controllers w) |}.

(** *** Command dispatch *)

(** The methods of the class [Controller]. *)
Inductive Operation :=
  | op_start | op_spawn | op_generate | op_animate
  | op_remove | op_clear | op_stop | op_resize.

(** What [controller[cmd]] evaluates to, as far as [command] can tell: the
    property is missing ([undefined]), a data field (truthy or falsy, never
    callable), one of the class's methods, or something inherited that is
    truthy and does not touch the controller when called without arguments:
    the members of [Object.prototype] and [constructor]; calling it either
    returns or throws. *)
Inductive Property :=
  | Missing
  | Field (truthy : bool)
  | Method (op : Operation)
  | Inherited (throws : bool).

Local Open Scope string_scope.

Definition Controller_prototype : list (string * Operation) :=
  [ ("start", op_start); ("spawn", op_spawn); ("generate", op_generate);
    ("animate", op_animate); ("remove", op_remove); ("clear", op_clear);
    ("stop", op_stop); ("resize", op_resize) ].

Definition Controller_fields (c : Controller) : list (string * bool) :=
  [ ("body", true); ("config", true); ("snowflakes", true);
    ("document", true); ("active", active c);
    ("interval", match interval c with Some (S _) => true | _ => false end) ].

Definition inherited_members : list (string * bool) :=
  [ ("constructor", true); ("__proto__", true);
    ("__defineGetter__", true); ("__defineSetter__", true);
    ("__lookupGetter__", false); ("__lookupSetter__", false);
    ("hasOwnProperty", false); ("isPrototypeOf", false);
    ("propertyIsEnumerable", false); ("toLocaleString", false);
    ("toString", false); ("valueOf", false) ].

Fixpoint assoc {A : Type} (name : string) (table : list (string * A)) : option A :=
  match table with
  | [] => None
  | (key, v) :: table' => if String.eqb key name then Some v else assoc name table'
  end.

(** [controller[cmd]]: own fields first, then the class, then what every
    object inherits. *)
Definition get_property (c : Controller) (cmd : string) : Property :=
  match assoc cmd (Controller_fields c) with
  | Some b => Field b
  | None =>
      match assoc cmd Controller_prototype with
      | Some op => Method op
      | None =>
          match assoc cmd inherited_members with
          | Some throws => Inherited throws
          | None => Missing
          end
      end
  end.

Local Close Scope string_scope.

(** How a call ends: it returns, it throws (what it did before stays done),
    or it leaves this embedding: [resize()] without arguments computes with
    [undefined], which the real numbers used here do not have. *)
Inductive Completion (A : Type) :=
  | Returned (a : A)
  | Threw (a : A)
  | Unmodelled.
Arguments Returned {A} a.
Arguments Threw {A} a.
Arguments Unmodelled {A}.

(** [controller[cmd]()] for a method of the class, called the way [command]
    calls it: without arguments.  [remove(undefined)] looks for [undefined]
    in the array, does not find it, splices at [-1] and then throws when it
    reads [undefined.element]. *)
Definition invoke (op : Operation) (e : Env) (sc : Scene) : Completion Scene :=
  match op with
  | op_start => Returned (start sc)
  | op_spawn => Returned (spawn (Math_random e 0) sc)
  | op_generate => Returned (sc.1, generate sc.2)
  | op_animate => Returned (animate e sc)
  | op_clear => Returned (clear sc)
  | op_stop => Returned (sc.1, stop sc.2)
  | op_remove =>
      Threw (sc.1, with_snowflakes (splice1 None (snowflakes sc.2)) sc.2)
  | op_resize => Unmodelled
  end.

(** The loop of [command]: the controllers with index [k], [k + 1], ... up
    to [k + n - 1] are called in order; a throw ends the loop. *)
Fixpoint broadcast (n : nat) (op : Operation) (envs : nat -> Env) (k : nat)
    (w : World) : Completion World :=
  match n with
  | O => Returned w
  | S n' =>
      match controllers w !! k with
      | None => Returned w
      | Some c =>
          match invoke op (envs k) (body w, c) with
          | Returned (p, c') =>
              broadcast n' op envs (S k)
                {| body := p; controllers := <[k := c']> (controllers w) |}
          | Threw (p, c') =>
              Threw {| body := p; controllers := <[k := c']> (controllers w) |}
          | Unmodelled => Unmodelled
          end
      end
  end.

(** [aSocketSnow.command(cmd)].  With no controller at all, reading
    [controllers[0][cmd]] throws.  A truthy property that is not a function
    throws at the first call. *)
Definition command (cmd : string) (envs : nat -> Env) (w : World) : Completion World :=
  match controllers w with
  | [] => Threw w
  | c0 :: _ =>
      match get_property c0 cmd with
      | Missing => Returned w
      | Field false => Returned w
      | Field true => Threw w
      | Inherited throws => if throws then Threw w else Returned w
      | Method op => broadcast (length (controllers w)) op envs 0 w
      end
  end.

(** ** The event loop *)

(** What can happen to the page after [main]: the interval [handle] of
    controller [k] fires, the timeout of its [j]-th suspended [generate]
    fires, the window is resized, or the host page calls [command]. *)
Inductive Event :=
  | Tick (k handle : nat) (e : Env)
  | Wake (k j : nat) (random : R)
  | Resized (clientWidth clientHeight : R)
  | Command (cmd : string) (envs : nat -> Env).

(** The callback of [setInterval] runs only while its handle is live. *)
Definition tick (handle : nat) (e : Env) (sc : Scene) : Scene :=
  if bool_decide (handle ∈ timers sc.2) then animate e sc else sc.

(** One turn of the event loop.  An exception thrown inside [command] ends
    that turn only.  [None]: the turn leaves the embedding. *)
Definition step (ev : Event) (w : World) : option World :=
  match ev with
  | Tick k handle e => Some (on_controller k (tick handle e) w)
  | Wake k j random => Some (on_controller k (generate_resume j random) w)
  | Resized clientWidth clientHeight => Some (on_resize clientWidth clientHeight w)
  | Command cmd envs =>
      match command cmd envs w with
      | Returned w' | Threw w' => Some w'
      | Unmodelled => None
      end
  end.

Fixpoint run (evs : list Event) (w : World) : option World :=
  match evs with
  | [] => Some w
  | ev :: evs' =>
      match step ev w with
      | Some w' => run evs' w'
      | None => None
      end
  end.

(** ** Notions used in the statements *)

(** *** Inside a tick *)

(** The state of the array after the two setters of the loop body ran on
    the snowflake in slot [k], before its bounds are looked at. *)
Definition moved (e : Env) (k : nat) (s : Snowflake) (sc : Scene) : Scene :=
  (sc.1, with_snowflakes (<[k := move sc.2 (Date_now e k) s]> (snowflakes sc.2)) sc.2).

(** The snowflake [spawn] creates on page [p] for controller [c]. *)
Definition replacement (random : R) (p : Page) (c : Controller) : Snowflake :=
  {| element := {| node := next_node p;
                   style_left := random * document_width c;
                   style_top := 0;
                   style_filter := BLUR (config c) |} |}.

(** The page after node [n] was taken off and a new snowflake put on. *)
Definition recycled_page (n : nat) (p : Page) : Page :=
  {| children := filter (fun m => m ≠ n) (children p) ++ [next_node p];
     next_node := S (next_node p);
     next_handle := next_handle p |}.

(** [n] ticks in a row; the [i]-th tick (counting from 0) reads [es i]. *)
Fixpoint ticks (n : nat) (es : nat -> Env) (sc : Scene) : Scene :=
  match n with
  | O => sc
  | S n' => animate (es n') (ticks n' es sc)
  end.

(** *** Well-formed states *)

(** The snowflakes of a scene's array are distinct objects, all created
    before now. *)
Definition tidy (sc : Scene) : Prop :=
  NoDup (map (fun t => node (element t)) (snowflakes sc.2))
  ∧ Forall (fun t => (node (element t) < next_node sc.1)%nat) (snowflakes sc.2).

(** The live intervals of a controller are the one it remembers in its
    [interval] field, if any. *)
Definition timers_ok (c : Controller) : Prop :=
  timers c = match interval c with Some h => [h] | None => [] end.

(** The bookkeeping of a controller is sound on a page: its snowflakes are
    distinct objects created on that page, its live intervals are the one
    it remembers, and a stopped controller remembers none. *)
Definition settled (c : Controller) : Prop :=
  timers_ok c ∧ (active c = false → interval c = None).

Definition good (sc : Scene) : Prop := tidy sc ∧ settled sc.2.

Definition sound (w : World) : Prop :=
  Forall (fun c => good (body w, c)) (controllers w).

(** A method keeps the bookkeeping sound and never takes a node identity
    back. *)
Definition keeps_good (f : Scene → Scene) : Prop :=
  ∀ p c, good (p, c) → good (f (p, c)) ∧ (next_node p ≤ next_node (f (p, c)).1)%nat.

(** *** Timers of one controller *)

(** The callbacks the timers of one controller can deliver: its interval
    fires, or the timeout of one of its suspended [generate] calls fires. *)
Inductive TimerEvent :=
  | Fires (handle : nat) (e : Env)
  | Resumes (j : nat) (random : R).

Definition deliver (ev : TimerEvent) (sc : Scene) : Scene :=
  match ev with
  | Fires handle e => tick handle e sc
  | Resumes j random => generate_resume j random sc
  end.

(** *** The limit *)

Definition within_limit (c : Controller) : Prop :=
  (length (snowflakes c) ≤ LIMIT (config c))%nat.

(** The population is on schedule: at most one [generate] is suspended, and
    its loop variable has kept up with the number of snowflakes. *)
Definition paced (c : Controller) : Prop :=
  within_limit c
  ∧ match sleepers c with
    | [] => True
    | [i] => (length (snowflakes c) ≤ i)%nat ∧ (i < LIMIT (config c))%nat
    | _ => False
    end.

(** No population sequence of an earlier [start()] is still suspended on a
    stopped controller. *)
Definition rested (c : Controller) : Prop :=
  active c = true ∨ sleepers c = [].

(** The events under which the limit is kept: timers, resizes, and the
    commands [stop], [clear] and [start], the last one only while every
    controller is rested. *)
Definition gentle (ev : Event) (w : World) : Prop :=
  match ev with
  | Command cmd _ =>
      cmd = "stop"%string ∨ cmd = "clear"%string
      ∨ (cmd = "start"%string ∧ Forall rested (controllers w))
  | _ => True
  end.

(** A sequence of events each of which is gentle in the state it meets. *)
Fixpoint quiet (evs : list Event) (w : World) : Prop :=
  match evs with
  | [] => True
  | ev :: evs' => gentle ev w ∧ ∀ w', step ev w = Some w' → quiet evs' w'
  end.

(** *** Sample scenes *)

(** The layer of the scenario: limit 1, fall rate 10 and no sway. *)
Definition scenario_config : CONFIG :=
  {| LIMIT := 1; BLUR := 1; FALL_RATE := 10; SWAY_RATE := 0 |}.

(** A snowflake with node [n] at [(left0, top0)]. *)
Definition flake_at (n : nat) (left0 top0 : R) : Snowflake :=
  {| element := {| node := n; style_left := left0; style_top := top0;
                   style_filter := 1 |} |}.

(** The scenario's controller, on a viewport of 100 by 100, running and
    holding the snowflakes [l]. *)
Definition controller_with (l : list Snowflake) : Controller :=
  {| config := scenario_config; snowflakes := l;
     document_width := 100; document_height := 100;
     active := true; interval := Some 1%nat; timers := [1%nat]; sleepers := [] |}.

(** The scenario proper: a single snowflake at the top. *)
Definition scenario_flake (left0 : R) : Snowflake := flake_at 0 left0 0.

Definition scenario_controller (left0 : R) : Controller :=
  controller_with [scenario_flake left0].

(** The pages of a controller that has created one and two snowflakes. *)
Definition scenario_page : Page :=
  {| children := [0%nat]; next_node := 1; next_handle := 2 |}.

Definition two_flake_page : Page :=
  {| children := [0%nat; 1%nat]; next_node := 2; next_handle := 2 |}.

(** A clock stuck at [0] and a random source stuck at [0]. *)
Definition still : Env := {| Date_now := fun _ => 0; Math_random := fun _ => 0 |}.

(** The first of the shipped layers, on a viewport of 1024 by 768, running
    and holding the snowflakes [l]. *)
Definition desktop_controller (l : list Snowflake) : Controller :=
  {| config := {| LIMIT := 20; BLUR := 1; FALL_RATE := 5; SWAY_RATE := 1 |};
     snowflakes := l;
     document_width := 1024; document_height := 768;
     active := true; interval := Some 1%nat; timers := [1%nat]; sleepers := [] |}.

(** *** Further notions *)

(** The controller [new Controller] yields for the layer [cfg] when the
    host hands out [handle] for its interval: running, empty, and with its
    population sequence suspended at [i = 0] unless the limit is 0. *)
Definition started (cfg : CONFIG) (clientWidth clientHeight : R) (handle : nat)
    : Controller :=
  {| config := cfg; snowflakes := [];
     document_width := clientWidth; document_height := clientHeight;
     active := true; interval := Some handle; timers := [handle];
     sleepers := if (0 <? LIMIT cfg)%nat then [0%nat] else [] |}.


(** How many of the timer events are timeouts of the [generate] call that
    has been suspended longest. *)
Fixpoint timeouts (evs : list TimerEvent) : nat :=
  match evs with
  | [] => 0
  | Resumes O _ :: evs' => S (timeouts evs')
  | _ :: evs' => timeouts evs'
  end.

(** The nodes of a controller's snowflakes, in array order. *)
Definition nodes (c : Controller) : list nat :=
  map (fun t => node (element t)) (snowflakes c).

(** The events that come from timers: ticks and resume points. *)
Definition from_timer (ev : Event) : Prop :=
  match ev with
  | Tick _ _ _ | Wake _ _ _ => True
  | _ => False
  end.

(** A world all of whose controllers are stopped, deaf to their timers and
    hold what the controllers of [w0] hold. *)
Definition frozen_like (w0 w : World) : Prop :=
  body w = body w0
  ∧ length (controllers w) = length (controllers w0)
  ∧ ∀ k c, controllers w0 !! k = Some c →
           ∃ c', controllers w !! k = Some c'
                 ∧ snowflakes c' = snowflakes c ∧ active c' = false ∧ timers c' = [].

(** *** The container and the live snowflakes *)

(** A scene in order: the controller's snowflakes are distinct, their
    elements are attached, and every attached node was handed out
    before. *)
Definition scene_ok (sc : Scene) : Prop :=
  NoDup (nodes sc.2)
  ∧ (∀ n, n ∈ nodes sc.2 → n ∈ children sc.1)
  ∧ Forall (fun n => (n < next_node sc.1)%nat) (children sc.1).

(** How a method of one controller may change the scene without leaking:
    the scene stays in order, node identities are not reused, the
    snowflakes it holds afterwards are old ones or new ones, and the nodes
    attached afterwards are those of its snowflakes and those that belonged
    to others before. *)
Definition tended (sc sc' : Scene) : Prop :=
  scene_ok sc'
  ∧ (next_node sc.1 ≤ next_node sc'.1)%nat
  ∧ (∀ n, n ∈ nodes sc'.2 → n ∈ nodes sc.2 ∨ (next_node sc.1 ≤ n)%nat)
  ∧ (∀ n, n ∈ children sc'.1
          ↔ (n ∈ children sc.1 ∧ n ∉ nodes sc.2) ∨ n ∈ nodes sc'.2).

(** The container holds exactly the elements of the live snowflakes, each
    snowflake has its own element, and no two controllers share one. *)
Definition leak_free (w : World) : Prop :=
  (∀ k c, controllers w !! k = Some c → NoDup (nodes c))
  ∧ (∀ k1 k2 c1 c2 n,
       controllers w !! k1 = Some c1 → controllers w !! k2 = Some c2 →
       n ∈ nodes c1 → n ∈ nodes c2 → k1 = k2)
  ∧ (∀ n, n ∈ children (body w)
          ↔ ∃ k c, controllers w !! k = Some c ∧ n ∈ nodes c)
  ∧ Forall (fun n => (n < next_node (body w))%nat) (children (body w)).

(** Every event but [command("remove")], which drops a snowflake from the
    array and throws before it detaches anything. *)
Definition no_remove (ev : Event) : Prop :=
  match ev with
  | Command cmd _ => cmd ≠ "remove"%string
  | _ => True
  end.

(** Every event but [command("resize")]: called without arguments,
    [resize] computes with [undefined], which [invoke] does not follow. *)
Definition no_bare_resize (ev : Event) : Prop :=
  match ev with
  | Command cmd _ => cmd ≠ "resize"%string
  | _ => True
  end.

(** * Properties *)

(** ** Comparisons and the array primitives *)

Lemma Rgtb_true (a b : R) : a > b -> Rgtb a b = true.
Proof. intros H. unfold Rgtb. destruct (Rgt_dec a b); [reflexivity | contradiction]. Qed.

Lemma Rgtb_false (a b : R) : ¬ a > b -> Rgtb a b = false.
Proof. intros H. unfold Rgtb. destruct (Rgt_dec a b); [contradiction | reflexivity]. Qed.

Lemma Rgtb_spec (a b : R) : Rgtb a b = true ↔ a > b.
Proof.
  unfold Rgtb. destruct (Rgt_dec a b); split; intros; try done.
Qed.

Lemma indexOf_lt (l : list Snowflake) (s : Snowflake) (i : nat) :
  indexOf l s = Some i → (i < length l)%nat.
Proof.
  revert i. induction l as [|t l IH]; intros i; simpl; [done|].
  destruct (same_object t s).
  - intros [= <-]. lia.
  - destruct (indexOf l s) as [j|]; simpl; [|done].
    intros [= <-]. specialize (IH j eq_refl). lia.
Qed.

(** [indexOf] finds the first slot with the same node. *)
Lemma indexOf_Some (l : list Snowflake) (s : Snowflake) (i : nat) :
  indexOf l s = Some i →
  ∃ t, l !! i = Some t ∧ node (element t) = node (element s).
Proof.
  revert i. induction l as [|t l IH]; intros i; simpl; [done|].
  unfold same_object. destruct (Nat.eqb_spec (node (element t)) (node (element s))).
  - intros [= <-]. eauto.
  - destruct (indexOf l s) as [j|]; simpl; [|done].
    intros [= <-]. simpl. eauto.
Qed.

(** When the nodes of the array are pairwise distinct, an object is found
    in the slot it sits in. *)
Lemma indexOf_NoDup (l : list Snowflake) (s : Snowflake) (i : nat) :
  NoDup (map (fun t => node (element t)) l) →
  l !! i = Some s →
  indexOf l s = Some i.
Proof.
  revert i. induction l as [|t l IH]; intros i Hnd Hi; [done|].
  simpl in Hnd. apply NoDup_cons in Hnd as [Hnotin Hnd].
  simpl. unfold same_object.
  destruct i as [|i]; simpl in Hi.
  - injection Hi as ->. by rewrite Nat.eqb_refl.
  - destruct (Nat.eqb_spec (node (element t)) (node (element s))) as [Heq|_].
    + exfalso. apply Hnotin. rewrite Heq.
      apply list_elem_of_fmap. exists s. split; [done|].
      by eapply list_elem_of_lookup_2.
    + by rewrite (IH i Hnd Hi).
Qed.

(** [splice(start, 1)] takes exactly one entry out of a non-empty array,
    also when [start] is [-1]. *)
Lemma splice1_length (l : list Snowflake) (s : Snowflake) :
  l ≠ [] →
  length (splice1 (indexOf l s) l) = (length l - 1)%nat.
Proof.
  intros Hne. unfold splice1.
  destruct (indexOf l s) as [i|] eqn:Hi.
  - apply indexOf_lt in Hi. apply length_delete. by apply lookup_lt_is_Some.
  - apply length_delete. apply lookup_lt_is_Some.
    destruct l; [done | simpl; lia].
Qed.

(** ** The tick *)

(** The configuration and the cached size are not touched by the loop body,
    so [move] and [exits] may be taken at any state of the tick. *)
Lemma animate_visit_frame (e : Env) (k : nat) (s : Snowflake) (sc : Scene) :
  let c := sc.2 in
  let c' := (animate_visit e k s sc).2 in
  config c' = config c ∧ document_width c' = document_width c
  ∧ document_height c' = document_height c ∧ active c' = active c
  ∧ interval c' = interval c ∧ timers c' = timers c ∧ sleepers c' = sleepers c.
Proof.
  destruct sc as [p c]. simpl. unfold animate_visit.
  destruct (exits c (move c (Date_now e k) s)); simpl; done.
Qed.

(** A visit leaves the number of snowflakes as it was: a recycled snowflake
    is replaced by one new snowflake. *)
Lemma animate_visit_length (e : Env) (k : nat) (s : Snowflake) (sc : Scene) :
  snowflakes sc.2 !! k = Some s →
  length (snowflakes (animate_visit e k s sc).2) = length (snowflakes sc.2).
Proof.
  destruct sc as [p c]. simpl. intros Hk.
  assert (k < length (snowflakes c))%nat as Hlt by (by eapply lookup_lt_Some).
  unfold animate_visit.
  destruct (exits c (move c (Date_now e k) s)); simpl.
  - rewrite length_app, splice1_length; simpl.
    + rewrite length_insert. lia.
    + intros Hnil. apply (f_equal length) in Hnil.
      rewrite length_insert in Hnil. simpl in Hnil. lia.
  - by rewrite length_insert.
Qed.

(** The loop always comes to its end: once the fuel covers the slots that
    are left, the iterator runs out of slots before the fuel runs out. *)
Lemma animate_loop_total (e : Env) (fuel k : nat) (sc : Scene) :
  (length (snowflakes sc.2) - k < fuel)%nat →
  is_Some (animate_loop fuel e k sc).
Proof.
  revert k sc. induction fuel as [|fuel IH]; intros k sc Hlen; [lia|].
  simpl. destruct (snowflakes sc.2 !! k) as [s|] eqn:Hk; [|eauto].
  apply lookup_lt_Some in Hk as Hlt.
  apply IH. rewrite animate_visit_length by done. lia.
Qed.

Lemma animate_loop_length (e : Env) (fuel k : nat) (sc sc' : Scene) :
  animate_loop fuel e k sc = Some sc' →
  length (snowflakes sc'.2) = length (snowflakes sc.2).
Proof.
  revert k sc. induction fuel as [|fuel IH]; intros k sc; simpl; [done|].
  destruct (snowflakes sc.2 !! k) as [s|] eqn:Hk.
  - intros H. apply IH in H. by rewrite H, animate_visit_length.
  - by intros [= <-].
Qed.

(** More fuel than needed gives the same result. *)
Lemma animate_loop_more_fuel (e : Env) (fuel fuel' k : nat) (sc sc' : Scene) :
  (fuel ≤ fuel')%nat →
  animate_loop fuel e k sc = Some sc' →
  animate_loop fuel' e k sc = Some sc'.
Proof.
  revert fuel' k sc. induction fuel as [|fuel IH]; intros fuel' k sc Hle; simpl; [done|].
  destruct fuel' as [|fuel']; [lia|]. simpl.
  destruct (snowflakes sc.2 !! k) as [s|]; [|done].
  apply IH. lia.
Qed.

(** [animate] is the result of its loop. *)
Lemma animate_loop_animate (e : Env) (sc : Scene) :
  animate_loop (S (length (snowflakes sc.2))) e 0 sc = Some (animate e sc).
Proof.
  unfold animate.
  destruct (animate_loop_total e (S (length (snowflakes sc.2))) 0 sc) as [r Hr]; [lia|].
  by rewrite Hr.
Qed.

Lemma animate_length (e : Env) (sc : Scene) :
  length (snowflakes (animate e sc).2) = length (snowflakes sc.2).
Proof. eapply animate_loop_length, animate_loop_animate. Qed.

Lemma animate_loop_frame (e : Env) (fuel k : nat) (sc sc' : Scene) :
  animate_loop fuel e k sc = Some sc' →
  config sc'.2 = config sc.2 ∧ document_width sc'.2 = document_width sc.2
  ∧ document_height sc'.2 = document_height sc.2 ∧ active sc'.2 = active sc.2
  ∧ interval sc'.2 = interval sc.2 ∧ timers sc'.2 = timers sc.2
  ∧ sleepers sc'.2 = sleepers sc.2.
Proof.
  revert k sc. induction fuel as [|fuel IH]; intros k sc; simpl; [done|].
  destruct (snowflakes sc.2 !! k) as [s|] eqn:Hk.
  - intros H. apply IH in H.
    pose proof (animate_visit_frame e k s sc) as F. simpl in F.
    destruct H as (-> & -> & -> & -> & -> & -> & ->). exact F.
  - by intros [= <-].
Qed.

Lemma animate_frame (e : Env) (sc : Scene) :
  config (animate e sc).2 = config sc.2
  ∧ document_width (animate e sc).2 = document_width sc.2
  ∧ document_height (animate e sc).2 = document_height sc.2
  ∧ active (animate e sc).2 = active sc.2
  ∧ interval (animate e sc).2 = interval sc.2
  ∧ timers (animate e sc).2 = timers sc.2
  ∧ sleepers (animate e sc).2 = sleepers sc.2.
Proof. eapply animate_loop_frame, animate_loop_animate. Qed.

Lemma animate_visit_unfold (e : Env) (k : nat) (s : Snowflake) (sc : Scene) :
  animate_visit e k s sc =
  if exits sc.2 (move sc.2 (Date_now e k) s)
  then spawn (Math_random e k) (remove (move sc.2 (Date_now e k) s) (moved e k s sc))
  else moved e k s sc.
Proof. by destruct sc. Qed.

Lemma move_with_snowflakes (l : list Snowflake) (c : Controller) (now : R) (s : Snowflake) :
  move (with_snowflakes l c) now s = move c now s.
Proof. reflexivity. Qed.

Lemma exits_with_snowflakes (l : list Snowflake) (c : Controller) (s : Snowflake) :
  exits (with_snowflakes l c) s = exits c s.
Proof. reflexivity. Qed.

Lemma with_snowflakes_twice (l l' : list Snowflake) (c : Controller) :
  with_snowflakes l (with_snowflakes l' c) = with_snowflakes l c.
Proof. reflexivity. Qed.

Lemma snowflakes_with_snowflakes (l : list Snowflake) (c : Controller) :
  snowflakes (with_snowflakes l c) = l.
Proof. reflexivity. Qed.

Lemma animate_loop_step (e : Env) (fuel k : nat) (s : Snowflake) (sc : Scene) :
  snowflakes sc.2 !! k = Some s →
  animate_loop (S fuel) e k sc = animate_loop fuel e (S k) (animate_visit e k s sc).
Proof. intros H. simpl. by rewrite H. Qed.

Lemma animate_loop_done (e : Env) (fuel k : nat) (sc : Scene) :
  snowflakes sc.2 !! k = None →
  animate_loop (S fuel) e k sc = Some sc.
Proof. intros H. simpl. by rewrite H. Qed.

(** A stretch of snowflakes that all stay inside is moved one by one, each
    with the clock reading of its own visit, and nothing else changes. *)
Lemma animate_loop_stay (e : Env) (mid pre post : list Snowflake) (p : Page)
    (c : Controller) (fuel : nat) :
  (∀ j s, mid !! j = Some s →
          exits c (move c (Date_now e (length pre + j)) s) = false) →
  animate_loop (length mid + fuel) e (length pre)
    (p, with_snowflakes (pre ++ mid ++ post) c)
  = animate_loop fuel e (length pre + length mid)
      (p, with_snowflakes
            (pre ++ imap (fun j => move c (Date_now e (length pre + j))) mid ++ post) c).
Proof.
  revert pre. induction mid as [|s mid IH]; intros pre Hstay.
  - simpl. by rewrite Nat.add_0_r.
  - change (length (s :: mid) + fuel)%nat with (S (length mid + fuel)).
    rewrite (animate_loop_step _ _ _ s) by (simpl; by rewrite list_lookup_middle).
    rewrite animate_visit_unfold. unfold moved. simpl fst. simpl snd.
    rewrite !move_with_snowflakes, !exits_with_snowflakes,
      with_snowflakes_twice, snowflakes_with_snowflakes.
    pose proof (Hstay 0%nat s eq_refl) as H0. rewrite Nat.add_0_r in H0.
    rewrite H0.
    set (s' := move c (Date_now e (length pre)) s).
    rewrite insert_app_r_alt, Nat.sub_diag by lia. simpl insert.
    specialize (IH (pre ++ [s'])).
    rewrite length_app in IH. simpl length in IH.
    rewrite <- !(assoc_L (++)) in IH. simpl app in IH.
    replace (S (length pre)) with (length pre + 1)%nat by lia.
    simpl app.
    rewrite IH.
    + f_equal; [simpl; lia|]. do 3 f_equal. simpl. rewrite Nat.add_0_r. fold s'.
      f_equal. f_equal. apply imap_ext. intros j t _. simpl. do 2 f_equal. lia.
    + intros j t Hj. specialize (Hstay (S j) t Hj).
      by replace (length pre + 1 + j)%nat with (length pre + S j)%nat by lia.
Qed.

Lemma with_snowflakes_same (c : Controller) : with_snowflakes (snowflakes c) c = c.
Proof. by destruct c. Qed.

(** A tick in which no snowflake leaves moves every snowflake, in place. *)
Lemma animate_all_stay (e : Env) (p : Page) (c : Controller) :
  (∀ j s, snowflakes c !! j = Some s → exits c (move c (Date_now e j) s) = false) →
  animate e (p, c)
  = (p, with_snowflakes (imap (fun j => move c (Date_now e j)) (snowflakes c)) c).
Proof.
  intros Hstay.
  pose proof (animate_loop_animate e (p, c)) as Ha. cbn [fst snd] in Ha.
  pose proof (animate_loop_stay e (snowflakes c) [] [] p c 1) as Hl.
  cbn [length app Nat.add] in Hl. rewrite !app_nil_r in Hl.
  rewrite with_snowflakes_same in Hl.
  replace (S (length (snowflakes c))) with (length (snowflakes c) + 1)%nat in Ha by lia.
  rewrite Hl in Ha by done.
  rewrite animate_loop_done in Ha.
  - by injection Ha as <-.
  - simpl. apply lookup_ge_None. by rewrite length_imap.
Qed.

(** ** Recycling *)

Lemma nodes_insert_move (c : Controller) (now : R) (k : nat) (s : Snowflake)
    (l : list Snowflake) :
  l !! k = Some s →
  map (fun t => node (element t)) (<[k := move c now s]> l)
  = map (fun t => node (element t)) l.
Proof.
  intros Hk. change map with (@fmap list _) at 1 2.
  rewrite list_fmap_insert. simpl. apply list_insert_id.
  by rewrite list_lookup_fmap, Hk.
Qed.

Lemma delete_insert_same {A : Type} (l : list A) (k : nat) (a : A) :
  delete k (<[k := a]> l) = delete k l.
Proof.
  revert k. induction l as [|b l IH]; intros [|k]; simpl; try done.
  by rewrite <- IH.
Qed.

Lemma exits_spec (c : Controller) (s : Snowflake) :
  exits c s = true
  ↔ x (bounds s) > document_width c + width (bounds s)
    ∨ y (bounds s) > document_height c + height (bounds s).
Proof.
  unfold exits. rewrite orb_true_iff, !Rgtb_spec. done.
Qed.

(** What recycling the snowflake of slot [k] does to a tidy scene. *)
Lemma recycle_tidy (e : Env) (k : nat) (s : Snowflake) (p : Page) (c : Controller) :
  tidy (p, c) →
  snowflakes c !! k = Some s →
  let s' := move c (Date_now e k) s in
  let fresh := {| element := {| node := next_node p;
                                style_left := Math_random e k * document_width c;
                                style_top := 0;
                                style_filter := BLUR (config c) |} |} in
  spawn (Math_random e k) (remove s' (moved e k s (p, c)))
  = ({| children := filter (fun m => m ≠ node (element s)) (children p) ++ [next_node p];
        next_node := S (next_node p);
        next_handle := next_handle p |},
     with_snowflakes (delete k (snowflakes c) ++ [fresh]) c).
Proof.
  intros [Hnd _] Hk s' fresh. unfold moved, remove, spawn. cbn [fst snd].
  rewrite snowflakes_with_snowflakes.
  rewrite (indexOf_NoDup _ s' k).
  - unfold splice1. rewrite delete_insert_same. reflexivity.
  - by rewrite nodes_insert_move.
  - apply list_lookup_insert_eq. by eapply lookup_lt_Some.
Qed.

(** A visit keeps the scene tidy: the replacement of a recycled snowflake
    gets a node that no snowflake had before. *)
Lemma animate_visit_tidy (e : Env) (k : nat) (s : Snowflake) (sc : Scene) :
  tidy sc →
  snowflakes sc.2 !! k = Some s →
  tidy (animate_visit e k s sc).
Proof.
  destruct sc as [p c]. cbn [fst snd]. intros Htidy Hk.
  rewrite animate_visit_unfold. cbn [fst snd].
  destruct (exits c (move c (Date_now e k) s)).
  - rewrite recycle_tidy by done.
    destruct Htidy as [Hnd Hlt]. cbn [fst snd] in *.
    split; cbn [fst snd next_node snowflakes with_snowflakes].
    + change map with (@fmap list _). rewrite fmap_app. simpl.
      apply NoDup_app. split_and!.
      * eapply sublist_NoDup; [exact Hnd|apply fmap_sublist, sublist_delete].
      * intros n Hn. rewrite list_elem_of_singleton. intros ->.
        apply list_elem_of_fmap in Hn as (t & Heq & Hin).
        apply list_elem_of_delete_inv in Hin.
        rewrite Forall_forall in Hlt. apply Hlt in Hin. lia.
      * apply NoDup_singleton.
    + apply Forall_app. split.
      * apply Forall_forall. intros t Hin. apply list_elem_of_delete_inv in Hin.
        rewrite Forall_forall in Hlt. apply Hlt in Hin. lia.
      * repeat constructor.
  - unfold moved. destruct Htidy as [Hnd Hlt]. cbn [fst snd] in *.
    split; cbn [fst snd snowflakes with_snowflakes].
    + by rewrite nodes_insert_move.
    + apply Forall_insert; [done|]. simpl.
      rewrite Forall_forall in Hlt. apply Hlt. by eapply list_elem_of_lookup_2.
Qed.

(** A visit of slot [k] leaves the slots before [k] alone. *)
Lemma animate_visit_before (e : Env) (k j : nat) (s : Snowflake) (sc : Scene) :
  tidy sc →
  snowflakes sc.2 !! k = Some s →
  (j < k)%nat →
  snowflakes (animate_visit e k s sc).2 !! j = snowflakes sc.2 !! j.
Proof.
  destruct sc as [p c]. cbn [fst snd]. intros Htidy Hk Hj.
  apply lookup_lt_Some in Hk as Hlt.
  rewrite animate_visit_unfold. cbn [fst snd].
  destruct (exits c (move c (Date_now e k) s)).
  - rewrite recycle_tidy by done. cbn [fst snd snowflakes with_snowflakes].
    rewrite lookup_app_l by (rewrite length_delete by (by apply lookup_lt_is_Some); lia).
    by rewrite list_lookup_delete_lt.
  - unfold moved. cbn [fst snd snowflakes with_snowflakes].
    apply list_lookup_insert_ne. lia.
Qed.

(** The rest of a tick, from slot [k] on, never touches a slot before [k]. *)
Lemma animate_loop_before (e : Env) (fuel k j : nat) (sc sc' : Scene) :
  tidy sc →
  (j < k)%nat →
  animate_loop fuel e k sc = Some sc' →
  snowflakes sc'.2 !! j = snowflakes sc.2 !! j.
Proof.
  revert k sc. induction fuel as [|fuel IH]; intros k sc Htidy Hj; [done|].
  destruct (snowflakes sc.2 !! k) as [s|] eqn:Hk.
  - rewrite (animate_loop_step _ _ _ s) by done. intros Hrun.
    rewrite (IH (S k) (animate_visit e k s sc)); [| |lia|done].
    + by apply animate_visit_before.
    + by apply animate_visit_tidy.
  - rewrite animate_loop_done by done. by intros [= <-].
Qed.

(** Recycling the snowflake between [pre] and [post]: what followed it
    moves one slot down and the replacement goes to the end. *)
Lemma animate_visit_recycle (e : Env) (pre post : list Snowflake) (s : Snowflake)
    (p : Page) (c : Controller) :
  tidy (p, c) →
  snowflakes c = pre ++ s :: post →
  exits c (move c (Date_now e (length pre)) s) = true →
  animate_visit e (length pre) s (p, c)
  = (recycled_page (node (element s)) p,
     with_snowflakes
       (pre ++ post ++ [replacement (Math_random e (length pre)) p c]) c).
Proof.
  intros Htidy Hl Hout.
  rewrite animate_visit_unfold. cbn [fst snd]. rewrite Hout.
  rewrite recycle_tidy; [|done|by rewrite Hl, list_lookup_middle].
  rewrite Hl, delete_middle, <- (assoc_L (++)). reflexivity.
Qed.

(** When the last snowflake of the array is recycled, its replacement takes
    the very slot the iterator has just left, and the tick is over. *)
Lemma animate_loop_recycle_last (e : Env) (fuel : nat) (pre : list Snowflake)
    (s : Snowflake) (p : Page) (c : Controller) :
  tidy (p, c) →
  snowflakes c = pre ++ [s] →
  exits c (move c (Date_now e (length pre)) s) = true →
  animate_loop (S (S fuel)) e (length pre) (p, c)
  = Some (recycled_page (node (element s)) p,
          with_snowflakes (pre ++ [replacement (Math_random e (length pre)) p c]) c).
Proof.
  intros Htidy Hl Hout.
  rewrite (animate_loop_step _ _ _ s) by (cbn [snd]; by rewrite Hl, list_lookup_middle).
  rewrite (animate_visit_recycle e pre [] s p c) by done.
  apply animate_loop_done. cbn [snd]. rewrite snowflakes_with_snowflakes.
  apply lookup_ge_None. rewrite length_app. simpl. lia.
Qed.

Lemma animate_single_out (e : Env) (s : Snowflake) (p : Page) (c : Controller) :
  tidy (p, c) →
  snowflakes c = [s] →
  exits c (move c (Date_now e 0) s) = true →
  animate e (p, c)
  = (recycled_page (node (element s)) p, with_snowflakes [replacement (Math_random e 0) p c] c).
Proof.
  intros Htidy Hl Hout. unfold animate. cbn [snd]. rewrite Hl. cbn [length].
  pose proof (animate_loop_recycle_last e 0 [] s p c Htidy Hl Hout) as Hrun.
  cbn [length app] in Hrun. by rewrite Hrun.
Qed.

(** With the clock at [0] the sine term vanishes. *)
Lemma move_still (c : Controller) (k : nat) (s : Snowflake) :
  left (move c (Date_now still k) s) = left s + SWAY_RATE (config c)
  ∧ top (move c (Date_now still k) s) = top s + FALL_RATE (config c).
Proof.
  split; [|reflexivity].
  unfold move, getSine, left. simpl. rewrite Rmult_0_l, sin_0. lra.
Qed.

Lemma exits_still_fallen (n : nat) (k : nat) (l : list Snowflake) (top0 : R) :
  top0 > 100 →
  exits (controller_with l) (move (controller_with l) (Date_now still k) (flake_at n 0 top0))
  = true.
Proof.
  intros Hlow. apply exits_spec. right.
  change (y (bounds ?s)) with (top s).
  destruct (move_still (controller_with l) k (flake_at n 0 top0)) as [_ ->].
  cbn. lra.
Qed.

(** C10, as observed on the code.  Let the snowflake [s] between [pre] and
    [post] be recycled at its visit.  Then what followed it moves one slot
    down and the replacement is appended with vertical position 0; the slot
    the iterator has just left is not visited again, so whatever now sits in
    it (the snowflake that followed [s], or the replacement itself when [s]
    was the last one) ends the tick as it is.  When [s] was the last one the
    tick is over and the replacement is still at vertical position 0.  When
    a snowflake [nxt] followed it and everything visited afterwards stays
    inside, [nxt] is left unmoved and the replacement is moved once, to
    vertical position [FALL_RATE]. *)
Theorem recycling_skips_the_next_slot (e : Env) (fuel : nat)
    (pre post : list Snowflake) (s : Snowflake) (p : Page) (c : Controller) :
  tidy (p, c) →
  snowflakes c = pre ++ s :: post →
  exits c (move c (Date_now e (length pre)) s) = true →
  (length post < fuel)%nat →
  let k := length pre in
  let fresh := replacement (Math_random e k) p c in
  animate_visit e k s (p, c)
  = (recycled_page (node (element s)) p, with_snowflakes (pre ++ post ++ [fresh]) c)
  ∧ top fresh = 0
  ∧ (∃ sc', animate_loop (S fuel) e k (p, c) = Some sc'
            ∧ snowflakes sc'.2 !! k = (post ++ [fresh]) !! 0%nat)
  ∧ (post = [] →
     animate_loop (S fuel) e k (p, c)
     = Some (recycled_page (node (element s)) p, with_snowflakes (pre ++ [fresh]) c))
  ∧ (∀ nxt post',
       post = nxt :: post' →
       (∀ j t, (post' ++ [fresh]) !! j = Some t →
               exits c (move c (Date_now e (S k + j)) t) = false) →
       animate_loop (S fuel) e k (p, c)
       = Some (recycled_page (node (element s)) p,
               with_snowflakes
                 (pre ++ nxt :: imap (fun j => move c (Date_now e (S k + j))) post'
                      ++ [move c (Date_now e (S k + length post')) fresh]) c)
       ∧ top (move c (Date_now e (S k + length post')) fresh) = FALL_RATE (config c)).
Proof.
  intros Htidy Hl Hout Hfuel k fresh.
  assert (snowflakes c !! k = Some s) as Hk by (by rewrite Hl, list_lookup_middle).
  pose proof (animate_visit_recycle e pre post s p c Htidy Hl Hout) as Hvisit.
  fold k in Hvisit. fold fresh in Hvisit.
  split_and!.
  - exact Hvisit.
  - reflexivity.
  - destruct (animate_loop_total e (S fuel) k (p, c)) as [sc' Hsc'].
    { cbn [snd]. rewrite Hl, length_app. simpl. lia. }
    exists sc'. split; [done|].
    rewrite (animate_loop_step _ _ _ s) in Hsc' by done.
    rewrite (animate_loop_before e fuel (S k) k _ sc' (animate_visit_tidy e k s _ Htidy Hk)
               (Nat.lt_succ_diag_r k) Hsc').
    rewrite Hvisit. cbn [snd]. rewrite snowflakes_with_snowflakes.
    rewrite lookup_app_r by (unfold k; lia).
    by replace (k - length pre)%nat with 0%nat by (unfold k; lia).
  - intros ->. destruct fuel as [|fuel]; [lia|].
    by apply animate_loop_recycle_last.
  - intros nxt post' -> Hstay.
    rewrite (animate_loop_step _ _ _ s) by done.
    rewrite Hvisit.
    pose proof (animate_loop_stay e (post' ++ [fresh]) (pre ++ [nxt]) [] (recycled_page (node (element s)) p) c
                  (fuel - length (post' ++ [fresh]))) as Hloop.
    rewrite app_nil_r in Hloop.
    rewrite !length_app in Hloop. cbn [length] in Hloop.
    simpl in Hfuel.
    replace (length post' + 1 + (fuel - (length post' + 1)))%nat with fuel in Hloop by lia.
    replace (length pre + 1)%nat with (S k) in Hloop by (unfold k; lia).
    rewrite <- !(assoc_L (++)) in Hloop. cbn [app] in Hloop.
    rewrite app_nil_r in Hloop.
    cbn [app]. rewrite Hloop by done. clear Hloop.
    destruct (fuel - (length post' + 1))%nat as [|fuel'] eqn:Hf; [lia|].
    rewrite animate_loop_done.
    + split.
      * do 3 f_equal. rewrite imap_app. simpl. by rewrite Nat.add_0_r.
      * unfold move, top. simpl. lra.
    + cbn [snd]. rewrite snowflakes_with_snowflakes.
      apply lookup_ge_None. cbn [length]. rewrite length_app. cbn [length].
      rewrite length_imap, length_app. simpl. unfold k. lia.
Qed.

Lemma two_flake_tidy (l0 t0 l1 t1 : R) :
  tidy (two_flake_page, controller_with [flake_at 0 l0 t0; flake_at 1 l1 t1]).
Proof.
  split; simpl.
  - apply NoDup_cons. split; [|apply NoDup_singleton].
    rewrite list_elem_of_singleton. lia.
  - repeat constructor.
Qed.

Lemma one_flake_tidy (l0 t0 : R) :
  tidy (scenario_page, controller_with [flake_at 0 l0 t0]).
Proof.
  split; simpl.
  - apply NoDup_singleton.
  - repeat constructor.
Qed.

Lemma recycling_skips_the_next_slot_witness :
  let c := controller_with [flake_at 0 0 110; flake_at 1 0 0] in
  tidy (two_flake_page, c)
  ∧ snowflakes c = [] ++ flake_at 0 0 110 :: [flake_at 1 0 0]
  ∧ exits c (move c (Date_now still 0) (flake_at 0 0 110)) = true
  ∧ (length [flake_at 1 0 0] < 2)%nat
  ∧ ∃ sc', animate_loop 3 still 0 (two_flake_page, c) = Some sc'
           ∧ snowflakes sc'.2 !! 0%nat = Some (flake_at 1 0 0).
Proof.
  intros c.
  assert (tidy (two_flake_page, c)) as Htidy by apply two_flake_tidy.
  assert (exits c (move c (Date_now still 0) (flake_at 0 0 110)) = true) as Hout
    by (apply exits_still_fallen; lra).
  assert (length [flake_at 1 0 0] < 2)%nat as Hfuel by (simpl; lia).
  split; [exact Htidy|]. split; [reflexivity|]. split; [exact Hout|].
  split; [exact Hfuel|].
  exact (proj1 (proj2 (proj2
    (recycling_skips_the_next_slot still 2 [] [flake_at 1 0 0] (flake_at 0 0 110)
       two_flake_page c Htidy eq_refl Hout Hfuel)))).
Defined.

(** C10 as stated fails when the recycled snowflake is the last one of the
    array: here the only snowflake is recycled in the tick, and its
    replacement ends the tick at vertical position 0, not at the fall
    rate. *)
Lemma replacement_of_last_is_not_visited :
  let c := controller_with [flake_at 0 0 110] in
  let sc' := animate still (scenario_page, c) in
  exits c (move c (Date_now still 0) (flake_at 0 0 110)) = true
  ∧ snowflakes sc'.2 = [replacement (Math_random still 0) scenario_page c]
  ∧ top (replacement (Math_random still 0) scenario_page c) = 0
  ∧ top (replacement (Math_random still 0) scenario_page c) ≠ FALL_RATE (config c).
Proof.
  intros c sc'.
  assert (exits c (move c (Date_now still 0) (flake_at 0 0 110)) = true) as Hout
    by (apply exits_still_fallen; lra).
  split; [exact Hout|]. split.
  - unfold sc'.
    by rewrite (animate_single_out still (flake_at 0 0 110) scenario_page c
                  (one_flake_tidy 0 110) eq_refl Hout).
  - split; [reflexivity|]. cbn. lra.
Qed.

(** ** The scenario *)

Lemma ticks_S (n : nat) (es : nat -> Env) (sc : Scene) :
  ticks (S n) es sc = animate (es n) (ticks n es sc).
Proof. reflexivity. Qed.

Lemma exits_false (c : Controller) (s : Snowflake) :
  left s <= document_width c + 10 →
  top s <= document_height c + 10 →
  exits c s = false.
Proof.
  intros Hx Hy. unfold exits. rewrite !Rgtb_false; [done| |]; simpl; lra.
Qed.

(** In the scenario the snowflake falls by 10 per tick and drifts by at most
    1 per tick, and for the first 11 ticks it is still the same snowflake on
    the same page. *)
Lemma scenario_falls (left0 : R) (es : nat -> Env) (n : nat) :
  left0 <= 98 →
  (n ≤ 11)%nat →
  ∃ l t, ticks n es (scenario_page, scenario_controller left0)
         = (scenario_page, controller_with [flake_at 0 l t])
         ∧ t = 10 * INR n ∧ l <= left0 + INR n.
Proof.
  intros Hleft. induction n as [|n IH]; intros Hn.
  - exists left0, 0. simpl. split; [reflexivity|]. lra.
  - destruct IH as (l & t & Hrun & Ht & Hl); [lia|].
    assert (INR n <= 10) as Hn'.
    { replace 10 with (INR 10) by (simpl; lra). apply le_INR. lia. }
    rewrite ticks_S, Hrun.
    set (c := controller_with [flake_at 0 l t]).
    set (s' := move c (Date_now (es n) 0) (flake_at 0 l t)).
    assert (left s' <= l + 1) as Hl'.
    { unfold s', move, getSine, left. simpl.
      pose proof (SIN_bound (Date_now (es n) 0 * 0.005)) as [_ Hsin]. lra. }
    assert (top s' = t + 10) as Ht' by reflexivity.
    rewrite animate_all_stay.
    + exists (left s'), (top s'). split; [reflexivity|].
      rewrite S_INR. lra.
    + intros [|j] s Hj; [|done]. injection Hj as <-.
      apply exits_false; fold s'; simpl; lra.
Qed.

(** The twelfth tick takes the snowflake out and puts a new one in, which
    that tick does not visit. *)
Lemma scenario_twelfth_tick (left0 : R) (es : nat -> Env) :
  left0 <= 98 →
  ticks 12 es (scenario_page, scenario_controller left0)
       = (recycled_page 0 scenario_page,
          controller_with [replacement (Math_random (es 11%nat) 0) scenario_page
                             (scenario_controller left0)]).
Proof.
  intros Hleft.
  destruct (scenario_falls left0 es 11 Hleft (le_n _)) as (l & t & Hrun & Ht & Hl).
  assert (t = 110) as -> by (rewrite Ht; simpl; lra). clear Ht.
  rewrite (ticks_S 11), Hrun.
  rewrite (animate_single_out (es 11%nat) (flake_at 0 l 110) scenario_page
             (controller_with [flake_at 0 l 110])).
  - reflexivity.
  - apply one_flake_tidy.
  - reflexivity.
  - apply exits_spec. right. cbn. lra.
Qed.

(** C2, as observed on the code.  In the scenario (limit 1, fall rate 10,
    no sway, viewport 100 by 100, one snowflake of height 10 starting at
    vertical position 0, and far enough from the right edge not to drift
    out), the snowflake is at vertical position 10 after one tick and at
    110 after 11 ticks, where it is still the same, attached snowflake:
    110 does not exceed 100 plus its height.  The twelfth tick takes it to
    120, removes it and puts a new snowflake at vertical position 0 in its
    place. *)
Theorem scenario_recycles_at_twelfth_tick (left0 : R) (es : nat -> Env) :
  left0 <= 98 →
  let sc0 := (scenario_page, scenario_controller left0) in
  (∃ s, snowflakes (ticks 1 es sc0).2 = [s]
        ∧ node (element s) = 0%nat ∧ top s = 10)
  ∧ (∃ s, snowflakes (ticks 11 es sc0).2 = [s]
          ∧ node (element s) = 0%nat ∧ top s = 110
          ∧ exits (ticks 11 es sc0).2 s = false
          ∧ 0%nat ∈ children (ticks 11 es sc0).1)
  ∧ (∃ s, snowflakes (ticks 12 es sc0).2 = [s]
          ∧ node (element s) = 1%nat ∧ top s = 0
          ∧ (0%nat ∉ children (ticks 12 es sc0).1)
          ∧ 1%nat ∈ children (ticks 12 es sc0).1).
Proof.
  intros Hleft sc0. split_and!.
  - destruct (scenario_falls left0 es 1 Hleft) as (l & t & Hrun & Ht & Hl); [lia|].
    exists (flake_at 0 l t). unfold sc0. rewrite Hrun.
    split_and!; [reflexivity..|]. rewrite Ht. cbn. lra.
  - destruct (scenario_falls left0 es 11 Hleft) as (l & t & Hrun & Ht & Hl); [lia|].
    assert (t = 110) as -> by (rewrite Ht; simpl; lra).
    exists (flake_at 0 l 110). unfold sc0. rewrite Hrun.
    split_and!; [reflexivity..| |].
    + apply exits_false; cbn; [|lra].
      replace (INR 11) with 11 in Hl by (simpl; lra). lra.
    + cbn. apply list_elem_of_singleton. reflexivity.
  - unfold sc0. rewrite (scenario_twelfth_tick left0 es Hleft).
    eexists. split_and!; [reflexivity..| |].
    + cbn. rewrite decide_False by (intros H; by apply H).
      cbn. rewrite list_elem_of_singleton. lia.
    + cbn. rewrite decide_False by (intros H; by apply H).
      cbn. apply list_elem_of_singleton. reflexivity.
Qed.

Lemma scenario_recycles_at_twelfth_tick_witness :
  0 <= 98
  ∧ ∃ s, snowflakes (ticks 12 (fun _ => still) (scenario_page, scenario_controller 0)).2 = [s]
         ∧ node (element s) = 1%nat ∧ top s = 0
         ∧ (0%nat ∉ children (ticks 12 (fun _ => still)
                                 (scenario_page, scenario_controller 0)).1)
         ∧ 1%nat ∈ children (ticks 12 (fun _ => still)
                               (scenario_page, scenario_controller 0)).1.
Proof.
  assert (0 <= 98) as H by lra.
  split; [exact H|].
  exact (proj2 (proj2 (scenario_recycles_at_twelfth_tick 0 (fun _ => still) H))).
Defined.

(** C2 as stated fails at its eleventh tick: with the clock at [0] and the
    snowflake starting at the left edge, after 11 ticks the array still
    holds the original snowflake, at vertical position 110, not a new one
    at vertical position 0. *)
Lemma eleventh_tick_does_not_recycle :
  ∃ s, snowflakes (ticks 11 (fun _ => still) (scenario_page, scenario_controller 0)).2 = [s]
       ∧ node (element s) = node (element (scenario_flake 0))
       ∧ top s = 110 ∧ top s ≠ 0
       ∧ ¬ (y (bounds s) > 100 + height (bounds s)).
Proof.
  destruct (scenario_falls 0 (fun _ => still) 11) as (l & t & Hrun & Ht & Hl);
    [lra|lia|].
  assert (t = 110) as -> by (rewrite Ht; simpl; lra).
  exists (flake_at 0 l 110). rewrite Hrun.
  split_and!; [reflexivity..| |]; cbn; lra.
Qed.

(** ** The host's numbers *)

Lemma Int_part_eval (r : R) (z : Z) : IZR z <= r < IZR z + 1 -> Int_part r = z.
Proof. intros [H1 H2]. symmetry. apply Int_part_spec. lra. Qed.

Lemma ln_10_pos : 0 < ln 10.
Proof. rewrite <- ln_1. apply ln_increasing; lra. Qed.

Lemma ln_powerRZ_10 (e : Z) : ln (powerRZ 10 e) = IZR e * ln 10.
Proof. rewrite powerRZ_Rpower by lra. unfold Rpower. apply ln_exp. Qed.

(** The decade of a number is the one it lies in. *)
Lemma decade_eval (v : R) (e : Z) :
  powerRZ 10 e <= Rabs v < powerRZ 10 (e + 1) -> decade v = e.
Proof.
  intros [Hlo Hhi]. unfold decade. apply Int_part_eval.
  pose proof ln_10_pos as H10.
  assert (0 < powerRZ 10 e) as Hpe by (apply powerRZ_lt; lra).
  assert (IZR e * ln 10 <= ln (Rabs v)) as H1.
  { rewrite <- ln_powerRZ_10. destruct Hlo as [Hlo|Hlo].
    - left. apply ln_increasing; lra.
    - right. by rewrite Hlo. }
  assert (ln (Rabs v) < (IZR e + 1) * ln 10) as H2.
  { rewrite <- plus_IZR, <- ln_powerRZ_10. apply ln_increasing; lra. }
  split.
  - apply (Rmult_le_reg_r (ln 10)); [done|].
    unfold Rdiv. rewrite Rmult_assoc, Rinv_l by lra. lra.
  - apply (Rmult_lt_reg_r (ln 10)); [done|].
    unfold Rdiv. rewrite Rmult_assoc, Rinv_l by lra. lra.
Qed.

(** Six significant digits of a positive number, given its decade [e] and
    the integer [m] nearest to it on the scale [10^(e-5)]. *)
Lemma six_digits_eval (v : R) (e m : Z) :
  0 < v ->
  powerRZ 10 e <= v < powerRZ 10 (e + 1) ->
  IZR m - / 2 <= v * powerRZ 10 (5 - e) < IZR m + / 2 ->
  six_digits v = IZR m * powerRZ 10 (e - 5).
Proof.
  intros Hv He Hm. unfold six_digits.
  destruct (Req_dec_T v 0) as [->|_]; [lra|].
  assert (Rabs v = v) as Habs by (apply Rabs_pos_eq; lra).
  rewrite (decade_eval v e) by (by rewrite Habs).
  cbv zeta. rewrite Habs.
  rewrite (Int_part_eval _ m) by lra.
  destruct (Rlt_dec v 0); [lra|done].
Qed.

Lemma six_digits_0 : six_digits 0 = 0.
Proof. unfold six_digits. by destruct (Req_dec_T 0 0). Qed.

(** The serialisation is odd: a negative length reads back as the mirror
    image of its absolute value. *)
Lemma six_digits_opp (v : R) : six_digits (- v) = - six_digits v.
Proof.
  unfold six_digits.
  destruct (Req_dec_T v 0) as [->|Hv].
  - rewrite Ropp_0. destruct (Req_dec_T 0 0); [lra|done].
  - destruct (Req_dec_T (- v) 0) as [H0|_]; [lra|].
    unfold decade. rewrite Rabs_Ropp.
    destruct (Rlt_dec (- v) 0), (Rlt_dec v 0); lra.
Qed.

(** Powers of whole numbers are computed before they are read as reals. *)
Ltac whole_powers :=
  repeat match goal with
         | |- context [IZR (?a ^ ?b)%Z] =>
             let t := eval vm_compute in (a ^ b)%Z in
             change (a ^ b)%Z with t
         end.

(** A whole number below a million has at most six digits and reads back
    as it was written. *)
Lemma six_digits_integer (z : Z) :
  (Z.abs z < 1000000)%Z -> six_digits (IZR z) = IZR z.
Proof.
  assert (∀ n : Z, (0 < n < 1000000)%Z → six_digits (IZR n) = IZR n) as Hpos.
  { intros n Hn.
    assert (∀ e : Z, (0 <= e <= 5)%Z →
             (10 ^ e <= n < 10 ^ (e + 1))%Z → six_digits (IZR n) = IZR n) as Hdec.
    { intros e He Hr.
      assert (powerRZ 10 e = IZR (10 ^ e)
              ∧ powerRZ 10 (e + 1) = IZR (10 ^ (e + 1))
              ∧ powerRZ 10 (5 - e) = IZR (10 ^ (5 - e))
              ∧ IZR (10 ^ (5 - e)) * powerRZ 10 (e - 5) = 1) as (Hp1 & Hp2 & Hp3 & Hp4).
      { assert (e = 0 ∨ e = 1 ∨ e = 2 ∨ e = 3 ∨ e = 4 ∨ e = 5)%Z
          as [->|[->|[->|[->|[->| ->]]]]] by lia;
          split_and!; simpl; whole_powers; lra. }
      rewrite (six_digits_eval (IZR n) e (n * 10 ^ (5 - e))).
      - rewrite mult_IZR, Rmult_assoc, Hp4. lra.
      - apply IZR_lt. lia.
      - rewrite Hp1, Hp2. split; [apply IZR_le | apply IZR_lt]; lia.
      - rewrite Hp3, mult_IZR. lra. }
    destruct (Z_lt_dec n 10); [apply (Hdec 0%Z); simpl; lia|].
    destruct (Z_lt_dec n 100); [apply (Hdec 1%Z); simpl; lia|].
    destruct (Z_lt_dec n 1000); [apply (Hdec 2%Z); simpl; lia|].
    destruct (Z_lt_dec n 10000); [apply (Hdec 3%Z); simpl; lia|].
    destruct (Z_lt_dec n 100000); [apply (Hdec 4%Z); simpl; lia|].
    apply (Hdec 5%Z); simpl; lia. }
  intros Hz.
  destruct (Z.lt_trichotomy z 0) as [Hneg|[->|Hp]].
  - replace z with (- - z)%Z by lia. rewrite (opp_IZR (- z)), six_digits_opp.
    rewrite Hpos by lia. done.
  - apply six_digits_0.
  - apply Hpos. lia.
Qed.

(** The layout grid holds every whole number of pixels, and a length off
    the grid is cut down by less than 1/64. *)
Lemma sixty_fourths_integer (z : Z) : sixty_fourths (IZR z) = IZR z.
Proof.
  unfold sixty_fourths. destruct (Rlt_dec (IZR z) 0).
  - rewrite (Int_part_eval _ (- z * 64)%Z).
    + rewrite mult_IZR, opp_IZR. lra.
    + rewrite mult_IZR, opp_IZR. lra.
  - rewrite (Int_part_eval _ (z * 64)%Z).
    + rewrite mult_IZR. lra.
    + rewrite mult_IZR. lra.
Qed.


(** Six significant digits of any number but 0. *)
Lemma six_digits_nonzero (v : R) (e m : Z) :
  powerRZ 10 e <= Rabs v < powerRZ 10 (e + 1) →
  IZR m - / 2 <= Rabs v * powerRZ 10 (5 - e) < IZR m + / 2 →
  six_digits v = (if Rlt_dec v 0 then - IZR m else IZR m) * powerRZ 10 (e - 5).
Proof.
  intros He Hm.
  assert (0 < powerRZ 10 e) as Hpe by (apply powerRZ_lt; lra).
  destruct (Rlt_dec v 0) as [Hneg|Hpos].
  - rewrite Rabs_left in He, Hm by done.
    replace v with (- - v) at 1 by lra. rewrite six_digits_opp.
    rewrite (six_digits_eval (- v) e m); [lra|lra|done|done].
  - assert (Rabs v = v) as Habs by (apply Rabs_pos_eq; lra).
    rewrite Habs in He, Hm.
    apply six_digits_eval; [lra|done|done].
Qed.

Lemma Int_part_mono (a b : R) : a <= b -> (Int_part a <= Int_part b)%Z.
Proof.
  intros Hab. destruct (base_Int_part a) as [Ha _], (base_Int_part b) as [_ Hb].
  assert (IZR (Int_part a) < IZR (Int_part b + 1)) as H by (rewrite plus_IZR; lra).
  apply lt_IZR in H. lia.
Qed.

(** Every number but 0 lies in its decade. *)
Lemma decade_spec (v : R) :
  v ≠ 0 -> powerRZ 10 (decade v) <= Rabs v < powerRZ 10 (decade v + 1).
Proof.
  intros Hv. pose proof (Rabs_pos_lt v Hv) as Ha. pose proof ln_10_pos as H10.
  unfold decade. set (L := ln (Rabs v) / ln 10).
  destruct (base_Int_part L) as [H1 H2]. set (e := Int_part L) in *.
  assert (ln (Rabs v) = L * ln 10) as HL.
  { unfold L, Rdiv. rewrite Rmult_assoc, Rinv_l by lra. lra. }
  assert (IZR e * ln 10 <= ln (Rabs v)) as Hlo by (rewrite HL; nra).
  assert (ln (Rabs v) < (IZR e + 1) * ln 10) as Hhi by (rewrite HL; nra).
  rewrite !powerRZ_Rpower by lra. unfold Rpower. rewrite plus_IZR.
  rewrite <- (exp_ln (Rabs v) Ha) at 1 2.
  split.
  - destruct Hlo as [Hlo|Hlo]; [left; by apply exp_increasing | right; by rewrite Hlo].
  - by apply exp_increasing.
Qed.

Lemma six_digits_pos (v : R) :
  0 < v ->
  six_digits v
  = IZR (Int_part (v * powerRZ 10 (5 - decade v) + / 2)) * powerRZ 10 (decade v - 5).
Proof.
  intros Hv. unfold six_digits.
  destruct (Req_dec_T v 0); [lra|]. cbv zeta.
  rewrite Rabs_pos_eq by lra. destruct (Rlt_dec v 0); [lra|done].
Qed.

Lemma powerRZ_10_split (a b : Z) : powerRZ 10 (a + b) = powerRZ 10 a * powerRZ 10 b.
Proof. apply powerRZ_add. lra. Qed.

(** The six digits of a positive number: an integer between [10^5] and
    [10^6] on the scale of its decade. *)
Lemma six_digits_mantissa (v : R) :
  0 < v ->
  let e := decade v in
  let m := Int_part (v * powerRZ 10 (5 - e) + / 2) in
  (100000 <= m <= 1000000)%Z
  ∧ IZR m - / 2 <= v * powerRZ 10 (5 - e) < IZR m + / 2
  ∧ six_digits v = IZR m * powerRZ 10 (e - 5).
Proof.
  intros Hv e m.
  destruct (decade_spec v ltac:(lra)) as [Hlo Hhi]. fold e in Hlo, Hhi.
  rewrite Rabs_pos_eq in Hlo, Hhi by lra.
  assert (0 < powerRZ 10 (5 - e)) as Hp by (apply powerRZ_lt; lra).
  assert (powerRZ 10 e * powerRZ 10 (5 - e) = 100000) as H5.
  { rewrite <- powerRZ_10_split. replace (e + (5 - e))%Z with 5%Z by lia. simpl. lra. }
  assert (powerRZ 10 (e + 1) * powerRZ 10 (5 - e) = 1000000) as H6.
  { rewrite <- powerRZ_10_split. replace (e + 1 + (5 - e))%Z with 6%Z by lia. simpl. lra. }
  assert (100000 <= v * powerRZ 10 (5 - e) < 1000000) as Hy by nra.
  destruct (base_Int_part (v * powerRZ 10 (5 - e) + / 2)) as [Hm1 Hm2]. fold m in Hm1, Hm2.
  split_and!.
  - assert (IZR 99999 < IZR m) as H by lra. apply lt_IZR in H. lia.
  - assert (IZR m < IZR 1000001) as H by lra. apply lt_IZR in H. lia.
  - lra.
  - lra.
  - by apply six_digits_pos.
Qed.

(** What reads back reads back as itself. *)
Lemma six_digits_idempotent (v : R) : six_digits (six_digits v) = six_digits v.
Proof.
  assert (∀ v, 0 < v → six_digits (six_digits v) = six_digits v) as Hpos.
  { clear v. intros v Hv.
    destruct (six_digits_mantissa v Hv) as ([Hm5 Hm6] & _ & Heq).
    set (e := decade v) in *. set (m := Int_part _) in *.
    assert (0 < powerRZ 10 (e - 5)) as Hp by (apply powerRZ_lt; lra).
    assert (powerRZ 10 (e - 5) * powerRZ 10 (5 - e) = 1) as H1.
    { rewrite <- powerRZ_10_split. by replace (e - 5 + (5 - e))%Z with 0%Z by lia. }
    assert (powerRZ 10 e = 100000 * powerRZ 10 (e - 5)) as He.
    { replace e with (5 + (e - 5))%Z at 1 by lia. rewrite powerRZ_10_split. simpl. lra. }
    assert (powerRZ 10 (e + 1) = 1000000 * powerRZ 10 (e - 5)) as He1.
    { replace (e + 1)%Z with (6 + (e - 5))%Z at 1 by lia. rewrite powerRZ_10_split. simpl. lra. }
    apply IZR_le in Hm5, Hm6.
    rewrite Heq.
    destruct (Z.eq_dec m 1000000%Z) as [Hm|Hm].
    - rewrite Hm.
      rewrite (six_digits_eval (1000000 * powerRZ 10 (e - 5)) (e + 1) 100000).
      + replace (e + 1 - 5)%Z with (1 + (e - 5))%Z by lia. rewrite powerRZ_10_split. simpl. lra.
      + nra.
      + rewrite He1. replace (e + 1 + 1)%Z with (1 + (e + 1))%Z by lia.
        rewrite (powerRZ_10_split 1). rewrite He1. simpl. nra.
      + replace (5 - (e + 1))%Z with ((5 - e) + (-1))%Z by lia.
        rewrite powerRZ_10_split. simpl.
        replace (1000000 * powerRZ 10 (e - 5) * (powerRZ 10 (5 - e) * / (10 * 1)))
          with (100000 * (powerRZ 10 (e - 5) * powerRZ 10 (5 - e))) by lra.
        rewrite H1. lra.
    - assert (IZR m < 1000000) as Hlt.
      { assert (m < 1000000)%Z as H by (apply le_IZR in Hm6; lia). by apply IZR_lt in H. }
      rewrite (six_digits_eval (IZR m * powerRZ 10 (e - 5)) e m).
      + done.
      + nra.
      + rewrite He, He1. nra.
      + rewrite Rmult_assoc, H1. lra. }
  destruct (Rtotal_order v 0) as [Hneg|[->|Hp]].
  - pose proof (Hpos (- v) ltac:(lra)) as H. rewrite !six_digits_opp in H. lra.
  - by rewrite !six_digits_0.
  - by apply Hpos.
Qed.

Lemma decade_mono (a b : R) : 0 < a <= b -> (decade a <= decade b)%Z.
Proof.
  intros [Ha Hab]. unfold decade. apply Int_part_mono.
  pose proof ln_10_pos as H10.
  rewrite !Rabs_pos_eq by lra.
  assert (ln a <= ln b) as Hln.
  { destruct Hab as [Hab| ->]; [left; by apply ln_increasing | lra]. }
  unfold Rdiv. apply Rmult_le_compat_r; [|done].
  left. by apply Rinv_0_lt_compat.
Qed.

Lemma powerRZ_10_mono (a b : Z) : (a <= b)%Z -> powerRZ 10 a <= powerRZ 10 b.
Proof.
  intros Hab. replace b with (a + (b - a))%Z by lia. rewrite powerRZ_10_split.
  assert (0 < powerRZ 10 a) by (apply powerRZ_lt; lra).
  assert (1 <= powerRZ 10 (b - a)).
  { destruct (b - a)%Z as [|n|n] eqn:Hn; [simpl; lra| |lia].
    simpl. apply pow_R1_Rle. lra. }
  nra.
Qed.

(** The serialisation keeps the order of lengths. *)
Lemma six_digits_mono (a b : R) : a <= b -> six_digits a <= six_digits b.
Proof.
  assert (∀ v, 0 < v → 0 < six_digits v) as Hsign.
  { intros v Hv. destruct (six_digits_mantissa v Hv) as ([Hm5 _] & _ & ->).
    apply IZR_le in Hm5.
    assert (0 < powerRZ 10 (decade v - 5)) by (apply powerRZ_lt; lra). nra. }
  assert (∀ a b, 0 < a <= b → six_digits a <= six_digits b) as Hpos.
  { clear a b. intros a b [Ha Hab].
    destruct (six_digits_mantissa a Ha) as ([Ha5 Ha6] & Hma & ->).
    destruct (six_digits_mantissa b ltac:(lra)) as ([Hb5 Hb6] & Hmb & ->).
    pose proof (decade_mono a b (conj Ha Hab)) as Hdec.
    set (ea := decade a) in *. set (eb := decade b) in *.
    set (ma := Int_part (a * _ + _)) in *. set (mb := Int_part (b * _ + _)) in *.
    apply IZR_le in Ha5, Ha6, Hb5, Hb6.
    destruct (Z.eq_dec ea eb) as [Heq|Hne].
    - rewrite <- Heq in *.
      assert (0 < powerRZ 10 (ea - 5)) as Hp by (apply powerRZ_lt; lra).
      assert (0 < powerRZ 10 (5 - ea)) as Hq by (apply powerRZ_lt; lra).
      assert (ma <= mb)%Z as Hm.
      { unfold ma, mb. rewrite <- Heq. apply Int_part_mono. nra. }
      apply IZR_le in Hm. nra.
    - assert (ea + 1 <= eb)%Z as Hlt by lia.
      assert (0 < powerRZ 10 (ea - 5)) as Hp by (apply powerRZ_lt; lra).
      assert (0 < powerRZ 10 (eb - 5)) as Hq by (apply powerRZ_lt; lra).
      assert (powerRZ 10 (ea + 1) = 1000000 * powerRZ 10 (ea - 5)) as He1.
      { replace (ea + 1)%Z with (6 + (ea - 5))%Z at 1 by lia.
        rewrite powerRZ_10_split. simpl. lra. }
      assert (powerRZ 10 eb = 100000 * powerRZ 10 (eb - 5)) as He.
      { replace eb with (5 + (eb - 5))%Z at 1 by lia. rewrite powerRZ_10_split. simpl. lra. }
      pose proof (powerRZ_10_mono (ea + 1) eb Hlt) as Hmono.
      nra. }
  intros Hab.
  destruct (Rtotal_order a 0) as [Ha|[->|Ha]];
    destruct (Rtotal_order b 0) as [Hb|[->|Hb]]; try lra.
  - specialize (Hpos (- b) (- a) ltac:(lra)). rewrite !six_digits_opp in Hpos. lra.
  - rewrite six_digits_0.
    pose proof (Hsign (- a) ltac:(lra)) as H. rewrite six_digits_opp in H. lra.
  - pose proof (Hsign (- a) ltac:(lra)) as H. rewrite six_digits_opp in H.
    specialize (Hsign b Hb). lra.
  - rewrite six_digits_0. specialize (Hsign b Hb). lra.
  - by apply Hpos.
Qed.

(** On the layout grid a length never grows past a bound that is not
    negative. *)
Lemma sixty_fourths_bounded (v b : R) : v <= b -> 0 <= b -> sixty_fourths v <= b.
Proof.
  intros Hv Hb. unfold sixty_fourths. destruct (Rlt_dec v 0) as [Hneg|Hpos].
  - destruct (base_Int_part (- v * 64)) as [H1 H2].
    assert (IZR (-1) < IZR (Int_part (- v * 64))) as H by lra.
    apply lt_IZR in H. assert (0 <= Int_part (- v * 64))%Z as H0 by lia.
    apply IZR_le in H0. lra.
  - destruct (base_Int_part (v * 64)) as [H1 H2]. lra.
Qed.

(** Some lengths and what Chromium reads back for them. *)
Lemma six_digits_999_999 : six_digits 999.999 = 999.999.
Proof. rewrite (six_digits_eval 999.999 2 999999); simpl; lra. Qed.

Lemma six_digits_1000_999 : six_digits 1000.999 = 1001.
Proof. rewrite (six_digits_eval 1000.999 3 100100); simpl; lra. Qed.

Lemma six_digits_12_3456789 : six_digits 12.3456789 = 12.3457.
Proof. rewrite (six_digits_eval 12.3456789 1 123457); simpl; lra. Qed.

Lemma six_digits_110 : six_digits 110 = 110.
Proof. apply (six_digits_integer 110). simpl. lia. Qed.

Lemma six_digits_1000 : six_digits 1000 = 1000.
Proof. apply (six_digits_integer 1000). simpl. lia. Qed.

(** A box at [top: 110.01px] is reported at [110]. *)
Lemma sixty_fourths_110_01 : sixty_fourths 110.01 = 110.
Proof.
  unfold sixty_fourths. destruct (Rlt_dec 110.01 0); [lra|].
  rewrite (Int_part_eval _ 7040); lra.
Qed.

(** ** Positions as the host reads them back *)

(** C9.  Reading a position right after writing [v] gives the number of the
    style's text for [v], whatever the snowflake held before, and writing
    one coordinate leaves the other alone; nothing but the element's style
    holds the position.  In Chromium, for [|v|] from [10^-6] up to [10^21],
    that number is [v] cut to six significant digits: with [e] the decade
    of [v] and [m] the integer nearest to [|v| / 10^(e-5)] it is
    [m * 10^(e-5)] with the sign of [v], which is [v] itself exactly when
    [v] has no further digits; [0] reads back as [0], and a number that was
    read from a position reads back as itself when it is written again. *)
Theorem position_reads_back_as_serialised (h : Host) (v : R) (s : Snowflake) (e m : Z) :
  (-6 <= e <= 20)%Z →
  powerRZ 10 e <= Rabs v < powerRZ 10 (e + 1) →
  IZR m - / 2 <= Rabs v * powerRZ 10 (5 - e) < IZR m + / 2 →
  let kept := (if Rlt_dec v 0 then - IZR m else IZR m) * powerRZ 10 (e - 5) in
  Rendered.left h (set_left v s) = style_px h v
  ∧ Rendered.top h (set_top v s) = style_px h v
  ∧ Rendered.top h (set_left v s) = Rendered.top h s
  ∧ Rendered.left h (set_top v s) = Rendered.left h s
  ∧ set_left v s
    = {| element := {| node := node (element s); style_left := v;
                       style_top := style_top (element s);
                       style_filter := style_filter (element s) |} |}
  ∧ Rendered.left chromium (set_left v s) = kept
  ∧ Rendered.top chromium (set_top v s) = kept
  ∧ (kept = v ↔ Rabs v * powerRZ 10 (5 - e) = IZR m)
  ∧ Rendered.left chromium (set_left 0 s) = 0
  ∧ Rendered.top chromium (set_top 0 s) = 0
  ∧ Rendered.left chromium (set_left (Rendered.left chromium s) s)
    = Rendered.left chromium s
  ∧ Rendered.top chromium (set_top (Rendered.top chromium s) s)
    = Rendered.top chromium s.
Proof.
  intros _ He Hm kept.
  assert (six_digits v = kept) as Hkept by (by apply six_digits_nonzero).
  split_and!; try reflexivity; try exact Hkept; try apply six_digits_0;
    try apply six_digits_idempotent.
  assert (powerRZ 10 (5 - e) * powerRZ 10 (e - 5) = 1) as Hone.
  { rewrite <- powerRZ_add by lra. by replace (5 - e + (e - 5))%Z with 0%Z by lia. }
  assert (0 < powerRZ 10 (5 - e)) as Hp1 by (apply powerRZ_lt; lra).
  assert (0 < powerRZ 10 (e - 5)) as Hp2 by (apply powerRZ_lt; lra).
  unfold kept. destruct (Rlt_dec v 0) as [Hneg|Hpos].
  - rewrite Rabs_left by done. split; intros H.
    + rewrite <- H at 1. nra.
    + apply (f_equal (fun t => t * powerRZ 10 (e - 5))) in H. nra.
  - rewrite Rabs_pos_eq by lra. split; intros H.
    + rewrite <- H at 1. nra.
    + apply (f_equal (fun t => t * powerRZ 10 (e - 5))) in H. nra.
Qed.

Lemma position_reads_back_as_serialised_witness :
  (-6 <= 3 <= 20)%Z
  ∧ (powerRZ 10 3 <= Rabs 1000.999 < powerRZ 10 (3 + 1))
  ∧ (IZR 100100 - / 2 <= Rabs 1000.999 * powerRZ 10 (5 - 3) < IZR 100100 + / 2)
  ∧ Rendered.left chromium (set_left 1000.999 (flake_at 0 0 0)) = 1001.
Proof.
  assert (Rabs 1000.999 = 1000.999) as Habs by (apply Rabs_pos_eq; lra).
  assert (powerRZ 10 3 <= Rabs 1000.999 < powerRZ 10 (3 + 1)) as He
    by (rewrite Habs; simpl; lra).
  assert (IZR 100100 - / 2 <= Rabs 1000.999 * powerRZ 10 (5 - 3) < IZR 100100 + / 2) as Hm
    by (rewrite Habs; simpl; lra).
  split; [lia|]. split; [exact He|]. split; [exact Hm|].
  destruct (position_reads_back_as_serialised chromium 1000.999 (flake_at 0 0 0) 3 100100
              ltac:(lia) He Hm) as (_ & _ & _ & _ & _ & Hleft & _).
  rewrite Hleft. destruct (Rlt_dec 1000.999 0); [lra|]. simpl. lra.
Defined.

(** C9, as stated, fails: [0.30000000000000004] (what [0.1 + 0.2] gives)
    written to a position reads back as [0.3]. *)
Lemma long_position_does_not_read_back :
  Rendered.left chromium (set_left 0.30000000000000004 (flake_at 0 0 0)) = 0.3
  ∧ Rendered.top chromium (set_top 0.30000000000000004 (flake_at 0 0 0)) = 0.3
  ∧ 0.3 ≠ 0.30000000000000004.
Proof.
  assert (six_digits 0.30000000000000004 = 0.3) as H.
  { rewrite (six_digits_eval 0.30000000000000004 (-1) 300000); simpl; lra. }
  split_and!; [exact H | exact H | lra].
Qed.

(** ** The tick on a host *)

(** On the host that keeps every number, the rendered script is the script
    of the first part. *)
Lemma rendered_exact (e : Env) (fuel k : nat) (w2 h2 : R) (s : Snowflake) (sc : Scene) :
  Rendered.left exact_host s = left s
  ∧ Rendered.top exact_host s = top s
  ∧ Rendered.bounds exact_host s = bounds s
  ∧ Rendered.move exact_host sc.2 (Date_now e k) s = move sc.2 (Date_now e k) s
  ∧ Rendered.animate_loop exact_host fuel e k sc = animate_loop fuel e k sc
  ∧ Rendered.animate exact_host e sc = animate e sc
  ∧ Rendered.resize exact_host w2 h2 sc.2 = resize w2 h2 sc.2.
Proof. split_and!; reflexivity. Qed.

Lemma rendered_move_node (h : Host) (c : Controller) (now : R) (s : Snowflake) :
  node (element (Rendered.move h c now s)) = node (element s).
Proof. reflexivity. Qed.

Lemma rendered_visit_unfold (h : Host) (e : Env) (k : nat) (s : Snowflake)
    (p : Page) (c : Controller) :
  let s' := Rendered.move h c (Date_now e k) s in
  Rendered.animate_visit h e k s (p, c)
  = if Rendered.exits h c s'
    then spawn (Math_random e k)
           (remove s' (p, with_snowflakes (<[k := s']> (snowflakes c)) c))
    else (p, with_snowflakes (<[k := s']> (snowflakes c)) c).
Proof. reflexivity. Qed.

Lemma rendered_exits_spec (h : Host) (c : Controller) (s : Snowflake) :
  let b := Rendered.bounds h s in
  Rendered.exits h c s = true
  ↔ x b > document_width c + width b ∨ y b > document_height c + height b.
Proof.
  unfold Rendered.exits. cbv zeta. rewrite orb_true_iff, !Rgtb_spec. done.
Qed.

(** Putting a snowflake with the node of [s] into the slot of [s] and then
    recycling it: [indexOf] finds that slot. *)
Lemma recycle_in_place (random : R) (k : nat) (s s' : Snowflake) (p : Page)
    (c : Controller) :
  tidy (p, c) →
  snowflakes c !! k = Some s →
  node (element s') = node (element s) →
  spawn random (remove s' (p, with_snowflakes (<[k := s']> (snowflakes c)) c))
  = (recycled_page (node (element s)) p,
     with_snowflakes (delete k (snowflakes c) ++ [replacement random p c]) c).
Proof.
  intros [Hnd _] Hk Hnode. unfold remove, spawn. cbn [fst snd] in *.
  rewrite snowflakes_with_snowflakes.
  assert (map (fun t => node (element t)) (<[k := s']> (snowflakes c))
          = map (fun t => node (element t)) (snowflakes c)) as Hnodes.
  { change map with (@fmap list _) at 1 2.
    rewrite list_fmap_insert. apply list_insert_id.
    by rewrite list_lookup_fmap, Hk, Hnode. }
  rewrite (indexOf_NoDup _ s' k).
  - unfold splice1. rewrite delete_insert_same, Hnode. reflexivity.
  - by rewrite Hnodes.
  - apply list_lookup_insert_eq. by eapply lookup_lt_Some.
Qed.

Lemma rendered_visit_stay (h : Host) (e : Env) (k : nat) (s : Snowflake)
    (p : Page) (c : Controller) :
  let s' := Rendered.move h c (Date_now e k) s in
  Rendered.exits h c s' = false →
  Rendered.animate_visit h e k s (p, c)
  = (p, with_snowflakes (<[k := s']> (snowflakes c)) c).
Proof. intros s' Hstay. rewrite rendered_visit_unfold. fold s'. by rewrite Hstay. Qed.

Lemma rendered_visit_recycle (h : Host) (e : Env) (k : nat) (s : Snowflake)
    (p : Page) (c : Controller) :
  tidy (p, c) →
  snowflakes c !! k = Some s →
  Rendered.exits h c (Rendered.move h c (Date_now e k) s) = true →
  Rendered.animate_visit h e k s (p, c)
  = (recycled_page (node (element s)) p,
     with_snowflakes (delete k (snowflakes c) ++ [replacement (Math_random e k) p c]) c).
Proof.
  intros Htidy Hk Hout. rewrite rendered_visit_unfold. cbv zeta. rewrite Hout.
  by apply recycle_in_place.
Qed.

Lemma rendered_visit_length (h : Host) (e : Env) (k : nat) (s : Snowflake) (sc : Scene) :
  snowflakes sc.2 !! k = Some s →
  length (snowflakes (Rendered.animate_visit h e k s sc).2) = length (snowflakes sc.2).
Proof.
  destruct sc as [p c]. cbn [snd]. intros Hk.
  assert (k < length (snowflakes c))%nat as Hlt by (by eapply lookup_lt_Some).
  rewrite rendered_visit_unfold. cbv zeta.
  destruct (Rendered.exits h c (Rendered.move h c (Date_now e k) s)); simpl.
  - rewrite length_app, splice1_length; simpl.
    + rewrite length_insert. lia.
    + intros Hnil. apply (f_equal length) in Hnil.
      rewrite length_insert in Hnil. simpl in Hnil. lia.
  - by rewrite length_insert.
Qed.

Lemma rendered_loop_step (h : Host) (e : Env) (fuel k : nat) (s : Snowflake) (sc : Scene) :
  snowflakes sc.2 !! k = Some s →
  Rendered.animate_loop h (S fuel) e k sc
  = Rendered.animate_loop h fuel e (S k) (Rendered.animate_visit h e k s sc).
Proof. intros H. simpl. by rewrite H. Qed.

Lemma rendered_loop_done (h : Host) (e : Env) (fuel k : nat) (sc : Scene) :
  snowflakes sc.2 !! k = None →
  Rendered.animate_loop h (S fuel) e k sc = Some sc.
Proof. intros H. simpl. by rewrite H. Qed.

(** On every host the loop comes to its end once the fuel covers the slots
    that are left. *)
Lemma rendered_loop_total (h : Host) (e : Env) (fuel k : nat) (sc : Scene) :
  (length (snowflakes sc.2) - k < fuel)%nat →
  is_Some (Rendered.animate_loop h fuel e k sc).
Proof.
  revert k sc. induction fuel as [|fuel IH]; intros k sc Hlen; [lia|].
  simpl. destruct (snowflakes sc.2 !! k) as [s|] eqn:Hk; [|eauto].
  apply lookup_lt_Some in Hk as Hlt.
  apply IH. rewrite rendered_visit_length by done. lia.
Qed.

Lemma rendered_loop_length (h : Host) (e : Env) (fuel k : nat) (sc sc' : Scene) :
  Rendered.animate_loop h fuel e k sc = Some sc' →
  length (snowflakes sc'.2) = length (snowflakes sc.2).
Proof.
  revert k sc. induction fuel as [|fuel IH]; intros k sc; simpl; [done|].
  destruct (snowflakes sc.2 !! k) as [s|] eqn:Hk.
  - intros H. apply IH in H. by rewrite H, rendered_visit_length.
  - by intros [= <-].
Qed.

Lemma rendered_loop_more_fuel (h : Host) (e : Env) (fuel fuel' k : nat) (sc sc' : Scene) :
  (fuel ≤ fuel')%nat →
  Rendered.animate_loop h fuel e k sc = Some sc' →
  Rendered.animate_loop h fuel' e k sc = Some sc'.
Proof.
  revert fuel' k sc. induction fuel as [|fuel IH]; intros fuel' k sc Hle; simpl; [done|].
  destruct fuel' as [|fuel']; [lia|]. simpl.
  destruct (snowflakes sc.2 !! k) as [s|]; [|done].
  apply IH. lia.
Qed.

Lemma rendered_loop_animate (h : Host) (e : Env) (sc : Scene) :
  Rendered.animate_loop h (S (length (snowflakes sc.2))) e 0 sc
  = Some (Rendered.animate h e sc).
Proof.
  unfold Rendered.animate.
  destruct (rendered_loop_total h e (S (length (snowflakes sc.2))) 0 sc) as [r Hr]; [lia|].
  by rewrite Hr.
Qed.

(** Whatever fuel lets the loop end from slot 0, its result is
    [animate()]'s. *)
Lemma rendered_loop_is_animate (h : Host) (e : Env) (fuel : nat) (sc sc' : Scene) :
  Rendered.animate_loop h fuel e 0 sc = Some sc' →
  sc' = Rendered.animate h e sc.
Proof.
  intros Hrun. pose proof (rendered_loop_animate h e sc) as Ha.
  apply (rendered_loop_more_fuel h e _ (fuel + S (length (snowflakes sc.2)))) in Hrun; [|lia].
  apply (rendered_loop_more_fuel h e _ (fuel + S (length (snowflakes sc.2)))) in Ha; [|lia].
  congruence.
Qed.

Lemma rendered_visit_tidy (h : Host) (e : Env) (k : nat) (s : Snowflake) (sc : Scene) :
  tidy sc →
  snowflakes sc.2 !! k = Some s →
  tidy (Rendered.animate_visit h e k s sc)
  ∧ (next_node sc.1 ≤ next_node (Rendered.animate_visit h e k s sc).1)%nat.
Proof.
  destruct sc as [p c]. cbn [fst snd]. intros Htidy Hk.
  destruct (Rendered.exits h c (Rendered.move h c (Date_now e k) s)) eqn:Hout.
  - rewrite rendered_visit_recycle by done.
    destruct Htidy as [Hnd Hlt]. cbn [fst snd] in *.
    split; [|simpl; lia].
    split; cbn [fst snd next_node snowflakes with_snowflakes recycled_page].
    + change map with (@fmap list _). rewrite fmap_app. simpl.
      apply NoDup_app. split_and!.
      * eapply sublist_NoDup; [exact Hnd|apply fmap_sublist, sublist_delete].
      * intros n Hn. rewrite list_elem_of_singleton. intros ->.
        apply list_elem_of_fmap in Hn as (t & Heq & Hin).
        apply list_elem_of_delete_inv in Hin.
        rewrite Forall_forall in Hlt. apply Hlt in Hin. lia.
      * apply NoDup_singleton.
    + apply Forall_app. split.
      * apply Forall_forall. intros t Hin. apply list_elem_of_delete_inv in Hin.
        rewrite Forall_forall in Hlt. apply Hlt in Hin. lia.
      * repeat constructor.
  - rewrite rendered_visit_stay by done.
    destruct Htidy as [Hnd Hlt]. cbn [fst snd] in *.
    split; [|lia].
    split; cbn [fst snd snowflakes with_snowflakes].
    + change map with (@fmap list _) at 1. rewrite list_fmap_insert.
      rewrite list_insert_id; [done|].
      by rewrite list_lookup_fmap, Hk.
    + apply Forall_insert; [done|]. rewrite rendered_move_node.
      rewrite Forall_forall in Hlt. apply Hlt. by eapply list_elem_of_lookup_2.
Qed.

(** A visit of slot [k] leaves the slots before [k] alone. *)
Lemma rendered_visit_before (h : Host) (e : Env) (k j : nat) (s : Snowflake) (sc : Scene) :
  tidy sc →
  snowflakes sc.2 !! k = Some s →
  (j < k)%nat →
  snowflakes (Rendered.animate_visit h e k s sc).2 !! j = snowflakes sc.2 !! j.
Proof.
  destruct sc as [p c]. cbn [fst snd]. intros Htidy Hk Hj.
  apply lookup_lt_Some in Hk as Hlt.
  destruct (Rendered.exits h c (Rendered.move h c (Date_now e k) s)) eqn:Hout.
  - rewrite rendered_visit_recycle by done. cbn [fst snd snowflakes with_snowflakes].
    rewrite lookup_app_l by (rewrite length_delete by (by apply lookup_lt_is_Some); lia).
    by rewrite list_lookup_delete_lt.
  - rewrite rendered_visit_stay by done. cbn [fst snd snowflakes with_snowflakes].
    apply list_lookup_insert_ne. lia.
Qed.

Lemma rendered_loop_before (h : Host) (e : Env) (fuel k j : nat) (sc sc' : Scene) :
  tidy sc →
  (j < k)%nat →
  Rendered.animate_loop h fuel e k sc = Some sc' →
  snowflakes sc'.2 !! j = snowflakes sc.2 !! j.
Proof.
  revert k sc. induction fuel as [|fuel IH]; intros k sc Htidy Hj; [done|].
  destruct (snowflakes sc.2 !! k) as [s|] eqn:Hk.
  - rewrite (rendered_loop_step _ _ _ _ s) by done. intros Hrun.
    rewrite (IH (S k) (Rendered.animate_visit h e k s sc)); [| |lia|done].
    + by apply rendered_visit_before.
    + by apply rendered_visit_tidy.
  - rewrite rendered_loop_done by done. by intros [= <-].
Qed.

(** A node that was handed out before and is neither in the array nor on
    the page does not come back during the tick. *)
Lemma rendered_visit_gone (h : Host) (e : Env) (k n : nat) (s : Snowflake) (sc : Scene) :
  tidy sc →
  snowflakes sc.2 !! k = Some s →
  (n < next_node sc.1)%nat →
  n ∉ nodes sc.2 →
  n ∉ children sc.1 →
  (n ∉ nodes (Rendered.animate_visit h e k s sc).2)
  ∧ n ∉ children (Rendered.animate_visit h e k s sc).1.
Proof.
  destruct sc as [p c]. cbn [fst snd]. intros Htidy Hk Hn Hnodes Hchildren.
  destruct (Rendered.exits h c (Rendered.move h c (Date_now e k) s)) eqn:Hout.
  - rewrite rendered_visit_recycle by done.
    cbn [fst snd]. unfold nodes, recycled_page. cbn [snowflakes with_snowflakes children].
    split.
    + change map with (@fmap list _). rewrite fmap_app, elem_of_app. simpl.
      rewrite list_elem_of_singleton. intros [Hin|Heq]; [|lia].
      apply Hnodes. unfold nodes. change map with (@fmap list _).
      apply list_elem_of_fmap in Hin as (t & Heq & Hin).
      apply list_elem_of_fmap. exists t. split; [done|].
      by eapply list_elem_of_delete_inv.
    + rewrite elem_of_app, list_elem_of_filter, list_elem_of_singleton.
      intros [[_ Hin]|Heq]; [done | lia].
  - rewrite rendered_visit_stay by done. cbn [fst snd]. split; [|done].
    unfold nodes in *. cbn [snowflakes with_snowflakes].
    change map with (@fmap list _) in *. rewrite list_fmap_insert.
    rewrite list_insert_id; [done|].
    by rewrite list_lookup_fmap, Hk.
Qed.

Lemma rendered_loop_gone (h : Host) (e : Env) (fuel k n : nat) (sc sc' : Scene) :
  tidy sc →
  (n < next_node sc.1)%nat →
  n ∉ nodes sc.2 →
  n ∉ children sc.1 →
  Rendered.animate_loop h fuel e k sc = Some sc' →
  (n ∉ nodes sc'.2) ∧ n ∉ children sc'.1.
Proof.
  revert k sc. induction fuel as [|fuel IH]; intros k sc Htidy Hn Hnodes Hch; [done|].
  destruct (snowflakes sc.2 !! k) as [s|] eqn:Hk.
  - rewrite (rendered_loop_step _ _ _ _ s) by done. intros Hrun.
    destruct (rendered_visit_tidy h e k s sc Htidy Hk) as [Htidy' Hnext].
    destruct (rendered_visit_gone h e k n s sc Htidy Hk Hn Hnodes Hch) as [Hnodes' Hch'].
    apply (IH (S k) (Rendered.animate_visit h e k s sc)); [done|lia|done|done|done].
  - rewrite rendered_loop_done by done. by intros [= <-].
Qed.

(** The tick keeps a scene tidy on every host. *)
Lemma rendered_loop_tidy (h : Host) (e : Env) (fuel k : nat) (sc sc' : Scene) :
  tidy sc →
  Rendered.animate_loop h fuel e k sc = Some sc' →
  tidy sc'.
Proof.
  revert k sc. induction fuel as [|fuel IH]; intros k sc Htidy; [done|].
  destruct (snowflakes sc.2 !! k) as [s|] eqn:Hk.
  - rewrite (rendered_loop_step _ _ _ _ s) by done.
    apply IH. by apply rendered_visit_tidy.
  - rewrite rendered_loop_done by done. by intros [= <-].
Qed.

Lemma rendered_animate_tidy (h : Host) (e : Env) (sc : Scene) :
  tidy sc → tidy (Rendered.animate h e sc).
Proof. intros Htidy. eapply rendered_loop_tidy, rendered_loop_animate. done. Qed.

(** ** The position update and the recycling, on a host *)

(** What the tick makes of the snowflake [s] in slot [k], from the state
    in which the iterator delivers it. *)
Lemma rendered_visit_outcome (h : Host) (e : Env) (fuel k : nat) (s : Snowflake)
    (p : Page) (c : Controller) :
  tidy (p, c) →
  snowflakes c !! k = Some s →
  (length (snowflakes c) - k < fuel)%nat →
  let s' := Rendered.move h c (Date_now e k) s in
  ∃ sc', Rendered.animate_loop h fuel e k (p, c) = Some sc'
         ∧ Rendered.animate_loop h fuel e k (p, c)
           = Rendered.animate_loop h (fuel - 1) e (S k)
               (Rendered.animate_visit h e k s (p, c))
         ∧ (k = 0%nat → sc' = Rendered.animate h e (p, c))
         ∧ length (snowflakes sc'.2) = length (snowflakes c)
         ∧ (Rendered.exits h c s' = false → snowflakes sc'.2 !! k = Some s')
         ∧ (Rendered.exits h c s' = true →
            (node (element s) ∉ nodes sc'.2) ∧ node (element s) ∉ children sc'.1).
Proof.
  intros Htidy Hk Hfuel s'.
  destruct (rendered_loop_total h e fuel k (p, c)) as [sc' Hrun]; [done|].
  exists sc'.
  destruct fuel as [|fuel]; [lia|].
  pose proof Hrun as Hrest.
  rewrite (rendered_loop_step _ _ _ _ s) in Hrest by done.
  destruct (rendered_visit_tidy h e k s (p, c) Htidy Hk) as [Htidy' Hnext].
  apply lookup_lt_Some in Hk as Hlt.
  split_and!.
  - done.
  - rewrite (rendered_loop_step _ _ _ _ s) by done. simpl. by rewrite Nat.sub_0_r.
  - intros ->. by eapply rendered_loop_is_animate.
  - by apply rendered_loop_length in Hrun.
  - intros Hstay.
    rewrite (rendered_loop_before h e fuel (S k) k _ sc' Htidy' ltac:(lia) Hrest).
    rewrite rendered_visit_stay by done. cbn [snd snowflakes with_snowflakes].
    by apply list_lookup_insert_eq.
  - intros Hout.
    rewrite rendered_visit_recycle in Hrest, Htidy' by done.
    destruct Htidy as [Hnd Hold]. cbn [fst snd] in Hnd, Hold.
    assert (node (element s) < next_node p)%nat as Hs.
    { rewrite Forall_forall in Hold. apply Hold. by eapply list_elem_of_lookup_2. }
    eapply (rendered_loop_gone h e fuel (S k) (node (element s))); [exact Htidy'| | | |exact Hrest].
    + simpl. lia.
    + unfold nodes. cbn [snd snowflakes with_snowflakes].
      change map with (@fmap list _). rewrite fmap_app, elem_of_app. simpl.
      rewrite list_elem_of_singleton. intros [Hin|Heq]; [|lia].
      change map with (@fmap list _) in Hnd.
      rewrite list_fmap_delete in Hin.
      apply list_elem_of_lookup in Hin as [j Hj].
      assert ((node ∘ element <$> snowflakes c) !! k = Some (node (element s))) as Hks
        by (by rewrite list_lookup_fmap, Hk).
      destruct (decide (j < k)%nat).
      * rewrite list_lookup_delete_lt in Hj by done.
        pose proof (NoDup_lookup _ _ _ _ Hnd Hj Hks). lia.
      * rewrite list_lookup_delete_ge in Hj by lia.
        pose proof (NoDup_lookup _ _ _ _ Hnd Hj Hks). lia.
    + cbn [fst recycled_page children].
      rewrite elem_of_app, list_elem_of_filter, list_elem_of_singleton.
      intros [[Hne _]|Heq]; [done | lia].
Qed.






(** C4.  In a tick the snowflake of slot [k] is first moved, then its box
    is looked at: it is recycled exactly when the left edge of the box
    exceeds the cached width plus the box's width or the top edge exceeds
    the cached height plus the box's height.  If it stays, only its slot
    changed and it is still there when the tick ends.  If it is recycled,
    it is taken out of the array and off the page at once, one new
    snowflake with vertical position 0 is appended and attached, and when
    the tick ends the recycled one is in neither.  The tick always ends,
    with as many snowflakes as before. *)
Theorem animate_recycles_exactly_when_out (h : Host) (e : Env) (fuel k : nat)
    (s : Snowflake) (p : Page) (c : Controller) :
  tidy (p, c) →
  snowflakes c !! k = Some s →
  (length (snowflakes c) - k < fuel)%nat →
  let s' := Rendered.move h c (Date_now e k) s in
  let b := Rendered.bounds h s' in
  let fresh := replacement (Math_random e k) p c in
  (Rendered.exits h c s' = true
   ↔ x b > document_width c + width b ∨ y b > document_height c + height b)
  ∧ (Rendered.exits h c s' = false →
     Rendered.animate_visit h e k s (p, c)
     = (p, with_snowflakes (<[k := s']> (snowflakes c)) c))
  ∧ (Rendered.exits h c s' = true →
     Rendered.animate_visit h e k s (p, c)
     = (recycled_page (node (element s)) p,
        with_snowflakes (delete k (snowflakes c) ++ [fresh]) c))
  ∧ style_top (element fresh) = 0
  ∧ (node (element fresh) ∈ children (recycled_page (node (element s)) p))
  ∧ (node (element s) ∉ children (recycled_page (node (element s)) p))
  ∧ ∃ sc', Rendered.animate_loop h fuel e k (p, c) = Some sc'
           ∧ Rendered.animate_loop h fuel e k (p, c)
             = Rendered.animate_loop h (fuel - 1) e (S k)
                 (Rendered.animate_visit h e k s (p, c))
           ∧ (k = 0%nat → sc' = Rendered.animate h e (p, c))
           ∧ length (snowflakes sc'.2) = length (snowflakes c)
           ∧ (Rendered.exits h c s' = false → snowflakes sc'.2 !! k = Some s')
           ∧ (Rendered.exits h c s' = true →
              (node (element s) ∉ nodes sc'.2) ∧ node (element s) ∉ children sc'.1).
Proof.
  intros Htidy Hk Hfuel s' b fresh.
  split_and!.
  - apply rendered_exits_spec.
  - intros Hstay. by apply rendered_visit_stay.
  - intros Hout. by apply rendered_visit_recycle.
  - reflexivity.
  - cbn [recycled_page children fresh replacement element node].
    rewrite elem_of_app, list_elem_of_singleton. by right.
  - destruct Htidy as [_ Hold]. cbn [fst snd] in Hold.
    assert (node (element s) < next_node p)%nat as Hs.
    { rewrite Forall_forall in Hold. apply Hold. by eapply list_elem_of_lookup_2. }
    cbn [recycled_page children].
    rewrite elem_of_app, list_elem_of_filter, list_elem_of_singleton.
    intros [[Hne _]|Heq]; [done | lia].
  - by apply rendered_visit_outcome.
Qed.

(** With the clock at [0], a snowflake of the scenario's layer at vertical
    position 110 is moved to 120 and leaves a viewport 100 high. *)
Lemma scenario_leaves (n : nat) (l : list Snowflake) :
  Rendered.exits chromium (controller_with l)
    (Rendered.move chromium (controller_with l) (Date_now still 0)
       (flake_at n 0 110)) = true.
Proof.
  apply rendered_exits_spec. right.
  unfold Rendered.bounds, Rendered.move, Rendered.top.
  cbn [x y width height layout_px chromium style_px set_top set_left element
       style_top flake_at config controller_with scenario_config FALL_RATE
       document_height].
  rewrite six_digits_110.
  replace (110 + 10) with 120 by lra.
  rewrite (sixty_fourths_integer 120). lra.
Qed.

Lemma animate_recycles_exactly_when_out_witness :
  tidy (scenario_page, controller_with [flake_at 0 0 110])
  ∧ snowflakes (controller_with [flake_at 0 0 110]) !! 0%nat = Some (flake_at 0 0 110)
  ∧ (length (snowflakes (controller_with [flake_at 0 0 110])) - 0 < 2)%nat
  ∧ length (snowflakes
              (Rendered.animate chromium still
                 (scenario_page, controller_with [flake_at 0 0 110])).2) = 1%nat
  ∧ (0%nat ∉ nodes
              (Rendered.animate chromium still
                 (scenario_page, controller_with [flake_at 0 0 110])).2)
  ∧ (0%nat ∉ children
              (Rendered.animate chromium still
                 (scenario_page, controller_with [flake_at 0 0 110])).1).
Proof.
  split; [apply one_flake_tidy|]. split; [reflexivity|]. split; [simpl; lia|].
  destruct (animate_recycles_exactly_when_out chromium still 2 0 (flake_at 0 0 110)
              scenario_page (controller_with [flake_at 0 0 110])
              (one_flake_tidy 0 110) eq_refl ltac:(simpl; lia))
    as (_ & _ & _ & _ & _ & _ & sc' & _ & _ & Hanimate & Hlen & _ & Hout).
  rewrite <- (Hanimate eq_refl).
  destruct (Hout (scenario_leaves 0 [flake_at 0 0 110])) as [Hnodes Hchildren].
  split; [exact Hlen|]. split; [exact Hnodes | exact Hchildren].
Defined.

(** ** Resize on a host *)

(** C6.  [resize(w2, h2)] on a controller that has cached [(w1, h1)] writes
    [left + (w2 - w1)] and [top + (h2 - h1)] to every snowflake, with the
    positions as they read before the call.  Afterwards a position reads as
    the style's text for that sum: the increase is exactly [w2 - w1]
    (resp. [h2 - h1]) where the text keeps the sum.  The cached size becomes
    [(w2, h2)]; the number and identity of the snowflakes, the
    configuration, the active flag, the interval and the timers are
    unchanged. *)
Theorem resize_writes_the_shifted_position (h : Host) (w2 h2 : R) (c : Controller) :
  let c' := Rendered.resize h w2 h2 c in
  length (snowflakes c') = length (snowflakes c)
  ∧ (∀ k s, snowflakes c !! k = Some s →
       ∃ s', snowflakes c' !! k = Some s'
             ∧ node (element s') = node (element s)
             ∧ style_left (element s') = Rendered.left h s + (w2 - document_width c)
             ∧ style_top (element s') = Rendered.top h s + (h2 - document_height c)
             ∧ Rendered.left h s'
               = style_px h (Rendered.left h s + (w2 - document_width c))
             ∧ Rendered.top h s'
               = style_px h (Rendered.top h s + (h2 - document_height c))
             ∧ (style_px h (Rendered.left h s + (w2 - document_width c))
                = Rendered.left h s + (w2 - document_width c)
                ↔ Rendered.left h s' - Rendered.left h s = w2 - document_width c)
             ∧ (style_px h (Rendered.top h s + (h2 - document_height c))
                = Rendered.top h s + (h2 - document_height c)
                ↔ Rendered.top h s' - Rendered.top h s = h2 - document_height c))
  ∧ document_width c' = w2 ∧ document_height c' = h2
  ∧ config c' = config c ∧ active c' = active c
  ∧ interval c' = interval c ∧ timers c' = timers c ∧ sleepers c' = sleepers c.
Proof.
  intros c'. split_and!; try reflexivity.
  - unfold c', Rendered.resize. simpl. by rewrite length_map.
  - intros k s Hk. unfold c', Rendered.resize. cbn [snowflakes].
    change map with (@fmap list _). rewrite list_lookup_fmap, Hk. simpl.
    eexists. split; [reflexivity|].
    split_and!; try reflexivity.
    + unfold Rendered.left. cbn [set_top set_left element style_left].
      remember (style_px h (style_left (element s))) as l0 eqn:Hl0. clear Hl0.
      split; intros H; lra.
    + unfold Rendered.top. cbn [set_top set_left element style_top].
      remember (style_px h (style_top (element s))) as t0 eqn:Ht0. clear Ht0.
      split; intros H; lra.
Qed.

Lemma resize_writes_the_shifted_position_witness :
  snowflakes (scenario_controller 5) !! 0%nat = Some (scenario_flake 5)
  ∧ ∃ s', snowflakes (Rendered.resize chromium 130 90 (scenario_controller 5)) !! 0%nat
          = Some s'
          ∧ Rendered.left chromium s' = 35
          ∧ Rendered.left chromium s' - Rendered.left chromium (scenario_flake 5)
            = 130 - 100.
Proof.
  split; [reflexivity|].
  destruct (proj1 (proj2 (resize_writes_the_shifted_position chromium 130 90
                            (scenario_controller 5)))
              0%nat (scenario_flake 5) eq_refl)
    as (s' & Hs' & _ & _ & _ & Hleft & _ & Hexact & _).
  exists s'. split; [exact Hs'|].
  assert (Rendered.left chromium (scenario_flake 5) = 5) as H5
    by (apply (six_digits_integer 5); simpl; lia).
  assert (style_px chromium
            (Rendered.left chromium (scenario_flake 5)
             + (130 - document_width (scenario_controller 5))) = 35) as H35.
  { rewrite H5. cbn [document_width scenario_controller controller_with].
    replace (5 + (130 - 100)) with 35 by lra.
    apply (six_digits_integer 35). simpl. lia. }
  split; [by rewrite Hleft|].
  rewrite Hleft, H35, H5. lra.
Defined.

(** C6, as stated, fails: a snowflake at [999.999] on a viewport 1024 wide
    reads [1001] after [resize(1025, 768)], an increase of [1.001]. *)
Lemma resize_shift_is_read_back_rounded :
  let s := flake_at 0 999.999 0 in
  let c := desktop_controller [s] in
  ∃ s', snowflakes (Rendered.resize chromium 1025 768 c) = [s']
        ∧ Rendered.left chromium s = 999.999
        ∧ Rendered.left chromium s' = 1001
        ∧ Rendered.left chromium s' - Rendered.left chromium s ≠ 1025 - document_width c.
Proof.
  intros s c.
  set (s1 := set_left (Rendered.left chromium s + (1025 - document_width c)) s).
  exists (set_top (Rendered.top chromium s1 + (768 - document_height c)) s1).
  split; [reflexivity|].
  assert (Rendered.left chromium s = 999.999) as Hs by apply six_digits_999_999.
  assert (Rendered.left chromium
            (set_top (Rendered.top chromium s1 + (768 - document_height c)) s1)
          = 1001) as Hs'.
  { unfold Rendered.left at 1, s1. cbn [set_top set_left element style_left].
    rewrite Hs. cbn [document_width desktop_controller c chromium style_px].
    replace (999.999 + (1025 - 1024)) with 1000.999 by lra.
    apply six_digits_1000_999. }
  split; [exact Hs|]. split; [exact Hs'|].
  rewrite Hs', Hs. simpl. lra.
Qed.

(** The listener resizes every controller and leaves the page alone. *)
Lemma on_resize_controllers (w2 h2 : R) (w : World) (k : nat) :
  body (on_resize w2 h2 w) = body w
  ∧ controllers (on_resize w2 h2 w) !! k = resize w2 h2 <$> controllers w !! k.
Proof.
  split; [reflexivity|]. unfold on_resize. cbn [controllers].
  change map with (@fmap list _). by rewrite list_lookup_fmap.
Qed.

(** ** Clear *)

Lemma detach_all_children (l : list Snowflake) (p : Page) (n : nat) :
  n ∈ children (foldl (fun q s => detach (node (element s)) q) p l)
  ↔ n ∈ children p ∧ n ∉ map (fun s => node (element s)) l.
Proof.
  revert p. induction l as [|s l IH]; intros p.
  - simpl. split; [|by intros [? _]]. intros H. split; [done|]. apply not_elem_of_nil.
  - cbn [foldl map]. rewrite IH. unfold detach at 1. cbn [children].
    rewrite list_elem_of_filter, not_elem_of_cons. tauto.
Qed.

(** C7.  After [clear()] the controller holds no snowflake, and no element
    of a snowflake it held is attached to the container any more; nothing
    else is attached or detached, and the other fields are as before. *)
Theorem clear_removes_every_snowflake (p : Page) (c : Controller) :
  let sc' := clear (p, c) in
  length (snowflakes sc'.2) = 0%nat
  ∧ (∀ s, s ∈ snowflakes c → node (element s) ∉ children sc'.1)
  ∧ (∀ n, n ∈ children sc'.1
          ↔ n ∈ children p ∧ n ∉ map (fun s => node (element s)) (snowflakes c))
  ∧ config sc'.2 = config c ∧ active sc'.2 = active c
  ∧ document_width sc'.2 = document_width c
  ∧ document_height sc'.2 = document_height c.
Proof.
  intros sc'. split_and!; try reflexivity.
  - intros s Hs Hin. apply detach_all_children in Hin as [_ Hnot].
    apply Hnot. apply list_elem_of_fmap. by exists s.
  - intros n. apply detach_all_children.
Qed.

Lemma clear_removes_every_snowflake_witness :
  scenario_flake 0 ∈ snowflakes (scenario_controller 0)
  ∧ (node (element (scenario_flake 0))
     ∉ children (clear (scenario_page, scenario_controller 0)).1).
Proof.
  assert (scenario_flake 0 ∈ snowflakes (scenario_controller 0)) as Hin
    by (apply list_elem_of_singleton; reflexivity).
  split; [exact Hin|].
  exact (proj1 (proj2 (clear_removes_every_snowflake scenario_page (scenario_controller 0)))
           (scenario_flake 0) Hin).
Defined.

(** ** Command dispatch *)




Lemma command_unknown_returns (envs : nat -> Env) (c0 : Controller) (rest : list Controller)
    (p : Page) :
  command "unknown" envs {| body := p; controllers := c0 :: rest |}
  = Returned {| body := p; controllers := c0 :: rest |}.
Proof. reflexivity. Qed.

(** ** Stop *)

Lemma stop_no_timers (c : Controller) : timers_ok c → timers (stop c) = [].
Proof.
  unfold timers_ok, stop. cbn [timers]. intros ->.
  destruct (interval c) as [h|]; [|done].
  unfold clearInterval. rewrite filter_cons.
  by rewrite decide_False by (intros H; by apply H).
Qed.

(** A stopped controller without live interval is deaf to its timers. *)
Lemma deliver_stopped (ev : TimerEvent) (p : Page) (c : Controller) :
  active c = false →
  timers c = [] →
  ∃ c', deliver ev (p, c) = (p, c')
        ∧ snowflakes c' = snowflakes c ∧ active c' = false ∧ timers c' = []
        ∧ interval c' = interval c ∧ config c' = config c
        ∧ length (sleepers c') ≤ length (sleepers c).
Proof.
  intros Hact Htim. destruct ev as [handle e|j random]; simpl.
  - unfold tick. cbn [snd]. rewrite Htim.
    rewrite bool_decide_eq_false_2 by apply not_elem_of_nil.
    exists c. by split_and!.
  - destruct (sleepers c !! j) as [i|] eqn:Hj.
    + rewrite Hact. simpl. eexists. split; [reflexivity|].
      split_and!; try done. cbn [sleepers with_sleepers].
      rewrite length_delete by eauto. lia.
    + exists c. by split_and!.
Qed.

(** C5, as observed on the code.  After [stop()], whatever the timers of the
    controller deliver (ticks of its interval, resume points of its
    suspended population sequences), no snowflake is moved, added or taken
    away and the page stays as it is, until [start()] is called. *)
Theorem stop_silences_the_timers (evs : list TimerEvent) (p : Page) (c : Controller) :
  timers_ok c →
  let sc' := foldl (fun sc ev => deliver ev sc) (p, stop c) evs in
  snowflakes sc'.2 = snowflakes c
  ∧ sc'.1 = p
  ∧ active sc'.2 = false
  ∧ timers sc'.2 = []
  ∧ length (sleepers sc'.2) ≤ length (sleepers c).
Proof.
  intros Hok.
  assert (∀ evs c0,
            active c0 = false → timers c0 = [] →
            let sc' := foldl (fun sc ev => deliver ev sc) (p, c0) evs in
            snowflakes sc'.2 = snowflakes c0 ∧ sc'.1 = p ∧ active sc'.2 = false
            ∧ timers sc'.2 = [] ∧ length (sleepers sc'.2) ≤ length (sleepers c0)) as Hgen.
  { clear. induction evs as [|ev evs IH]; intros c0 Hact Htim.
    - simpl. by split_and!.
    - cbn [foldl].
      destruct (deliver_stopped ev p c0 Hact Htim)
        as (c1 & -> & Hsnow & Hact1 & Htim1 & _ & _ & Hlen).
      destruct (IH c1 Hact1 Htim1) as (H1 & H2 & H3 & H4 & H5).
      split_and!; try done; [congruence | lia]. }
  apply (Hgen evs (stop c)); [reflexivity | by apply stop_no_timers].
Qed.

Lemma stop_silences_the_timers_witness :
  timers_ok (scenario_controller 0)
  ∧ snowflakes (foldl (fun sc ev => deliver ev sc)
                  (scenario_page, stop (scenario_controller 0))
                  [Fires 1 still; Resumes 0 0]).2
    = snowflakes (scenario_controller 0).
Proof.
  assert (timers_ok (scenario_controller 0)) as Hok by reflexivity.
  split; [exact Hok|].
  exact (proj1 (stop_silences_the_timers [Fires 1 still; Resumes 0 0]
                  scenario_page (scenario_controller 0) Hok)).
Defined.

(** C5 as stated fails for a resize: the listener installed by [main] moves
    the snowflakes of a stopped controller too.  Here one snowflake is
    spawned, the controller is stopped, and the window grows by one pixel. *)
Lemma resize_moves_stopped_snowflakes :
  ∃ w1 w2,
    run [Wake 0 0 0.5; Command "stop" (fun _ => still)]
        (main [scenario_config] 100 100) = Some w1
    ∧ Forall (fun c => active c = false) (controllers w1)
    ∧ step (Resized 101 100) w1 = Some w2
    ∧ map left (flat_map snowflakes (controllers w1)) = [0.5 * 100]
    ∧ map left (flat_map snowflakes (controllers w2)) = [0.5 * 100 + (101 - 100)]
    ∧ map left (flat_map snowflakes (controllers w2))
      ≠ map left (flat_map snowflakes (controllers w1)).
Proof.
  eexists _, _. split; [cbn; reflexivity|]. split; [repeat constructor|].
  split; [reflexivity|]. split; [reflexivity|]. split; [reflexivity|].
  cbn. intros H. injection H as H. lra.
Qed.

(** ** The limit *)

Lemma on_controller_Forall (P : Controller → Prop) (k : nat) (f : Scene → Scene)
    (w : World) :
  (∀ p c, P c → P (f (p, c)).2) →
  Forall P (controllers w) →
  Forall P (controllers (on_controller k f w)).
Proof.
  intros Hf Hw. unfold on_controller.
  destruct (controllers w !! k) as [c|] eqn:Hk; [|done].
  assert (P c) as Hc.
  { rewrite Forall_forall in Hw. apply Hw. by eapply list_elem_of_lookup_2. }
  specialize (Hf (body w) c Hc). destruct (f (body w, c)) as [p' c'].
  cbn [controllers]. by apply Forall_insert.
Qed.

(** What holds of every controller before a broadcast and is kept by the
    method holds of every controller after it, however the broadcast
    ends. *)
Lemma broadcast_Forall (P : Controller → Prop) (op : Operation) (envs : nat → Env) :
  (∀ e p c, P c →
            match invoke op e (p, c) with
            | Returned sc' | Threw sc' => P sc'.2
            | Unmodelled => True
            end) →
  ∀ n k w, Forall P (controllers w) →
           match broadcast n op envs k w with
           | Returned w' | Threw w' => Forall P (controllers w')
           | Unmodelled => True
           end.
Proof.
  intros Hop. induction n as [|n IH]; intros k w Hw; [done|].
  cbn [broadcast].
  destruct (controllers w !! k) as [c|] eqn:Hk; [|done].
  assert (P c) as Hc.
  { rewrite Forall_forall in Hw. apply Hw. by eapply list_elem_of_lookup_2. }
  specialize (Hop (envs k) (body w) c Hc).
  destruct (invoke op (envs k) (body w, c)) as [[p' c']|[p' c']|]; [| |done].
  - apply IH. cbn [controllers]. by apply Forall_insert.
  - cbn [controllers]. by apply Forall_insert.
Qed.

(** A method that always returns makes the broadcast return. *)
Lemma broadcast_returns (op : Operation) (envs : nat → Env) :
  (∀ e sc, ∃ sc', invoke op e sc = Returned sc') →
  ∀ n k w, ∃ w', broadcast n op envs k w = Returned w'.
Proof.
  intros Hop. induction n as [|n IH]; intros k w; [by eexists|].
  cbn [broadcast].
  destruct (controllers w !! k) as [c|] eqn:Hk; [|by eexists].
  destruct (Hop (envs k) (body w, c)) as [[p' c'] ->]. apply IH.
Qed.

Lemma main_Forall (P : Controller → Prop) (layers : list CONFIG) (cw ch : R) :
  (∀ layer p, P (new_Controller layer cw ch p).2) →
  Forall P (controllers (main layers cw ch)).
Proof.
  intros Hnew. unfold main.
  assert (∀ w0, Forall P (controllers w0) →
                Forall P (controllers
                  (foldl (fun w layer =>
                            let '(p, c) := new_Controller layer cw ch (body w) in
                            {| body := p; controllers := controllers w ++ [c] |})
                         w0 layers))) as Hgen.
  { induction layers as [|layer layers IH]; intros w0 H0; [done|].
    cbn [foldl]. apply IH. specialize (Hnew layer (body w0)).
    destruct (new_Controller layer cw ch (body w0)) as [p c].
    cbn [controllers]. apply Forall_app. split; [done|]. by constructor. }
  apply Hgen. constructor.
Qed.

(** Each method keeps the population on schedule. *)
Lemma paced_frame (c c' : Controller) :
  length (snowflakes c') = length (snowflakes c) →
  config c' = config c →
  sleepers c' = sleepers c →
  paced c → paced c'.
Proof. unfold paced, within_limit. by intros -> -> ->. Qed.

Lemma animate_paced (e : Env) (p : Page) (c : Controller) :
  paced c → paced (animate e (p, c)).2.
Proof.
  apply paced_frame.
  - apply (animate_length e (p, c)).
  - apply (animate_frame e (p, c)).
  - apply (animate_frame e (p, c)).
Qed.

Lemma tick_paced (handle : nat) (e : Env) (p : Page) (c : Controller) :
  paced c → paced (tick handle e (p, c)).2.
Proof.
  unfold tick. cbn [snd]. case_bool_decide; [apply animate_paced|done].
Qed.

Lemma spawn_eq (random : R) (p : Page) (c : Controller) :
  spawn random (p, c)
  = ((appendChild p).1, with_snowflakes (snowflakes c ++ [replacement random p c]) c).
Proof. reflexivity. Qed.

Lemma generate_resume_paced (j : nat) (random : R) (p : Page) (c : Controller) :
  paced c → paced (generate_resume j random (p, c)).2.
Proof.
  intros Hp. unfold generate_resume.
  destruct (sleepers c !! j) as [i|] eqn:Hj; [|done].
  destruct Hp as [Hlim Hsl]. unfold paced, within_limit in *.
  destruct (sleepers c) as [|i0 [|i1 rest]] eqn:Hs; [done| |done].
  destruct j as [|j]; [|done]. injection Hj as ->.
  cbn [active with_sleepers]. destruct (active c); cbn [negb].
  - rewrite spawn_eq. cbn [config with_snowflakes with_sleepers delete list_delete].
    destruct (Nat.ltb_spec (S i) (LIMIT (config c)));
      cbn [snd snowflakes config sleepers with_snowflakes with_sleepers app];
      rewrite length_app; cbn [length]; lia.
  - cbn [snd snowflakes config sleepers with_snowflakes with_sleepers delete list_delete].
    lia.
Qed.

Lemma resize_paced (w2 h2 : R) (c : Controller) :
  paced c → paced (resize w2 h2 c).
Proof. apply paced_frame; [apply length_map|done..]. Qed.

Lemma stop_paced (c : Controller) : paced c → paced (stop c).
Proof. by apply paced_frame. Qed.

Lemma clear_paced (p : Page) (c : Controller) : paced c → paced (clear (p, c)).2.
Proof.
  unfold paced, within_limit. cbn. intros [Hlim Hsl]. split; [lia|].
  destruct (sleepers c) as [|i [|i' rest]]; [done| |done]. lia.
Qed.

Lemma start_paced (p : Page) (c : Controller) :
  paced c ∧ rested c → (paced (start (p, c)).2 ∧ rested (start (p, c)).2).
Proof.
  intros [[Hlim Hsl] Hrest]. unfold start.
  destruct (active c) eqn:Hact; [done|].
  destruct Hrest as [?|Hnone]; [congruence|].
  unfold paced, within_limit, rested, generate in *.
  cbn [snowflakes config sleepers setInterval snd].
  destruct (Nat.ltb_spec (length (snowflakes c)) (LIMIT (config c)));
    cbn [snowflakes config sleepers active with_sleepers]; rewrite Hnone.
  - cbn [app]. split; [|by left]. lia.
  - split; [|by left]. done.
Qed.

Lemma new_Controller_paced (layer : CONFIG) (cw ch : R) (p : Page) :
  paced (new_Controller layer cw ch p).2.
Proof.
  unfold new_Controller. apply start_paced. split.
  - split; [unfold within_limit; cbn; lia|done].
  - by right.
Qed.

Lemma get_property_method (c : Controller) :
  get_property c "start" = Method op_start
  ∧ get_property c "stop" = Method op_stop
  ∧ get_property c "clear" = Method op_clear
  ∧ get_property c "spawn" = Method op_spawn.
Proof. by split_and!. Qed.

(** A gentle turn of the event loop keeps every population on schedule,
    and it stays inside the embedding. *)
Lemma step_paced (ev : Event) (w : World) :
  gentle ev w →
  Forall paced (controllers w) →
  ∃ w', step ev w = Some w' ∧ Forall paced (controllers w').
Proof.
  intros Hgentle Hw. destruct ev as [k handle e|k j random|cw ch|cmd envs];
    cbn [step].
  - eexists. split; [reflexivity|].
    apply on_controller_Forall; [|done]. intros p c. apply tick_paced.
  - eexists. split; [reflexivity|].
    apply on_controller_Forall; [|done]. intros p c. apply generate_resume_paced.
  - eexists. split; [reflexivity|]. unfold on_resize. cbn [controllers].
    change map with (@fmap list _). apply Forall_fmap.
    eapply Forall_impl; [exact Hw|]. intros c. apply resize_paced.
  - unfold command. destruct (controllers w) as [|c0 rest] eqn:Hcs.
    { eexists. split; [reflexivity|]. by rewrite Hcs. }
    cbn [gentle] in Hgentle. rewrite <- Hcs in Hw |- *.
    destruct Hgentle as [-> | [-> | [-> Hrest]]].
    + destruct (get_property_method c0) as (_ & -> & _).
      pose proof (broadcast_Forall paced op_stop envs) as HF.
      destruct (broadcast_returns op_stop envs (fun e sc => ex_intro _ _ eq_refl)
                  (length (controllers w)) 0%nat w) as [w' Hw'].
      specialize (HF (fun e p c H => stop_paced c H) (length (controllers w)) 0%nat w Hw).
      rewrite Hw' in HF |- *. eauto.
    + destruct (get_property_method c0) as (_ & _ & -> & _).
      pose proof (broadcast_Forall paced op_clear envs) as HF.
      destruct (broadcast_returns op_clear envs (fun e sc => ex_intro _ _ eq_refl)
                  (length (controllers w)) 0%nat w) as [w' Hw'].
      specialize (HF (fun e p c H => clear_paced p c H) (length (controllers w)) 0%nat w Hw).
      rewrite Hw' in HF |- *. eauto.
    + destruct (get_property_method c0) as (-> & _).
      pose proof (broadcast_Forall (fun c => paced c ∧ rested c) op_start envs) as HF.
      destruct (broadcast_returns op_start envs (fun e sc => ex_intro _ _ eq_refl)
                  (length (controllers w)) 0%nat w) as [w' Hw'].
      specialize (HF (fun e p c H => start_paced p c H) (length (controllers w)) 0%nat w).
      rewrite Hw' in HF |- *. eexists. split; [reflexivity|].
      eapply Forall_impl; [apply HF|by intros c [? _]].
      rewrite Forall_forall in Hw, Hrest |- *. intros c Hc. split; auto.
Qed.

Lemma run_paced (evs : list Event) (w : World) :
  quiet evs w →
  Forall paced (controllers w) →
  ∃ w', run evs w = Some w' ∧ Forall paced (controllers w').
Proof.
  revert w. induction evs as [|ev evs IH]; intros w Hquiet Hw.
  - by exists w.
  - destruct Hquiet as [Hgentle Hrest].
    destruct (step_paced ev w Hgentle Hw) as (w1 & Hstep & Hw1).
    cbn [run]. rewrite Hstep. apply IH; [by apply Hrest|done].
Qed.

(** C1, as observed on the code.  From [main] on, under every sequence of
    ticks, resume points of the staggered population, resizes and the
    commands [stop], [clear] and [start], where [start] is not called while
    a population sequence of an earlier start is still suspended on a
    stopped controller, no controller ever holds more snowflakes than its
    [LIMIT]. *)
Theorem limit_kept_without_spawn_command (layers : list CONFIG) (cw ch : R)
    (evs : list Event) :
  quiet evs (main layers cw ch) →
  ∃ w', run evs (main layers cw ch) = Some w'
        ∧ Forall within_limit (controllers w').
Proof.
  intros Hquiet.
  destruct (run_paced evs (main layers cw ch) Hquiet) as (w' & Hrun & Hw').
  - apply main_Forall. intros layer p. apply new_Controller_paced.
  - exists w'. split; [done|].
    eapply Forall_impl; [exact Hw'|]. by intros c [? _].
Qed.

Lemma limit_kept_without_spawn_command_witness :
  let evs := [Wake 0 0 0.5; Tick 0 1 still; Resized 1280 720;
              Command "stop" (fun _ => still); Command "clear" (fun _ => still)] in
  quiet evs (main CONFIG_layers 1024 768)
  ∧ ∃ w', run evs (main CONFIG_layers 1024 768) = Some w'
          ∧ Forall within_limit (controllers w').
Proof.
  intros evs.
  assert (quiet evs (main CONFIG_layers 1024 768)) as Hquiet.
  { split; [exact I|]. intros w1 _.
    split; [exact I|]. intros w2 _.
    split; [exact I|]. intros w3 _.
    split; [left; reflexivity|]. intros w4 _.
    split; [right; left; reflexivity|]. intros w5 _. exact I. }
  split; [exact Hquiet|].
  exact (limit_kept_without_spawn_command CONFIG_layers 1024 768 evs Hquiet).
Defined.

(** C1 as stated fails for the command [spawn]: on a page with one layer of
    limit 1, two [command("spawn")] after [main] leave that layer with two
    snowflakes. *)
Lemma spawn_command_exceeds_limit :
  ∃ w' c,
    run [Command "spawn" (fun _ => still); Command "spawn" (fun _ => still)]
        (main [scenario_config] 100 100) = Some w'
    ∧ controllers w' = [c]
    ∧ LIMIT (config c) = 1%nat
    ∧ length (snowflakes c) = 2%nat
    ∧ ¬ within_limit c.
Proof.
  eexists _, _. split; [reflexivity|]. split; [reflexivity|].
  split; [reflexivity|]. split; [reflexivity|].
  unfold within_limit. cbn. lia.
Qed.

(** The other way past the limit, which the statement above does not
    cover: [stop] and [start] before the first timeout of the population
    sequence has fired leave two sequences suspended, and each of them
    spawns up to the limit. *)
Lemma restart_doubles_the_population :
  ∃ w' c,
    run [Command "stop" (fun _ => still); Command "start" (fun _ => still);
         Wake 0 0 0; Wake 0 0 0]
        (main [scenario_config] 100 100) = Some w'
    ∧ controllers w' = [c]
    ∧ LIMIT (config c) = 1%nat
    ∧ length (snowflakes c) = 2%nat.
Proof.
  eexists _, _. split; [cbn; reflexivity|]. split; [reflexivity|].
  split; reflexivity.
Qed.

(** ** Reachable states *)

Lemma tidy_mono (p p' : Page) (c : Controller) :
  (next_node p ≤ next_node p')%nat → tidy (p, c) → tidy (p', c).
Proof.
  intros Hle [Hnd Hlt]. split; [done|]. cbn [fst snd] in *.
  eapply Forall_impl; [exact Hlt|]. intros t Ht. simpl in *. lia.
Qed.

Lemma good_mono (p p' : Page) (c : Controller) :
  (next_node p ≤ next_node p')%nat → good (p, c) → good (p', c).
Proof. intros Hle [Ht Hs]. split; [by eapply tidy_mono|done]. Qed.

Lemma sound_update (k : nat) (p' : Page) (c' : Controller) (w : World) :
  sound w →
  (next_node (body w) ≤ next_node p')%nat →
  good (p', c') →
  sound {| body := p'; controllers := <[k := c']> (controllers w) |}.
Proof.
  intros Hw Hle Hc. unfold sound. cbn [body controllers].
  apply Forall_insert; [|done].
  eapply Forall_impl; [exact Hw|]. intros c. by apply good_mono.
Qed.

Lemma on_controller_sound (k : nat) (f : Scene → Scene) (w : World) :
  keeps_good f → sound w → sound (on_controller k f w).
Proof.
  intros Hf Hw. unfold on_controller.
  destruct (controllers w !! k) as [c|] eqn:Hk; [|done].
  assert (good (body w, c)) as Hc.
  { unfold sound in Hw. rewrite Forall_forall in Hw. apply Hw.
    by eapply list_elem_of_lookup_2. }
  destruct (Hf (body w) c Hc) as [Hgood Hle].
  destruct (f (body w, c)) as [p' c']. by apply sound_update.
Qed.

Lemma spawn_keeps_good (random : R) : keeps_good (spawn random).
Proof.
  intros p c [[Hnd Hlt] Hs]. rewrite spawn_eq. cbn [fst snd] in *.
  split; [|simpl; lia]. split; [|done].
  split; cbn [fst snd snowflakes with_snowflakes appendChild next_node].
  - change map with (@fmap list _). rewrite fmap_app. simpl.
    apply NoDup_app. split_and!; [done| |apply NoDup_singleton].
    intros n Hn. rewrite list_elem_of_singleton. intros ->.
    apply list_elem_of_fmap in Hn as (t & Heq & Hin).
    rewrite Forall_forall in Hlt. apply Hlt in Hin. lia.
  - apply Forall_app. split; [|repeat constructor].
    eapply Forall_impl; [exact Hlt|]. intros t Ht. simpl in *. lia.
Qed.

Lemma animate_visit_next_node (e : Env) (k : nat) (s : Snowflake) (sc : Scene) :
  (next_node sc.1 ≤ next_node (animate_visit e k s sc).1)%nat.
Proof.
  destruct sc as [p c]. rewrite animate_visit_unfold. cbn [fst snd].
  destruct (exits c (move c (Date_now e k) s)); [|done].
  unfold moved, remove. cbn [fst snd]. rewrite spawn_eq. simpl. lia.
Qed.

Lemma animate_loop_tidy (e : Env) (fuel k : nat) (sc sc' : Scene) :
  tidy sc →
  animate_loop fuel e k sc = Some sc' →
  tidy sc' ∧ (next_node sc.1 ≤ next_node sc'.1)%nat.
Proof.
  revert k sc. induction fuel as [|fuel IH]; intros k sc Htidy; [done|].
  destruct (snowflakes sc.2 !! k) as [s|] eqn:Hk.
  - rewrite (animate_loop_step _ _ _ s) by done. intros Hrun.
    destruct (IH _ _ (animate_visit_tidy e k s sc Htidy Hk) Hrun) as [Ht Hle].
    split; [done|]. pose proof (animate_visit_next_node e k s sc). lia.
  - rewrite animate_loop_done by done. by intros [= <-].
Qed.

Lemma animate_keeps_good (e : Env) : keeps_good (animate e).
Proof.
  intros p c [Htidy Hs].
  destruct (animate_loop_tidy e _ _ _ _ Htidy (animate_loop_animate e (p, c))) as [Ht Hle].
  split; [|done]. split; [done|].
  destruct (animate_frame e (p, c)) as (_ & _ & _ & Ha & Hi & Ht' & _).
  cbn [snd] in *. unfold settled, timers_ok. by rewrite Ha, Hi, Ht'.
Qed.

Lemma tick_keeps_good (handle : nat) (e : Env) : keeps_good (tick handle e).
Proof.
  intros p c Hc. unfold tick. cbn [snd].
  case_bool_decide; [by apply animate_keeps_good|done].
Qed.

Lemma with_sleepers_good (l : list nat) (p : Page) (c : Controller) :
  good (p, c) → good (p, with_sleepers l c).
Proof. by intros [[? ?] [? ?]]. Qed.

Lemma generate_resume_keeps_good (j : nat) (random : R) :
  keeps_good (generate_resume j random).
Proof.
  intros p c Hc. unfold generate_resume.
  destruct (sleepers c !! j) as [i|]; [|done].
  cbn [active with_sleepers]. destruct (active c); cbn [negb].
  - destruct (spawn_keeps_good random p (with_sleepers (delete j (sleepers c)) c))
      as [Hgood Hle]; [by apply with_sleepers_good|].
    destruct (spawn random (p, with_sleepers (delete j (sleepers c)) c)) as [p2 c2].
    destruct (S i <? LIMIT (config c2))%nat; [|done].
    split; [by apply with_sleepers_good|done].
  - split; [by apply with_sleepers_good|done].
Qed.

Lemma generate_keeps_good : keeps_good (fun sc => (sc.1, generate sc.2)).
Proof.
  intros p c Hc. cbn [fst snd]. split; [|done]. unfold generate.
  destruct (length (snowflakes c) <? LIMIT (config c))%nat; [|done].
  by apply with_sleepers_good.
Qed.

Lemma start_keeps_good : keeps_good start.
Proof.
  intros p c Hc. unfold start.
  destruct (active c) eqn:Hact; [done|].
  destruct Hc as [[Hnd Hlt] [Hok Hidle]]. cbn [fst snd] in *.
  unfold timers_ok in Hok. rewrite (Hidle Hact) in Hok.
  unfold generate. cbn [snowflakes config sleepers setInterval].
  destruct (length (snowflakes c) <? LIMIT (config c))%nat;
    (split; [|simpl; lia]);
    (split; [split; [done|] | split; [|done]]); cbn in *; try done.
  all: unfold timers_ok; cbn; by rewrite Hok.
Qed.

Lemma stop_keeps_good : keeps_good (fun sc => (sc.1, stop sc.2)).
Proof.
  intros p c [Htidy [Hok Hidle]]. cbn [fst snd]. split; [|done].
  split; [done|]. split; [|done].
  unfold timers_ok. cbn [interval stop]. by apply stop_no_timers.
Qed.

Lemma clear_next_node (p : Page) (l : list Snowflake) :
  next_node (foldl (fun q s => detach (node (element s)) q) p l) = next_node p.
Proof. revert p. induction l as [|s l IH]; intros p; [done|]. cbn [foldl]. by rewrite IH. Qed.

Lemma clear_keeps_good : keeps_good clear.
Proof.
  intros p c [Htidy Hs]. unfold clear. cbn [fst]. rewrite clear_next_node.
  split; [|done]. split; [|done]. split; cbn; constructor.
Qed.

(** What [remove(undefined)] does before it throws. *)
Lemma splice_last_keeps_good :
  keeps_good (fun sc => (sc.1, with_snowflakes (splice1 None (snowflakes sc.2)) sc.2)).
Proof.
  intros p c [[Hnd Hlt] Hs]. cbn [fst snd]. split; [|done]. split; [|done].
  unfold splice1. split; cbn [fst snd snowflakes with_snowflakes].
  - eapply sublist_NoDup; [exact Hnd|]. apply fmap_sublist, sublist_delete.
  - apply Forall_forall. intros t Hin. apply list_elem_of_delete_inv in Hin.
    rewrite Forall_forall in Hlt. by apply Hlt.
Qed.

Lemma invoke_keeps_good (op : Operation) (e : Env) (p : Page) (c : Controller) :
  good (p, c) →
  match invoke op e (p, c) with
  | Returned sc' | Threw sc' => good sc' ∧ (next_node p ≤ next_node sc'.1)%nat
  | Unmodelled => True
  end.
Proof.
  intros Hc. destruct op; cbn [invoke]; try done.
  - by apply start_keeps_good.
  - by apply spawn_keeps_good.
  - by apply generate_keeps_good.
  - by apply animate_keeps_good.
  - by apply (splice_last_keeps_good p c).
  - by apply clear_keeps_good.
  - by apply stop_keeps_good.
Qed.

Lemma broadcast_sound (op : Operation) (envs : nat → Env) (n k : nat) (w : World) :
  sound w →
  match broadcast n op envs k w with
  | Returned w' | Threw w' => sound w'
  | Unmodelled => True
  end.
Proof.
  revert k w. induction n as [|n IH]; intros k w Hw; [done|].
  cbn [broadcast].
  destruct (controllers w !! k) as [c|] eqn:Hk; [|done].
  assert (good (body w, c)) as Hc.
  { unfold sound in Hw. rewrite Forall_forall in Hw. apply Hw.
    by eapply list_elem_of_lookup_2. }
  pose proof (invoke_keeps_good op (envs k) (body w) c Hc) as Hop.
  destruct (invoke op (envs k) (body w, c)) as [[p' c']|[p' c']|]; [| |done].
  - destruct Hop as [Hgood Hle]. apply IH. by apply sound_update.
  - destruct Hop as [Hgood Hle]. by apply sound_update.
Qed.

Lemma resize_good (w2 h2 : R) (p : Page) (c : Controller) :
  good (p, c) → good (p, resize w2 h2 c).
Proof.
  intros [[Hnd Hlt] Hs]. split; [|done]. cbn [fst snd] in *.
  split; cbn [fst snd snowflakes resize].
  - rewrite map_map. simpl. done.
  - apply Forall_map. simpl. done.
Qed.

Lemma main_sound (layers : list CONFIG) (cw ch : R) : sound (main layers cw ch).
Proof.
  unfold main.
  assert (∀ w0, sound w0 →
                sound (foldl (fun w layer =>
                                let '(p, c) := new_Controller layer cw ch (body w) in
                                {| body := p; controllers := controllers w ++ [c] |})
                             w0 layers)) as Hgen.
  { induction layers as [|layer layers IH]; intros w0 H0; [done|].
    cbn [foldl]. apply IH. unfold new_Controller.
    destruct (start_keeps_good (body w0)
                {| config := layer; snowflakes := []; document_width := cw;
                   document_height := ch; active := false; interval := None;
                   timers := []; sleepers := [] |}) as [Hgood Hle].
    { split; [split; constructor|]. by split. }
    destruct (start _) as [p c]. unfold sound. cbn [body controllers].
    apply Forall_app. split; [|by constructor].
    eapply Forall_impl; [exact H0|]. intros c0. by apply good_mono. }
  apply Hgen. constructor.
Qed.

Lemma step_sound (ev : Event) (w w' : World) :
  sound w → step ev w = Some w' → sound w'.
Proof.
  intros Hw. destruct ev as [k handle e|k j random|cw ch|cmd envs]; cbn [step].
  - intros [= <-]. apply on_controller_sound; [apply tick_keeps_good|done].
  - intros [= <-]. apply on_controller_sound; [apply generate_resume_keeps_good|done].
  - intros [= <-]. unfold sound, on_resize. cbn [body controllers].
    change map with (@fmap list _). apply Forall_fmap.
    eapply Forall_impl; [exact Hw|]. intros c. apply resize_good.
  - unfold command. destruct (controllers w) as [|c0 rest] eqn:Hcs.
    { by intros [= <-]. }
    rewrite <- Hcs.
    destruct (get_property c0 cmd) as [|[]|op|[]]; try by intros [= <-].
    pose proof (broadcast_sound op envs (length (controllers w)) 0 w Hw) as Hb.
    destruct (broadcast _ op envs 0 w); [| |done]; by intros [= <-].
Qed.

(** Every state the page can reach from [main] is sound: the hypotheses
    [tidy] and [timers_ok] of the statements above hold for each of its
    controllers. *)
Lemma reachable_sound (layers : list CONFIG) (cw ch : R) (evs : list Event) (w' : World) :
  run evs (main layers cw ch) = Some w' →
  Forall (fun c => tidy (body w', c) ∧ timers_ok c) (controllers w').
Proof.
  intros Hrun.
  assert (sound w') as Hw'.
  { pose proof (main_sound layers cw ch) as H0.
    revert Hrun H0. generalize (main layers cw ch). clear.
    induction evs as [|ev evs IH]; intros w; cbn [run].
    - by intros [= <-].
    - destruct (step ev w) as [w1|] eqn:Hstep; [|done].
      intros Hrun Hw. apply (IH w1 Hrun). by eapply step_sound. }
  eapply Forall_impl; [exact Hw'|]. by intros c [? [? _]].
Qed.

(** * Further properties of the script *)

(** ** Start and stop *)

(** X1.  [start()] on a controller that is running changes nothing, so
    calling it twice is calling it once: the second call registers no second
    interval and suspends no second population sequence.  [stop()] twice is
    [stop()] once as well. *)
Theorem start_and_stop_are_idempotent (p : Page) (c : Controller) :
  start (start (p, c)) = start (p, c)
  ∧ stop (stop c) = stop c
  ∧ active (start (p, c)).2 = true
  ∧ active (stop c) = false.
Proof.
  split_and!.
  - unfold start at 2 3. destruct (active c) eqn:Hact.
    + unfold start. by rewrite Hact.
    + unfold generate. cbn [snowflakes config setInterval].
      by destruct (length (snowflakes c) <? LIMIT (config c))%nat.
  - reflexivity.
  - unfold start. destruct (active c) eqn:Hact; [done|].
    unfold generate. cbn [snowflakes config setInterval].
    by destruct (length (snowflakes c) <? LIMIT (config c))%nat.
  - reflexivity.
Qed.

(** X2.  Stopping a controller and starting it again leaves it running
    with exactly one live interval, the one its [interval] field remembers,
    and suspends one more population sequence at the current count if the
    layer is not full; the snowflakes, the configuration, the cached size
    and the page's nodes are not touched. *)
Theorem stop_then_start_leaves_one_interval (p : Page) (c : Controller) :
  timers_ok c →
  let sc' := start (p, stop c) in
  active sc'.2 = true
  ∧ (∃ handle, interval sc'.2 = Some handle ∧ timers sc'.2 = [handle])
  ∧ snowflakes sc'.2 = snowflakes c
  ∧ config sc'.2 = config c
  ∧ document_width sc'.2 = document_width c
  ∧ document_height sc'.2 = document_height c
  ∧ children sc'.1 = children p
  ∧ next_node sc'.1 = next_node p
  ∧ sleepers sc'.2
    = sleepers c ++ (if (length (snowflakes c) <? LIMIT (config c))%nat
                     then [length (snowflakes c)] else []).
Proof.
  intros Hok sc'. unfold sc', start. cbn [active stop].
  unfold generate. cbn [snowflakes config sleepers setInterval timers stop].
  pose proof (stop_no_timers c Hok) as Hnone. cbn [timers stop] in Hnone.
  rewrite Hnone.
  destruct (length (snowflakes c) <? LIMIT (config c))%nat;
    cbn -[Nat.ltb]; rewrite ?app_nil_r; split_and!; eauto.
Qed.

Lemma stop_then_start_leaves_one_interval_witness :
  timers_ok (scenario_controller 0)
  ∧ ∃ handle, interval (start (scenario_page, stop (scenario_controller 0))).2 = Some handle
              ∧ timers (start (scenario_page, stop (scenario_controller 0))).2 = [handle].
Proof.
  assert (timers_ok (scenario_controller 0)) as Hok by reflexivity.
  split; [exact Hok|].
  exact (proj1 (proj2
    (stop_then_start_leaves_one_interval scenario_page (scenario_controller 0) Hok))).
Defined.

(** ** Main *)

Lemma new_Controller_started (cfg : CONFIG) (cw ch : R) (p : Page) :
  new_Controller cfg cw ch p
  = ({| children := children p; next_node := next_node p;
        next_handle := S (next_handle p) |},
     started cfg cw ch (next_handle p)).
Proof.
  unfold new_Controller, start, started, generate.
  cbn [active snowflakes config length sleepers setInterval].
  by destruct (0 <? LIMIT cfg)%nat.
Qed.

Lemma main_builds_world (layers : list CONFIG) (cw ch : R) :
  main layers cw ch
  = {| body := {| children := []; next_node := 0;
                  next_handle := S (length layers) |};
       controllers := imap (fun k cfg => started cfg cw ch (S k)) layers |}.
Proof.
  unfold main.
  assert (∀ done,
            foldl (fun w layer =>
                     let '(p, c) := new_Controller layer cw ch (body w) in
                     {| body := p; controllers := controllers w ++ [c] |})
                  {| body := {| children := []; next_node := 0;
                                next_handle := S (length done) |};
                     controllers := imap (fun k cfg => started cfg cw ch (S k)) done |}
                  layers
            = {| body := {| children := []; next_node := 0;
                            next_handle := S (length (done ++ layers)) |};
                 controllers := imap (fun k cfg => started cfg cw ch (S k))
                                     (done ++ layers) |}) as Hgen.
  { induction layers as [|layer layers IH]; intros done.
    - by rewrite app_nil_r.
    - cbn [foldl body controllers]. rewrite new_Controller_started.
      cbn [children next_node next_handle].
      specialize (IH (done ++ [layer])).
      rewrite <- (assoc_L (++)) in IH. cbn [app] in IH. rewrite <- IH.
      f_equal. f_equal.
      + f_equal. rewrite length_app. simpl. lia.
      + rewrite imap_app. simpl. by rewrite Nat.add_0_r. }
  exact (Hgen []).
Qed.

(** X3.  [main()] leaves one controller per layer, in the order of the
    layers: each is running, holds no snowflake yet, has cached the
    viewport size, is driven by one interval, the one in its [interval]
    field, and has its population sequence suspended at [i = 0] unless its
    limit is 0.  The container has no child yet. *)
Theorem main_builds_one_running_controller_per_layer (layers : list CONFIG) (cw ch : R) :
  let w := main layers cw ch in
  length (controllers w) = length layers
  ∧ children (body w) = []
  ∧ ∀ k cfg, layers !! k = Some cfg →
             ∃ handle, controllers w !! k = Some (started cfg cw ch handle).
Proof.
  intros w. unfold w. rewrite main_builds_world. cbn [controllers body children].
  split_and!.
  - apply length_imap.
  - reflexivity.
  - intros k cfg Hk. exists (S k). by rewrite list_lookup_imap, Hk.
Qed.

(** ** The sine *)

(** X4.  [getSine] stays within [amplitude] of its vertical shift, whatever
    the clock says; so the horizontal position one visit of [animate()]
    writes is the position it read plus the sway rate, give or take 1, and
    the vertical position it writes is the one it read plus the fall
    rate. *)
Theorem getSine_stays_within_amplitude (amplitude frequency verticalShift now : R)
    (h : Host) (c : Controller) (s : Snowflake) :
  Rabs (getSine amplitude frequency verticalShift now - verticalShift) <= Rabs amplitude
  ∧ Rabs (style_left (element (Rendered.move h c now s))
          - (Rendered.left h s + SWAY_RATE (config c))) <= 1
  ∧ style_top (element (Rendered.move h c now s))
    = Rendered.top h s + FALL_RATE (config c).
Proof.
  split_and!.
  - unfold getSine.
    replace (amplitude * sin (now * frequency) + verticalShift - verticalShift)
      with (amplitude * sin (now * frequency)) by lra.
    rewrite Rabs_mult. rewrite <- (Rmult_1_r (Rabs amplitude)) at 2.
    apply Rmult_le_compat_l; [apply Rabs_pos|].
    apply Rabs_le. pose proof (SIN_bound (now * frequency)). lra.
  - unfold Rendered.move, getSine. cbn [set_top set_left element style_left].
    apply Rabs_le. pose proof (SIN_bound (now * 0.005)). lra.
  - reflexivity.
Qed.

(** ** Resize there and back *)

(** X5.  Resizing to another size and back restores the cached size, and
    it restores the position of a snowflake if the style's text keeps both
    that position and the shifted one.  Where it does not, the position
    drifts: in Chromium a snowflake at [999.999] on a viewport 1024 wide
    reads [1001] after [resize(1025, 768)] and [1000] after
    [resize(1024, 768)]. *)
Theorem resize_there_and_back (h : Host) (w2 h2 : R) (c : Controller) :
  let back c := Rendered.resize h (document_width c) (document_height c) in
  let c'' := back c (Rendered.resize h w2 h2 c) in
  document_width c'' = document_width c
  ∧ document_height c'' = document_height c
  ∧ length (snowflakes c'') = length (snowflakes c)
  ∧ (∀ k s, snowflakes c !! k = Some s →
       ∃ s'', snowflakes c'' !! k = Some s''
              ∧ node (element s'') = node (element s)
              ∧ (style_px h (Rendered.left h s + (w2 - document_width c))
                 = Rendered.left h s + (w2 - document_width c) →
                 style_px h (Rendered.left h s) = Rendered.left h s →
                 Rendered.left h s'' = Rendered.left h s)
              ∧ (style_px h (Rendered.top h s + (h2 - document_height c))
                 = Rendered.top h s + (h2 - document_height c) →
                 style_px h (Rendered.top h s) = Rendered.top h s →
                 Rendered.top h s'' = Rendered.top h s))
  ∧ (let d := desktop_controller [flake_at 0 999.999 0] in
     ∃ s' s'',
       snowflakes (Rendered.resize chromium 1025 768 d) = [s']
       ∧ snowflakes (Rendered.resize chromium 1024 768
                       (Rendered.resize chromium 1025 768 d)) = [s'']
       ∧ Rendered.left chromium (flake_at 0 999.999 0) = 999.999
       ∧ Rendered.left chromium s' = 1001
       ∧ Rendered.left chromium s'' = 1000).
Proof.
  intros back c''. split_and!; try reflexivity.
  - unfold c'', back, Rendered.resize. cbn [snowflakes]. by rewrite !length_map.
  - intros k s Hk. unfold c'', back, Rendered.resize.
    cbn [snowflakes document_width document_height].
    change map with (@fmap list _). rewrite !list_lookup_fmap, Hk. cbn [fmap option_fmap option_map].
    eexists. split; [reflexivity|]. split; [reflexivity|].
    unfold Rendered.left, Rendered.top. cbn [set_top set_left element style_left style_top].
    remember (style_px h (style_left (element s))) as l0 eqn:Hl0. clear Hl0.
    remember (style_px h (style_top (element s))) as t0 eqn:Ht0. clear Ht0.
    split.
    + intros Hsum Hkeep. rewrite Hsum.
      replace (l0 + (w2 - document_width c) + (document_width c - w2)) with l0 by lra.
      exact Hkeep.
    + intros Hsum Hkeep. rewrite Hsum.
      replace (t0 + (h2 - document_height c) + (document_height c - h2)) with t0 by lra.
      exact Hkeep.
  - cbv zeta. eexists _, _. split; [reflexivity|]. split; [reflexivity|].
    assert (Rendered.left chromium (flake_at 0 999.999 0) = 999.999) as H0
      by apply six_digits_999_999.
    unfold Rendered.left in *.
    cbn [set_top set_left element style_left flake_at chromium style_px
         document_width desktop_controller] in *.
    split; [exact H0|].
    assert (six_digits (six_digits 999.999 + (1025 - 1024)) = 1001) as H1.
    { rewrite H0. replace (999.999 + (1025 - 1024)) with 1000.999 by lra.
      apply six_digits_1000_999. }
    split; [exact H1|].
    rewrite H1. unfold Rendered.resize. cbn [document_width].
    replace (1001 + (1024 - 1025)) with 1000 by lra.
    apply six_digits_1000.
Qed.

(** ** The staggered population *)

(** Without a suspended population sequence the timers of a controller
    never change the number of its snowflakes. *)
Lemma deliver_without_sleepers (ev : TimerEvent) (sc : Scene) :
  sleepers sc.2 = [] →
  length (snowflakes (deliver ev sc).2) = length (snowflakes sc.2)
  ∧ sleepers (deliver ev sc).2 = []
  ∧ config (deliver ev sc).2 = config sc.2.
Proof.
  destruct sc as [p c]. cbn [snd]. intros Hs.
  destruct ev as [handle e|j random]; cbn [deliver].
  - unfold tick. cbn [snd]. case_bool_decide; [|done].
    destruct (animate_frame e (p, c)) as (Hc & _ & _ & _ & _ & _ & Hsl).
    cbn [snd] in *. split_and!; [apply (animate_length e (p, c))|congruence|done].
  - unfold generate_resume. by rewrite Hs.
Qed.

Lemma timers_keep_count (evs : list TimerEvent) (sc : Scene) :
  sleepers sc.2 = [] →
  length (snowflakes (foldl (fun sc ev => deliver ev sc) sc evs).2)
  = length (snowflakes sc.2)
  ∧ sleepers (foldl (fun sc ev => deliver ev sc) sc evs).2 = []
  ∧ config (foldl (fun sc ev => deliver ev sc) sc evs).2 = config sc.2.
Proof.
  revert sc. induction evs as [|ev evs IH]; intros sc Hs; [done|].
  cbn [foldl]. destruct (deliver_without_sleepers ev sc Hs) as (Hl & Hs' & Hc).
  destruct (IH _ Hs') as (Hl' & Hs'' & Hc'). split_and!; congruence.
Qed.




(** The state of a fresh controller after some timer events: it has made
    one spawn per timeout up to its limit, and its population sequence is
    suspended at the current count until the limit is reached. *)
Lemma fresh_controller_invariant (evs : list TimerEvent) (n : nat) (p : Page) (c : Controller) :
  active c = true →
  length (snowflakes c) = Nat.min (LIMIT (config c)) n →
  sleepers c = (if (length (snowflakes c) <? LIMIT (config c))%nat
                then [length (snowflakes c)] else []) →
  let sc' := foldl (fun sc ev => deliver ev sc) (p, c) evs in
  length (snowflakes sc'.2) = Nat.min (LIMIT (config c)) (n + timeouts evs)
  ∧ sleepers sc'.2 = (if (length (snowflakes sc'.2) <? LIMIT (config c))%nat
                      then [length (snowflakes sc'.2)] else [])
  ∧ active sc'.2 = true
  ∧ config sc'.2 = config c.
Proof.
  revert n p c. induction evs as [|ev evs IH]; intros n p c Hact Hlen Hsl sc'.
  - unfold sc'. cbn [foldl timeouts snd]. rewrite Nat.add_0_r. done.
  - unfold sc'. cbn [foldl].
    destruct ev as [handle e|j random].
    + (* a tick *)
      assert (active (deliver (Fires handle e) (p, c)).2 = true
              ∧ config (deliver (Fires handle e) (p, c)).2 = config c
              ∧ length (snowflakes (deliver (Fires handle e) (p, c)).2)
                = length (snowflakes c)
              ∧ sleepers (deliver (Fires handle e) (p, c)).2 = sleepers c)
        as (Ha & Hc & Hl & Hs).
      { cbn [deliver]. unfold tick. cbn [snd]. case_bool_decide; [|done].
        destruct (animate_frame e (p, c)) as (Hc & _ & _ & Ha & _ & _ & Hs).
        pose proof (animate_length e (p, c)) as Hl. cbn [snd] in *.
        rewrite Ha. done. }
      destruct (deliver (Fires handle e) (p, c)) as [p1 c1]. cbn [snd] in *.
      destruct (IH n p1 c1) as (H1 & H2 & H3 & H4).
      * done.
      * by rewrite Hl, Hc.
      * by rewrite Hs, Hl, Hc.
      * cbn [timeouts]. rewrite Hc in H1, H2, H4. done.
    + (* a timeout *)
      cbn [deliver]. unfold generate_resume. rewrite Hsl.
      destruct (Nat.ltb_spec (length (snowflakes c)) (LIMIT (config c))) as [Hlt|Hge].
      * destruct j as [|j].
        -- cbn [lookup list_lookup delete list_delete with_sleepers active].
           rewrite Hact. cbn [negb]. rewrite spawn_eq.
           cbn [config with_snowflakes with_sleepers].
           set (c1 := if (S (length (snowflakes c)) <? LIMIT (config c))%nat
                      then _ else _).
           assert (c1 = (c1.1, c1.2)) as Hc1 by (by destruct c1).
           assert (active c1.2 = true ∧ config c1.2 = config c
                   ∧ length (snowflakes c1.2) = S (length (snowflakes c))
                   ∧ sleepers c1.2
                     = (if (S (length (snowflakes c)) <? LIMIT (config c))%nat
                        then [S (length (snowflakes c))] else [])) as (Ha & Hc & Hl & Hs).
           { unfold c1.
             destruct (S (length (snowflakes c)) <? LIMIT (config c))%nat;
               cbn [snd active config snowflakes sleepers with_sleepers with_snowflakes];
               rewrite length_app; cbn [length]; split_and!; try done; lia. }
           rewrite Hc1.
           destruct (IH (S n) c1.1 c1.2) as (H1 & H2 & H3 & H4).
           ++ done.
           ++ rewrite Hl, Hc. lia.
           ++ by rewrite Hs, Hl, Hc.
           ++ cbn [timeouts]. rewrite Hc in H1, H2, H4.
              replace (n + S (timeouts evs))%nat with (S n + timeouts evs)%nat by lia.
              done.
        -- cbn [lookup list_lookup].
           destruct (IH n p c) as (H1 & H2 & H3 & H4); try done.
           { rewrite Hsl. by destruct (Nat.ltb_spec (length (snowflakes c)) (LIMIT (config c)));
               [|lia]. }
      * cbn [lookup list_lookup].
        assert ([] !! j = @None nat) as -> by (by destruct j).
        destruct (IH n p c) as (H1 & H2 & H3 & H4); try done.
        { rewrite Hsl. by destruct (Nat.ltb_spec (length (snowflakes c)) (LIMIT (config c)));
            [lia|]. }
        split_and!; try done. rewrite H1.
        destruct j as [|j]; cbn [timeouts]; lia.
Qed.

(** X7.  A controller fresh from its constructor holds [min(n, LIMIT)]
    snowflakes once [n] timeouts of its population sequence have fired,
    whatever ticks of its interval came in between: every timeout below the
    limit spawns exactly one snowflake.  The sequence is suspended with its
    loop variable at the current count as long as that is below the limit,
    and is over from then on: the layer fills to exactly its limit and
    stays there. *)
Theorem fresh_controller_fills_to_its_limit (cfg : CONFIG) (cw ch : R) (p : Page)
    (evs : list TimerEvent) :
  let sc' := foldl (fun sc ev => deliver ev sc) (new_Controller cfg cw ch p) evs in
  length (snowflakes sc'.2) = Nat.min (LIMIT cfg) (timeouts evs)
  ∧ sleepers sc'.2 = (if (length (snowflakes sc'.2) <? LIMIT cfg)%nat
                      then [length (snowflakes sc'.2)] else [])
  ∧ active sc'.2 = true
  ∧ config sc'.2 = cfg.
Proof.
  intros sc'. unfold sc'. rewrite new_Controller_started.
  apply (fresh_controller_invariant evs 0); cbn [started active snowflakes length config sleepers].
  - reflexivity.
  - lia.
  - reflexivity.
Qed.

(** X8.  Once no population sequence is suspended, the number of snowflakes
    of a controller is constant under everything its timers deliver: a tick
    replaces what it removes, and there is nothing left to resume.  In
    particular a layer emptied by [clear()] after its population is over
    stays empty. *)
Theorem count_is_constant_once_population_is_over (evs : list TimerEvent) (p : Page)
    (c : Controller) :
  sleepers c = [] →
  let run_timers sc := foldl (fun sc ev => deliver ev sc) sc evs in
  length (snowflakes (run_timers (p, c)).2) = length (snowflakes c)
  ∧ sleepers (run_timers (p, c)).2 = []
  ∧ snowflakes (run_timers (clear (p, c))).2 = [].
Proof.
  intros Hs run_timers. split_and!.
  - apply (timers_keep_count evs (p, c) Hs).
  - apply (timers_keep_count evs (p, c) Hs).
  - unfold run_timers. apply length_zero_iff_nil.
    destruct (timers_keep_count evs (clear (p, c))) as [-> _]; [exact Hs|reflexivity].
Qed.

Lemma count_is_constant_once_population_is_over_witness :
  sleepers (scenario_controller 0) = []
  ∧ length (snowflakes (foldl (fun sc ev => deliver ev sc)
                          (scenario_page, scenario_controller 0)
                          [Fires 1 still; Resumes 0 0.5; Fires 1 still]).2)
    = length (snowflakes (scenario_controller 0)).
Proof.
  split; [reflexivity|].
  exact (proj1 (count_is_constant_once_population_is_over
                  [Fires 1 still; Resumes 0 0.5; Fires 1 still]
                  scenario_page (scenario_controller 0) eq_refl)).
Defined.

(** ** Remove *)

Lemma indexOf_None (l : list Snowflake) (s : Snowflake) :
  indexOf l s = None ↔ node (element s) ∉ (fun t => node (element t)) <$> l.
Proof.
  induction l as [|t l IH]; cbn [indexOf fmap list_fmap].
  - split; [intros _; apply not_elem_of_nil|done].
  - unfold same_object. rewrite not_elem_of_cons.
    destruct (Nat.eqb_spec (node (element t)) (node (element s))) as [Heq|Hne].
    + split; [done|]. intros [Hne _]. by rewrite Heq in Hne.
    + destruct (indexOf l s) as [j|] eqn:Hj; cbn.
      * split; [done|]. intros [_ Hnot]. by apply IH in Hnot.
      * split; [|done]. intros _. split; [congruence|]. by apply IH.
Qed.

Lemma delete_last_take {A : Type} (l : list A) :
  delete (length l - 1)%nat l = take (length l - 1)%nat l.
Proof.
  destruct (decide (l = [])) as [->|Hne]; [done|].
  rewrite delete_take_drop.
  replace (S (length l - 1)) with (length l) by (destruct l; [done|simpl; lia]).
  by rewrite drop_all, app_nil_r.
Qed.

(** X9.  [remove(snowflake)] of a snowflake that sits in the array takes
    exactly that one out, keeps the others in their order, and detaches its
    element from the container; no other element is detached. *)
Theorem remove_takes_out_that_snowflake (k : nat) (s : Snowflake) (p : Page)
    (c : Controller) :
  tidy (p, c) →
  snowflakes c !! k = Some s →
  let sc' := remove s (p, c) in
  snowflakes sc'.2 = delete k (snowflakes c)
  ∧ length (snowflakes sc'.2) = (length (snowflakes c) - 1)%nat
  ∧ (node (element s) ∉ nodes sc'.2)
  ∧ (∀ n, n ∈ children sc'.1 ↔ n ∈ children p ∧ n ≠ node (element s)).
Proof.
  intros [Hnd Hlt] Hk sc'. cbn [fst snd] in *.
  assert (snowflakes sc'.2 = delete k (snowflakes c)) as Hdel.
  { unfold sc', remove. cbn [snd snowflakes with_snowflakes].
    by rewrite (indexOf_NoDup _ s k Hnd Hk). }
  split_and!.
  - exact Hdel.
  - rewrite Hdel. apply length_delete. eauto.
  - unfold nodes. rewrite Hdel. change map with (@fmap list _).
    intros Hin. apply list_elem_of_fmap in Hin as (t & Heq & Hin).
    apply list_elem_of_lookup in Hin as [j Hj].
    rewrite list_lookup_delete in Hj.
    assert (∀ i, snowflakes c !! i = Some t → i = k) as Hsame.
    { intros i Hi. eapply NoDup_lookup; [exact Hnd| |].
      - change map with (@fmap list _). by rewrite list_lookup_fmap, Hi.
      - change map with (@fmap list _). by rewrite list_lookup_fmap, Hk, <- Heq. }
    case_decide as Hcase; apply Hsame in Hj; lia.
  - intros n. unfold sc', remove, detach. cbn [fst children].
    rewrite list_elem_of_filter. tauto.
Qed.

Lemma remove_takes_out_that_snowflake_witness :
  let c := controller_with [flake_at 0 3 4; flake_at 1 5 6] in
  tidy (two_flake_page, c)
  ∧ snowflakes c !! 0%nat = Some (flake_at 0 3 4)
  ∧ snowflakes (remove (flake_at 0 3 4) (two_flake_page, c)).2
    = delete 0%nat (snowflakes c).
Proof.
  intros c.
  assert (tidy (two_flake_page, c)) as Htidy by apply two_flake_tidy.
  split; [exact Htidy|]. split; [reflexivity|].
  exact (proj1 (remove_takes_out_that_snowflake 0 (flake_at 0 3 4) two_flake_page c
                  Htidy eq_refl)).
Defined.

(** X10.  [remove(snowflake)] of a snowflake that is not in the array does
    not leave the array alone: [indexOf] answers [-1] and [splice(-1, 1)]
    takes the last snowflake out.  The elements of the array's snowflakes,
    the dropped one included, stay attached; the element that is detached
    is the one of the snowflake that was passed. *)
Theorem remove_of_a_stranger_drops_the_last (s : Snowflake) (p : Page) (c : Controller) :
  node (element s) ∉ nodes c →
  let sc' := remove s (p, c) in
  snowflakes sc'.2 = take (length (snowflakes c) - 1) (snowflakes c)
  ∧ length (snowflakes sc'.2) = (length (snowflakes c) - 1)%nat
  ∧ (∀ n, n ∈ nodes c → n ∈ children p → n ∈ children sc'.1)
  ∧ (node (element s) ∉ children sc'.1).
Proof.
  intros Habsent sc'. unfold nodes in Habsent. change map with (@fmap list _) in Habsent.
  assert (snowflakes sc'.2 = take (length (snowflakes c) - 1) (snowflakes c)) as Htake.
  { unfold sc', remove. cbn [snd snowflakes with_snowflakes].
    apply indexOf_None in Habsent. rewrite Habsent. apply delete_last_take. }
  split_and!.
  - exact Htake.
  - rewrite Htake, length_take. lia.
  - intros n Hn Hin. unfold sc', remove, detach. cbn [fst children].
    apply list_elem_of_filter. split; [|done]. intros ->. by apply Habsent.
  - unfold sc', remove, detach. cbn [fst children].
    rewrite list_elem_of_filter. tauto.
Qed.

Lemma remove_of_a_stranger_drops_the_last_witness :
  let c := controller_with [flake_at 0 3 4; flake_at 1 5 6] in
  (node (element (flake_at 7 0 0)) ∉ nodes c)
  ∧ snowflakes (remove (flake_at 7 0 0) (two_flake_page, c)).2
    = take (length (snowflakes c) - 1) (snowflakes c).
Proof.
  intros c.
  assert (node (element (flake_at 7 0 0)) ∉ nodes c) as Habsent.
  { cbn. rewrite !not_elem_of_cons. split_and!; [lia..|apply not_elem_of_nil]. }
  split; [exact Habsent|].
  exact (proj1 (remove_of_a_stranger_drops_the_last (flake_at 7 0 0) two_flake_page c
                  Habsent)).
Defined.

(** ** More on the tick *)

(** X11.  The loop of [animate()] always comes to its end, although its
    body appends to the array it is iterating: from slot [k] on it makes at
    most as many visits as there are slots from [k] to the end, the array is
    as long afterwards as before, and more fuel never changes the
    outcome. *)
Theorem animate_loop_always_ends (e : Env) (fuel k : nat) (sc : Scene) :
  (length (snowflakes sc.2) - k < fuel)%nat →
  ∃ sc', animate_loop fuel e k sc = Some sc'
         ∧ length (snowflakes sc'.2) = length (snowflakes sc.2)
         ∧ (∀ fuel', (fuel ≤ fuel')%nat → animate_loop fuel' e k sc = Some sc')
         ∧ (k = 0%nat → sc' = animate e sc).
Proof.
  intros Hfuel.
  destruct (animate_loop_total e fuel k sc Hfuel) as [sc' Hrun].
  exists sc'. split_and!.
  - exact Hrun.
  - by eapply animate_loop_length.
  - intros fuel' Hle. by eapply animate_loop_more_fuel.
  - intros ->. pose proof (animate_loop_animate e sc) as Ha.
    destruct (Nat.le_ge_cases fuel (S (length (snowflakes sc.2)))) as [Hle|Hge].
    + rewrite (animate_loop_more_fuel e _ _ _ _ _ Hle Hrun) in Ha. congruence.
    + rewrite (animate_loop_more_fuel e _ _ _ _ _ Hge Ha) in Hrun. congruence.
Qed.

Lemma animate_loop_always_ends_witness :
  (length (snowflakes (two_flake_page,
                       controller_with [flake_at 0 0 110; flake_at 1 0 0]).2) - 0 < 3)%nat
  ∧ ∃ sc', animate_loop 3 still 0
             (two_flake_page, controller_with [flake_at 0 0 110; flake_at 1 0 0])
           = Some sc'
           ∧ length (snowflakes sc'.2) = 2%nat.
Proof.
  assert (length (snowflakes (two_flake_page,
            controller_with [flake_at 0 0 110; flake_at 1 0 0]).2) - 0 < 3)%nat as H
    by (cbn; lia).
  split; [exact H|].
  destruct (animate_loop_always_ends still 3 0
              (two_flake_page, controller_with [flake_at 0 0 110; flake_at 1 0 0]) H)
    as (sc' & Hrun & Hlen & _).
  exists sc'. split; [exact Hrun|exact Hlen].
Defined.

(** X12.  A tick in which no snowflake leaves the bounds visits every
    snowflake exactly once, in array order: each one is moved with the clock
    reading of its own visit and stays in its slot, and neither the page nor
    anything else of the controller changes. *)
Theorem tick_without_exit_moves_every_snowflake_once (e : Env) (p : Page) (c : Controller) :
  (∀ j s, snowflakes c !! j = Some s → exits c (move c (Date_now e j) s) = false) →
  animate e (p, c)
  = (p, with_snowflakes (imap (fun j => move c (Date_now e j)) (snowflakes c)) c)
  ∧ (∀ j s, snowflakes c !! j = Some s →
            snowflakes (animate e (p, c)).2 !! j = Some (move c (Date_now e j) s))
  ∧ nodes (animate e (p, c)).2 = nodes c.
Proof.
  intros Hstay. rewrite (animate_all_stay e p c Hstay). split_and!.
  - reflexivity.
  - intros j s Hj. cbn [snd snowflakes with_snowflakes].
    by rewrite list_lookup_imap, Hj.
  - unfold nodes. cbn [snd snowflakes with_snowflakes].
    apply list_eq. intros j. change map with (@fmap list _).
    rewrite !list_lookup_fmap, list_lookup_imap.
    by destruct (snowflakes c !! j).
Qed.

Lemma tick_without_exit_moves_every_snowflake_once_witness :
  (∀ j s, snowflakes (scenario_controller 0) !! j = Some s →
          exits (scenario_controller 0)
            (move (scenario_controller 0) (Date_now still j) s) = false)
  ∧ snowflakes (animate still (scenario_page, scenario_controller 0)).2 !! 0%nat
    = Some (move (scenario_controller 0) (Date_now still 0) (scenario_flake 0)).
Proof.
  assert (∀ j s, snowflakes (scenario_controller 0) !! j = Some s →
                 exits (scenario_controller 0)
                   (move (scenario_controller 0) (Date_now still j) s) = false) as Hstay.
  { intros [|j] s Hj; [|done]. injection Hj as <-.
    apply exits_false.
    - destruct (move_still (scenario_controller 0) 0 (scenario_flake 0)) as [-> _].
      cbn. lra.
    - destruct (move_still (scenario_controller 0) 0 (scenario_flake 0)) as [_ ->].
      cbn. lra. }
  split; [exact Hstay|].
  exact (proj1 (proj2 (tick_without_exit_moves_every_snowflake_once still scenario_page
                         (scenario_controller 0) Hstay))
           0%nat (scenario_flake 0) eq_refl).
Defined.

Lemma animate_visit_next_handle (e : Env) (k : nat) (s : Snowflake) (sc : Scene) :
  next_handle (animate_visit e k s sc).1 = next_handle sc.1.
Proof.
  destruct sc as [p c]. rewrite animate_visit_unfold. cbn [fst snd].
  by destruct (exits c (move c (Date_now e k) s)).
Qed.

Lemma animate_loop_next_handle (e : Env) (fuel k : nat) (sc sc' : Scene) :
  animate_loop fuel e k sc = Some sc' → next_handle sc'.1 = next_handle sc.1.
Proof.
  revert k sc. induction fuel as [|fuel IH]; intros k sc; [done|].
  destruct (snowflakes sc.2 !! k) as [s|] eqn:Hk.
  - rewrite (animate_loop_step _ _ _ s) by done. intros Hrun.
    by rewrite (IH _ _ Hrun), animate_visit_next_handle.
  - rewrite animate_loop_done by done. by intros [= <-].
Qed.

Lemma animate_loop_next_node (e : Env) (fuel k : nat) (sc sc' : Scene) :
  animate_loop fuel e k sc = Some sc' → (next_node sc.1 ≤ next_node sc'.1)%nat.
Proof.
  revert k sc. induction fuel as [|fuel IH]; intros k sc; [done|].
  destruct (snowflakes sc.2 !! k) as [s|] eqn:Hk.
  - rewrite (animate_loop_step _ _ _ s) by done. intros Hrun.
    pose proof (IH _ _ Hrun). pose proof (animate_visit_next_node e k s sc). lia.
  - rewrite animate_loop_done by done. by intros [= <-].
Qed.

(** X13.  A tick touches snowflakes and nothing else: the configuration,
    the cached viewport size, the active flag, the interval and the
    suspended population sequences of the controller are as before, no
    timer handle is handed out, and node identities are only ever added. *)
Theorem tick_changes_snowflakes_only (e : Env) (sc : Scene) :
  let sc' := animate e sc in
  config sc'.2 = config sc.2
  ∧ document_width sc'.2 = document_width sc.2
  ∧ document_height sc'.2 = document_height sc.2
  ∧ active sc'.2 = active sc.2
  ∧ interval sc'.2 = interval sc.2
  ∧ timers sc'.2 = timers sc.2
  ∧ sleepers sc'.2 = sleepers sc.2
  ∧ next_handle sc'.1 = next_handle sc.1
  ∧ (next_node sc.1 ≤ next_node sc'.1)%nat.
Proof.
  intros sc'. pose proof (animate_frame e sc) as (H1 & H2 & H3 & H4 & H5 & H6 & H7).
  split_and!; try done.
  - eapply animate_loop_next_handle, animate_loop_animate.
  - eapply animate_loop_next_node, animate_loop_animate.
Qed.

(** ** Broadcast commands *)

(** When the method returns for every controller, the broadcast returns, and
    what relates a controller before and after the method (and the page
    before and after it) relates every controller of the list (and the page)
    before and after the broadcast. *)
Lemma broadcast_pointwise (Rel : nat → Controller → Controller → Prop)
    (Pg : Page → Page → Prop) (op : Operation) (envs : nat → Env) :
  (∀ p, Pg p p) →
  (∀ p q r, Pg p q → Pg q r → Pg p r) →
  (∀ k p c, ∃ p' c', invoke op (envs k) (p, c) = Returned (p', c')
                     ∧ Rel k c c' ∧ Pg p p') →
  ∀ n k w,
    (k + n = length (controllers w))%nat →
    ∃ w', broadcast n op envs k w = Returned w'
          ∧ Pg (body w) (body w')
          ∧ length (controllers w') = length (controllers w)
          ∧ (∀ j, (j < k)%nat → controllers w' !! j = controllers w !! j)
          ∧ (∀ j c, (k ≤ j)%nat → controllers w !! j = Some c →
                    ∃ c', controllers w' !! j = Some c' ∧ Rel j c c').
Proof.
  intros Hrefl Htrans Hop. induction n as [|n IH]; intros k w Hlen.
  - exists w. split_and!; try done.
    intros j c Hj Hc. apply lookup_lt_Some in Hc. lia.
  - cbn [broadcast].
    destruct (controllers w !! k) as [c|] eqn:Hk;
      [|apply lookup_ge_None in Hk; lia].
    destruct (Hop k (body w) c) as (p' & c' & -> & Hrel & Hpg).
    destruct (IH (S k) {| body := p'; controllers := <[k := c']> (controllers w) |})
      as (w' & Hrun & Hpg' & Hlen' & Hbefore & Hafter).
    { cbn [controllers]. rewrite length_insert. lia. }
    cbn [body controllers] in *. rewrite length_insert in Hlen'.
    exists w'. split_and!.
    + exact Hrun.
    + by eapply Htrans.
    + exact Hlen'.
    + intros j Hj. rewrite Hbefore by lia. apply list_lookup_insert_ne. lia.
    + intros j c0 Hj Hc0. destruct (decide (j = k)) as [->|Hne].
      * rewrite Hk in Hc0. injection Hc0 as <-. exists c'. split; [|done].
        rewrite Hbefore by lia. apply list_lookup_insert_eq.
        by eapply lookup_lt_Some.
      * apply (Hafter j c0); [lia|]. rewrite list_lookup_insert_ne by lia. done.
Qed.

(** X14.  [command("spawn")] gives every controller exactly one more
    snowflake, whatever its limit, and changes nothing else of any
    controller.  The lengths written to the new element's style are 0 for
    [top] and the controller's own [Math.random()] times its cached width
    for [left]; its positions read as the style's text for these, which in
    Chromium is 0 for the vertical one. *)
Theorem command_spawn_adds_one_snowflake_to_every_layer (envs : nat → Env) (w : World) :
  controllers w ≠ [] →
  ∃ w', command "spawn" envs w = Returned w'
        ∧ length (controllers w') = length (controllers w)
        ∧ ∀ k c, controllers w !! k = Some c →
                 ∃ c' s, controllers w' !! k = Some c'
                         ∧ c' = with_snowflakes (snowflakes c ++ [s]) c
                         ∧ style_top (element s) = 0
                         ∧ style_left (element s)
                           = Math_random (envs k) 0 * document_width c
                         ∧ style_filter (element s) = BLUR (config c)
                         ∧ (∀ h, Rendered.top h s = style_px h 0
                                 ∧ Rendered.left h s
                                   = style_px h (Math_random (envs k) 0 * document_width c))
                         ∧ Rendered.top chromium s = 0.
Proof.
  intros Hne. unfold command.
  destruct (controllers w) as [|c0 rest] eqn:Hcs; [done|]. rewrite <- Hcs.
  destruct (get_property_method c0) as (_ & _ & _ & ->).
  destruct (broadcast_pointwise
              (fun k c c' => ∃ s, c' = with_snowflakes (snowflakes c ++ [s]) c
                                  ∧ style_top (element s) = 0
                                  ∧ style_left (element s)
                                    = Math_random (envs k) 0 * document_width c
                                  ∧ style_filter (element s) = BLUR (config c))
              (fun _ _ => True) op_spawn envs) with (n := length (controllers w))
              (k := 0%nat) (w := w)
    as (w' & Hrun & _ & Hlen & _ & Hafter).
  - done.
  - done.
  - intros k p c. cbn [invoke]. rewrite spawn_eq. eexists _, _.
    split; [reflexivity|]. split; [|done]. by eexists.
  - done.
  - exists w'. split; [done|]. split; [done|].
    intros k c Hk.
    destruct (Hafter k c) as (c' & Hk' & s & Hc' & Htop & Hleft & Hblur); [lia|done|].
    exists c', s. split_and!; try done.
    + intros h. unfold Rendered.top, Rendered.left. by rewrite Htop, Hleft.
    + unfold Rendered.top. rewrite Htop. apply six_digits_0.
Qed.

Lemma command_spawn_adds_one_snowflake_to_every_layer_witness :
  controllers (main CONFIG_layers 1024 768) ≠ []
  ∧ ∃ w', command "spawn" (fun _ => still) (main CONFIG_layers 1024 768) = Returned w'
          ∧ length (controllers w') = length (controllers (main CONFIG_layers 1024 768)).
Proof.
  assert (controllers (main CONFIG_layers 1024 768) ≠ []) as Hne by done.
  split; [exact Hne|].
  destruct (command_spawn_adds_one_snowflake_to_every_layer
              (fun _ => still) (main CONFIG_layers 1024 768) Hne) as (w' & Hrun & Hlen & _).
  exists w'. split; [exact Hrun|exact Hlen].
Defined.

(** A stopped world stays as it is under whatever its timers deliver. *)
Lemma step_frozen (ev : Event) (w0 w : World) :
  from_timer ev →
  frozen_like w0 w →
  ∃ w', step ev w = Some w' ∧ frozen_like w0 w'.
Proof.
  intros Hev (Hbody & Hlen & Hcs).
  assert (∀ k (tev : TimerEvent),
            frozen_like w0 (on_controller k (deliver tev) w)) as Hon.
  { intros k tev. unfold on_controller.
    destruct (controllers w !! k) as [c'|] eqn:Hk; [|done].
    destruct (lookup_lt_is_Some_2 (controllers w0) k) as [c Hc].
    { rewrite <- Hlen. by eapply lookup_lt_Some. }
    destruct (Hcs k c Hc) as (c'' & Hk'' & Hsnow & Hact & Htim).
    rewrite Hk in Hk''. injection Hk'' as <-.
    destruct (deliver_stopped tev (body w) c' Hact Htim)
      as (c1 & -> & Hsnow1 & Hact1 & Htim1 & _).
    split_and!; cbn [body controllers].
    - exact Hbody.
    - by rewrite length_insert.
    - intros j cj Hj. destruct (decide (j = k)) as [->|Hne].
      + rewrite Hc in Hj. injection Hj as <-. exists c1.
        split; [apply list_lookup_insert_eq; by eapply lookup_lt_Some|].
        split_and!; congruence.
      + rewrite list_lookup_insert_ne by done. by apply Hcs. }
  destruct ev as [k handle e|k j random| |]; try done; cbn [step].
  - eexists. split; [reflexivity|]. apply (Hon k (Fires handle e)).
  - eexists. split; [reflexivity|]. apply (Hon k (Resumes j random)).
Qed.

Lemma run_frozen (evs : list Event) (w0 w : World) :
  Forall from_timer evs →
  frozen_like w0 w →
  ∃ w', run evs w = Some w' ∧ frozen_like w0 w'.
Proof.
  revert w. induction evs as [|ev evs IH]; intros w Hevs Hw.
  - by exists w.
  - apply Forall_cons in Hevs as [Hev Hevs].
    destruct (step_frozen ev w0 w Hev Hw) as (w1 & Hstep & Hw1).
    cbn [run]. rewrite Hstep. by apply IH.
Qed.

(** X15.  After [command("stop")] every layer is stopped and deaf to its
    timers: whatever ticks and resume points the event loop still delivers,
    to whichever controller, every controller holds the very snowflakes it
    held when the command was given, and the container is untouched. *)
Theorem command_stop_freezes_every_layer (envs : nat → Env) (evs : list Event) (w : World) :
  controllers w ≠ [] →
  Forall timers_ok (controllers w) →
  Forall from_timer evs →
  ∃ w1 w2, command "stop" envs w = Returned w1
           ∧ run evs w1 = Some w2
           ∧ frozen_like w w2.
Proof.
  intros Hne Hok Hevs. unfold command.
  destruct (controllers w) as [|c0 rest] eqn:Hcs; [done|]. rewrite <- Hcs in Hok |- *.
  destruct (get_property_method c0) as (_ & -> & _).
  destruct (broadcast_pointwise (fun _ c c' => c' = stop c) eq op_stop envs)
    with (n := length (controllers w)) (k := 0%nat) (w := w)
    as (w1 & Hrun & Hbody & Hlen & _ & Hafter).
  - done.
  - intros p q r. apply eq_trans.
  - intros k p c. cbn [invoke fst snd]. by eexists _, _.
  - done.
  - destruct (run_frozen evs w w1 Hevs) as (w2 & Hrun2 & Hfrozen).
    + split_and!; [done|done|].
      intros k c Hk. destruct (Hafter k c) as (c' & Hk' & ->); [lia|done|].
      exists (stop c). split; [done|]. split_and!; [done|done|].
      apply stop_no_timers. rewrite Forall_forall in Hok. apply Hok.
      by eapply list_elem_of_lookup_2.
    + by exists w1, w2.
Qed.

Lemma command_stop_freezes_every_layer_witness :
  let w := {| body := scenario_page; controllers := [scenario_controller 0] |} in
  let evs := [Tick 0 1 still; Wake 0 0 0.5; Tick 0 1 still] in
  controllers w ≠ []
  ∧ Forall timers_ok (controllers w)
  ∧ Forall from_timer evs
  ∧ ∃ w1 w2, command "stop" (fun _ => still) w = Returned w1
             ∧ run evs w1 = Some w2
             ∧ frozen_like w w2.
Proof.
  intros w evs.
  assert (controllers w ≠ []) as H1 by done.
  assert (Forall timers_ok (controllers w)) as H2 by (by repeat constructor).
  assert (Forall from_timer evs) as H3 by (by repeat constructor).
  split; [exact H1|]. split; [exact H2|]. split; [exact H3|].
  exact (command_stop_freezes_every_layer (fun _ => still) evs w H1 H2 H3).
Defined.

(** ** No element leaks *)

Lemma tended_refl (sc : Scene) : scene_ok sc → tended sc sc.
Proof.
  intros Hok. split_and!; [done|done|by left|].
  destruct Hok as (_ & Hatt & _). intros n. split; [|intros [[? _]|?]; auto].
  intros Hn. destruct (decide (n ∈ nodes sc.2)); auto.
Qed.

Lemma tended_trans (sc sc1 sc2 : Scene) :
  scene_ok sc → tended sc sc1 → tended sc1 sc2 → tended sc sc2.
Proof.
  intros (_ & _ & Hlt) (Hok1 & Hle1 & Hnew1 & Hch1) (Hok2 & Hle2 & Hnew2 & Hch2).
  rewrite Forall_forall in Hlt.
  split_and!; [done|lia| |].
  - intros n Hn. destruct (Hnew2 n Hn) as [Hn1|Hn1]; [|right; lia].
    destruct (Hnew1 n Hn1); [by left|right; lia].
  - intros n. rewrite Hch2, Hch1. split.
    + intros [[[[Hn Hno]|Hn1] Hno1]|Hn2]; [by left|done|by right].
    + intros [[Hn Hno]|Hn2]; [|by right].
      destruct (decide (n ∈ nodes sc2.2)) as [|Hno2]; [by right|]. left.
      split; [by left|]. intros Hn1.
      destruct (Hnew1 n Hn1) as [|Hge]; [done|]. apply Hlt in Hn. lia.
Qed.

(** A method that leaves the nodes, the children and the supply alone. *)
Lemma tended_same (sc sc' : Scene) :
  nodes sc'.2 = nodes sc.2 →
  children sc'.1 = children sc.1 →
  next_node sc'.1 = next_node sc.1 →
  scene_ok sc → tended sc sc'.
Proof.
  intros Hn Hc Hx Hok.
  assert (scene_ok sc') as Hok'.
  { unfold scene_ok. by rewrite Hn, Hc, Hx. }
  destruct (tended_refl sc Hok) as (_ & _ & H3 & H4).
  split_and!; [done|lia| |].
  - intros n. rewrite Hn. apply H3.
  - intros n. rewrite Hn, Hc. apply H4.
Qed.

Lemma spawn_tended (random : R) (sc : Scene) : scene_ok sc → tended sc (spawn random sc).
Proof.
  destruct sc as [p c]. intros (Hnd & Hatt & Hlt). rewrite spawn_eq.
  cbn [fst snd] in *. rewrite Forall_forall in Hlt.
  assert (nodes (with_snowflakes (snowflakes c ++ [replacement random p c]) c)
          = nodes c ++ [next_node p]) as Hnodes.
  { unfold nodes. cbn [snowflakes with_snowflakes]. by rewrite map_app. }
  unfold tended, scene_ok. cbn [fst snd appendChild children next_node].
  rewrite Hnodes. split_and!.
  - apply NoDup_app. split_and!; [done| |apply NoDup_singleton].
    intros n Hn. rewrite list_elem_of_singleton. intros ->.
    apply Hatt, Hlt in Hn. lia.
  - intros n. rewrite !elem_of_app. intros [Hn|Hn]; auto.
  - apply Forall_app. split; [|repeat constructor].
    apply Forall_forall. intros n Hn. apply Hlt in Hn. lia.
  - lia.
  - intros n. rewrite elem_of_app, list_elem_of_singleton.
    intros [? | ->]; [by left|by right].
  - intros n. rewrite !elem_of_app, list_elem_of_singleton. split.
    + intros [Hn | ->]; [|auto]. destruct (decide (n ∈ nodes c)); auto.
    + intros [[Hn _]|[Hn | ->]]; auto.
Qed.

Lemma elem_of_delete_NoDup {A : Type} (l : list A) (k : nat) (x y : A) :
  NoDup l → l !! k = Some x → y ∈ delete k l ↔ y ∈ l ∧ y ≠ x.
Proof.
  intros Hnd Hk. rewrite delete_take_drop.
  pose proof (take_drop_middle l k x Hk) as Hsplit.
  assert (y ∈ l ↔ y ∈ take k l ∨ y = x ∨ y ∈ drop (S k) l) as ->.
  { rewrite <- Hsplit at 1. by rewrite elem_of_app, elem_of_cons. }
  rewrite <- Hsplit in Hnd.
  apply NoDup_app in Hnd as (_ & Hdisj & Hnd).
  apply NoDup_cons in Hnd as [Hnot _].
  rewrite elem_of_app. split.
  - intros [Hy|Hy].
    + split; [by left|]. intros ->. apply (Hdisj x Hy). by left.
    + split; [by right; right|]. by intros ->.
  - intros [[Hy|[->|Hy]] Hne]; [by left|done|by right].
Qed.

Lemma scene_ok_tidy (sc : Scene) : scene_ok sc → tidy sc.
Proof.
  intros (Hnd & Hatt & Hlt). split; [exact Hnd|].
  rewrite Forall_forall in Hlt. apply Forall_forall. intros t Ht. apply Hlt, Hatt.
  unfold nodes. change map with (@fmap list _).
  by apply (list_elem_of_fmap_2 (fun t => node (element t))).
Qed.

Lemma animate_visit_tended (e : Env) (k : nat) (s : Snowflake) (sc : Scene) :
  scene_ok sc →
  snowflakes sc.2 !! k = Some s →
  tended sc (animate_visit e k s sc).
Proof.
  destruct sc as [p c]. cbn [fst snd]. intros Hok Hk.
  rewrite animate_visit_unfold. cbn [fst snd].
  destruct (exits c (move c (Date_now e k) s)).
  - rewrite (recycle_tidy e k s p c (scene_ok_tidy _ Hok) Hk).
    destruct Hok as (Hnd & Hatt & Hlt). cbn [fst snd] in *.
    rewrite Forall_forall in Hlt.
    assert (nodes c !! k = Some (node (element s))) as Hnk.
    { unfold nodes. change map with (@fmap list _). by rewrite list_lookup_fmap, Hk. }
    set (fresh := {| element := _ |}).
    assert (nodes (with_snowflakes (delete k (snowflakes c) ++ [fresh]) c)
            = delete k (nodes c) ++ [next_node p]) as Hnodes.
    { unfold nodes. cbn [snowflakes with_snowflakes].
      change map with (@fmap list _). by rewrite fmap_app, list_fmap_delete. }
    unfold tended, scene_ok. cbn [fst snd children next_node]. rewrite Hnodes.
    split_and!.
    + apply NoDup_app. split_and!; [|  |apply NoDup_singleton].
      * eapply sublist_NoDup; [exact Hnd|apply sublist_delete].
      * intros n Hn. rewrite list_elem_of_singleton. intros ->.
        apply list_elem_of_delete_inv, Hatt, Hlt in Hn. lia.
    + intros n. rewrite !elem_of_app, list_elem_of_filter.
      rewrite (elem_of_delete_NoDup _ k (node (element s)) n Hnd Hnk).
      intros [[Hn Hne]|Hn]; auto.
    + apply Forall_app. split; [|repeat constructor].
      apply Forall_forall. intros n Hn.
      apply list_elem_of_filter in Hn as [_ Hn]. apply Hlt in Hn. lia.
    + lia.
    + intros n. rewrite elem_of_app, list_elem_of_singleton.
      intros [Hn | ->]; [|by right]. left. by eapply list_elem_of_delete_inv.
    + intros n. rewrite !elem_of_app, list_elem_of_filter, list_elem_of_singleton.
      rewrite (elem_of_delete_NoDup _ k (node (element s)) n Hnd Hnk). split.
      * intros [[Hne Hn]| ->]; [|auto].
        destruct (decide (n ∈ nodes c)); auto.
      * intros [[Hn Hno]|[[Hn Hne]| ->]]; auto.
        left. split; [|done]. intros ->. apply Hno.
        by eapply list_elem_of_lookup_2.
  - apply tended_same; [|done|done|done]. unfold moved, nodes.
    cbn [fst snd snowflakes with_snowflakes]. by apply nodes_insert_move.
Qed.

Lemma animate_loop_tended (e : Env) (fuel k : nat) (sc sc' : Scene) :
  scene_ok sc →
  animate_loop fuel e k sc = Some sc' →
  tended sc sc'.
Proof.
  revert k sc. induction fuel as [|fuel IH]; intros k sc Hok; [done|].
  destruct (snowflakes sc.2 !! k) as [s|] eqn:Hk.
  - rewrite (animate_loop_step _ _ _ s) by done. intros Hrun.
    pose proof (animate_visit_tended e k s sc Hok Hk) as Hstep.
    eapply tended_trans; [done|exact Hstep|].
    eapply IH; [|exact Hrun]. by destruct Hstep.
  - rewrite animate_loop_done by done. intros [= <-]. by apply tended_refl.
Qed.

Lemma animate_tended (e : Env) (sc : Scene) : scene_ok sc → tended sc (animate e sc).
Proof. intros Hok. eapply animate_loop_tended, animate_loop_animate. done. Qed.

Lemma clear_tended (sc : Scene) : scene_ok sc → tended sc (clear sc).
Proof.
  destruct sc as [p c]. intros (Hnd & Hatt & Hlt). unfold clear.
  unfold tended, scene_ok. cbn [fst snd] in *.
  rewrite clear_next_node.
  change (nodes (with_snowflakes [] c)) with (@nil nat).
  split_and!.
  - constructor.
  - intros n Hn. by apply not_elem_of_nil in Hn.
  - rewrite Forall_forall in Hlt. apply Forall_forall. intros n Hn.
    apply detach_all_children in Hn as [Hn _]. by apply Hlt.
  - done.
  - intros n Hn. by apply not_elem_of_nil in Hn.
  - intros n. rewrite detach_all_children. unfold nodes. split.
    + intros [? ?]. by left.
    + intros [[? ?]|Hn]; [done|]. by apply not_elem_of_nil in Hn.
Qed.

Lemma generate_resume_tended (j : nat) (random : R) (sc : Scene) :
  scene_ok sc → tended sc (generate_resume j random sc).
Proof.
  destruct sc as [p c]. intros Hok. unfold generate_resume.
  destruct (sleepers c !! j) as [i|]; [|by apply tended_refl].
  cbn [active with_sleepers]. destruct (active c); cbn [negb].
  - pose proof (spawn_tended random (p, with_sleepers (delete j (sleepers c)) c) Hok)
      as Hsp.
    destruct (spawn random (p, with_sleepers (delete j (sleepers c)) c)) as [p2 c2].
    destruct (S i <? LIMIT (config c2))%nat; [|exact Hsp].
    destruct Hsp as (H1 & H2 & H3 & H4). by split_and!.
  - by apply tended_same.
Qed.

Lemma start_tended (sc : Scene) : scene_ok sc → tended sc (start sc).
Proof.
  destruct sc as [p c]. intros Hok. unfold start.
  destruct (active c); [by apply tended_refl|].
  apply tended_same; [|done|done|done].
  unfold generate. cbn [snowflakes config setInterval snd].
  by destruct (length (snowflakes c) <? LIMIT (config c))%nat.
Qed.

Lemma generate_tended (sc : Scene) : scene_ok sc → tended sc (sc.1, generate sc.2).
Proof.
  intros Hok. apply tended_same; [|done|done|done]. cbn [snd]. unfold generate.
  by destruct (length (snowflakes sc.2) <? LIMIT (config sc.2))%nat.
Qed.

Lemma invoke_tended (op : Operation) (e : Env) (sc : Scene) :
  op ≠ op_remove →
  scene_ok sc →
  match invoke op e sc with
  | Returned sc' | Threw sc' => tended sc sc'
  | Unmodelled => True
  end.
Proof.
  intros Hop Hok. destruct op; cbn [invoke]; try done.
  - by apply start_tended.
  - by apply spawn_tended.
  - by apply generate_tended.
  - by apply animate_tended.
  - by apply clear_tended.
  - by apply tended_same.
Qed.

Lemma leak_free_scene (w : World) (k : nat) (c : Controller) :
  leak_free w → controllers w !! k = Some c → scene_ok (body w, c).
Proof.
  intros (Hnd & _ & Hch & Hlt) Hk. split_and!; cbn [fst snd].
  - by eapply Hnd.
  - intros n Hn. apply Hch. eauto.
  - exact Hlt.
Qed.

(** Putting a tended controller back in its place keeps the world free of
    leaks: what it holds now is what it held or new, and new nodes belong
    to nobody else. *)
Lemma leak_free_update (w : World) (k : nat) (c c' : Controller) (p' : Page) :
  leak_free w →
  controllers w !! k = Some c →
  tended (body w, c) (p', c') →
  leak_free {| body := p'; controllers := <[k := c']> (controllers w) |}.
Proof.
  intros (Hnd & Hdisj & Hch & Hlt) Hk ((Hnd' & Hatt' & Hlt') & Hle & Hnew & Hch').
  cbn [fst snd] in *. rewrite Forall_forall in Hlt.
  apply lookup_lt_Some in Hk as Hklt.
  assert (∀ j cj, <[k := c']> (controllers w) !! j = Some cj →
                  (j = k ∧ cj = c') ∨ (j ≠ k ∧ controllers w !! j = Some cj)) as Hcases.
  { intros j cj Hj. destruct (decide (j = k)) as [->|Hne].
    - rewrite list_lookup_insert_eq in Hj by done. left. split; congruence.
    - rewrite list_lookup_insert_ne in Hj by done. by right. }
  assert (∀ j cj n, j ≠ k → controllers w !! j = Some cj → n ∈ nodes cj →
                    (n ∉ nodes c) ∧ (n ∉ nodes c')) as Hother.
  { intros j cj n Hne Hj Hn.
    assert (n ∉ nodes c) as Hnc.
    { intros Hc. apply Hne. by apply (Hdisj j k cj c n). }
    split; [done|]. intros Hc'. destruct (Hnew n Hc') as [|Hge]; [done|].
    assert (n ∈ children (body w)) as Hin by (apply Hch; eauto).
    apply Hlt in Hin. lia. }
  split_and!; cbn [body controllers].
  - intros j cj Hj. destruct (Hcases j cj Hj) as [[-> ->]|[Hne Hj']]; [done|].
    by eapply Hnd.
  - intros j1 j2 c1 c2 n Hj1 Hj2 Hn1 Hn2.
    destruct (Hcases j1 c1 Hj1) as [[-> ->]|[Hne1 Hj1']];
      destruct (Hcases j2 c2 Hj2) as [[-> ->]|[Hne2 Hj2']]; [done| | |].
    + by destruct (Hother j2 c2 n Hne2 Hj2' Hn2).
    + by destruct (Hother j1 c1 n Hne1 Hj1' Hn1).
    + by eapply Hdisj.
  - intros n. rewrite Hch'. split.
    + intros [[Hn Hno]|Hn].
      * apply Hch in Hn as (j & cj & Hj & Hnj).
        assert (j ≠ k) as Hne by (intros ->; congruence).
        exists j, cj. by rewrite list_lookup_insert_ne.
      * exists k, c'. by rewrite list_lookup_insert_eq.
    + intros (j & cj & Hj & Hnj).
      destruct (Hcases j cj Hj) as [[-> ->]|[Hne Hj']]; [by right|].
      left. split; [apply Hch; eauto|]. by destruct (Hother j cj n Hne Hj' Hnj).
  - exact Hlt'.
Qed.

Lemma on_controller_leak_free (k : nat) (f : Scene → Scene) (w : World) :
  (∀ sc, scene_ok sc → tended sc (f sc)) →
  leak_free w → leak_free (on_controller k f w).
Proof.
  intros Hf Hw. unfold on_controller.
  destruct (controllers w !! k) as [c|] eqn:Hk; [|done].
  pose proof (Hf (body w, c) (leak_free_scene w k c Hw Hk)) as Ht.
  destruct (f (body w, c)) as [p' c']. by eapply leak_free_update.
Qed.

Lemma broadcast_leak_free (op : Operation) (envs : nat → Env) (n k : nat) (w : World) :
  op ≠ op_remove →
  leak_free w →
  match broadcast n op envs k w with
  | Returned w' | Threw w' => leak_free w'
  | Unmodelled => True
  end.
Proof.
  intros Hop. revert k w. induction n as [|n IH]; intros k w Hw; [done|].
  cbn [broadcast].
  destruct (controllers w !! k) as [c|] eqn:Hk; [|done].
  pose proof (invoke_tended op (envs k) (body w, c) Hop
                (leak_free_scene w k c Hw Hk)) as Ht.
  destruct (invoke op (envs k) (body w, c)) as [[p' c']|[p' c']|]; [| |done].
  - apply IH. by eapply leak_free_update.
  - by eapply leak_free_update.
Qed.

(** A change that keeps the page and every controller's nodes. *)
Lemma leak_free_same_nodes (w w' : World) :
  body w' = body w →
  nodes <$> controllers w' = nodes <$> controllers w →
  leak_free w → leak_free w'.
Proof.
  intros Hbody Hnodes (Hnd & Hdisj & Hch & Hlt).
  assert (∀ k c', controllers w' !! k = Some c' →
                  ∃ c, controllers w !! k = Some c ∧ nodes c = nodes c') as Hback.
  { intros k c' Hk.
    assert ((nodes <$> controllers w) !! k = Some (nodes c')) as H
      by (by rewrite <- Hnodes, list_lookup_fmap, Hk).
    rewrite list_lookup_fmap in H.
    destruct (controllers w !! k) as [c|]; [|done]. injection H as H. eauto. }
  assert (∀ k c, controllers w !! k = Some c →
                 ∃ c', controllers w' !! k = Some c' ∧ nodes c = nodes c') as Hforth.
  { intros k c Hk.
    assert ((nodes <$> controllers w') !! k = Some (nodes c)) as H
      by (by rewrite Hnodes, list_lookup_fmap, Hk).
    rewrite list_lookup_fmap in H.
    destruct (controllers w' !! k) as [c'|]; [|done]. injection H as H. eauto. }
  split_and!; rewrite ?Hbody.
  - intros k c' Hk. destruct (Hback k c' Hk) as (c & Hc & <-). by eapply Hnd.
  - intros k1 k2 c1 c2 n Hk1 Hk2 Hn1 Hn2.
    destruct (Hback k1 c1 Hk1) as (d1 & Hd1 & He1).
    destruct (Hback k2 c2 Hk2) as (d2 & Hd2 & He2).
    rewrite <- He1 in Hn1. rewrite <- He2 in Hn2. by eapply Hdisj.
  - intros n. rewrite Hch. split.
    + intros (k & c & Hk & Hn). destruct (Hforth k c Hk) as (c' & Hc' & He).
      exists k, c'. by rewrite <- He.
    + intros (k & c' & Hk & Hn). destruct (Hback k c' Hk) as (c & Hc & He).
      exists k, c. by rewrite He.
  - exact Hlt.
Qed.

Lemma remove_is_the_only_remove (cmd : string) :
  assoc cmd Controller_prototype = Some op_remove → cmd = "remove"%string.
Proof.
  unfold Controller_prototype. cbn [assoc].
  repeat (match goal with
          | |- context [String.eqb ?a cmd] => destruct (String.eqb_spec a cmd)
          end; try done).
Qed.

Lemma step_leak_free (ev : Event) (w w' : World) :
  no_remove ev → leak_free w → step ev w = Some w' → leak_free w'.
Proof.
  intros Hev Hw. destruct ev as [k handle e|k j random|cw ch|cmd envs]; cbn [step].
  - intros [= <-]. apply on_controller_leak_free; [|done].
    intros sc Hok. unfold tick. case_bool_decide; [by apply animate_tended|].
    by apply tended_refl.
  - intros [= <-]. apply on_controller_leak_free; [|done].
    intros sc. apply generate_resume_tended.
  - intros [= <-]. eapply leak_free_same_nodes; [| |exact Hw]; [done|].
    unfold on_resize. cbn [controllers]. change map with (@fmap list _).
    rewrite <- list_fmap_compose. apply list_fmap_ext. intros _ c _.
    unfold nodes, resize. cbn [snowflakes compose]. by rewrite map_map.
  - unfold command. destruct (controllers w) as [|c0 rest] eqn:Hcs.
    { by intros [= <-]. }
    rewrite <- Hcs.
    destruct (get_property c0 cmd) as [|[]|op|[]] eqn:Hprop; try by intros [= <-].
    assert (op ≠ op_remove) as Hop.
    { intros ->. apply Hev. apply remove_is_the_only_remove.
      unfold get_property in Hprop.
      destruct (assoc cmd (Controller_fields c0)); [done|].
      destruct (assoc cmd Controller_prototype) as [op|]; [congruence|].
      by destruct (assoc cmd inherited_members). }
    pose proof (broadcast_leak_free op envs (length (controllers w)) 0 w Hop Hw) as Hb.
    destruct (broadcast _ op envs 0 w); [| |done]; by intros [= <-].
Qed.

Lemma main_leak_free (layers : list CONFIG) (cw ch : R) : leak_free (main layers cw ch).
Proof.
  rewrite main_builds_world.
  assert (∀ k c, imap (fun k cfg => started cfg cw ch (S k)) layers !! k = Some c →
                 nodes c = []) as Hempty.
  { intros k c. rewrite list_lookup_imap.
    destruct (layers !! k); [|done]. by intros [= <-]. }
  split_and!; cbn [body controllers children].
  - intros k c Hk. rewrite (Hempty k c Hk). constructor.
  - intros k1 k2 c1 c2 n Hk1 _ Hn. rewrite (Hempty k1 c1 Hk1) in Hn.
    by apply not_elem_of_nil in Hn.
  - intros n. split; [intros Hn; by apply not_elem_of_nil in Hn|].
    intros (k & c & Hk & Hn). rewrite (Hempty k c Hk) in Hn.
    by apply not_elem_of_nil in Hn.
  - constructor.
Qed.

Lemma run_leak_free (evs : list Event) (w w' : World) :
  Forall no_remove evs → leak_free w → run evs w = Some w' → leak_free w'.
Proof.
  revert w. induction evs as [|ev evs IH]; intros w Hevs Hw; cbn [run].
  - by intros [= <-].
  - apply Forall_cons in Hevs as [Hev Hevs].
    destruct (step ev w) as [w1|] eqn:Hstep; [|done].
    intros Hrun. apply (IH w1 Hevs); [|done]. by eapply step_leak_free.
Qed.

(** ** Traces the embedding follows *)

Lemma resize_is_the_only_resize (cmd : string) :
  assoc cmd Controller_prototype = Some op_resize → cmd = "resize"%string.
Proof.
  unfold Controller_prototype. cbn [assoc].
  repeat (match goal with
          | |- context [String.eqb ?a cmd] => destruct (String.eqb_spec a cmd)
          end; try done).
Qed.

Lemma broadcast_followed (op : Operation) (envs : nat → Env) (n k : nat) (w : World) :
  op ≠ op_resize → broadcast n op envs k w ≠ Unmodelled.
Proof.
  intros Hop. revert k w. induction n as [|n IH]; intros k w; [done|].
  cbn [broadcast]. destruct (controllers w !! k) as [c|]; [|done].
  destruct op; cbn [invoke]; try done;
    match goal with
    | |- context [let '(p, c') := ?sc in _] => destruct sc
    | _ => idtac
    end; try apply IH; done.
Qed.

(** A turn of the event loop that is not [command("resize")] is followed. *)
Lemma step_followed (ev : Event) (w : World) :
  no_bare_resize ev → is_Some (step ev w).
Proof.
  intros Hev. destruct ev as [k handle e|k j random|cw ch|cmd envs]; cbn [step]; try by eexists.
  unfold command. destruct (controllers w) as [|c0 rest] eqn:Hcs; [by eexists|].
  rewrite <- Hcs.
  destruct (get_property c0 cmd) as [|[]|op|[]] eqn:Hprop; try by eexists.
  assert (op ≠ op_resize) as Hop.
  { intros ->. apply Hev. apply resize_is_the_only_resize.
    unfold get_property in Hprop.
    destruct (assoc cmd (Controller_fields c0)); [done|].
    destruct (assoc cmd Controller_prototype) as [op|]; [congruence|].
    by destruct (assoc cmd inherited_members). }
  pose proof (broadcast_followed op envs (length (controllers w)) 0 w Hop) as Hb.
  destruct (broadcast _ op envs 0 w); [by eexists|by eexists|done].
Qed.

Lemma run_followed (evs : list Event) (w : World) :
  Forall no_bare_resize evs → is_Some (run evs w).
Proof.
  revert w. induction evs as [|ev evs IH]; intros w Hevs; cbn [run]; [by eexists|].
  apply Forall_cons in Hevs as [Hev Hevs].
  destruct (step_followed ev w Hev) as [w1 ->]. by apply IH.
Qed.

(** X16.  In every state the page reaches from [main] by ticks, resume
    points, resizes of the window and commands other than
    [command("remove")] and [command("resize")], in any order, the
    container holds exactly the elements of the live snowflakes: every live
    snowflake is attached, nothing else is, each snowflake has an element
    of its own, and no two controllers share one.  Every such trace is
    followed to its end. *)
Theorem no_element_leaks (layers : list CONFIG) (cw ch : R) (evs : list Event) :
  Forall no_remove evs →
  Forall no_bare_resize evs →
  ∃ w', run evs (main layers cw ch) = Some w' ∧ leak_free w'.
Proof.
  intros Hevs Hfollowed.
  destruct (run_followed evs (main layers cw ch) Hfollowed) as [w' Hrun].
  exists w'. split; [exact Hrun|].
  eapply run_leak_free; [exact Hevs| |exact Hrun]. apply main_leak_free.
Qed.

Lemma no_element_leaks_witness :
  let evs := [Wake 0 0 0.5; Command "spawn" (fun _ => still);
              Command "stop" (fun _ => still); Resized 640 480] in
  Forall no_remove evs
  ∧ Forall no_bare_resize evs
  ∧ ∃ w', run evs (main [scenario_config] 100 100) = Some w' ∧ leak_free w'.
Proof.
  intros evs.
  assert (Forall no_remove evs) as Hevs by (repeat constructor; done).
  assert (Forall no_bare_resize evs) as Hfollowed by (repeat constructor; done).
  split; [exact Hevs|]. split; [exact Hfollowed|].
  exact (no_element_leaks [scenario_config] 100 100 evs Hevs Hfollowed).
Defined.

Lemma leak_free_single (p : Page) (c : Controller) :
  scene_ok (p, c) →
  (∀ n, n ∈ children p → n ∈ nodes c) →
  leak_free {| body := p; controllers := [c] |}.
Proof.
  intros (Hnd & Hatt & Hlt) Hall. cbn [fst snd] in *.
  split_and!; cbn [body controllers].
  - intros [|k] c' Hk; [|done]. by injection Hk as <-.
  - intros [|k1] [|k2] c1 c2 n Hk1 Hk2; done.
  - intros n. split.
    + intros Hn. exists 0%nat, c. split; [done|]. by apply Hall.
    + intros ([|k] & c' & Hk & Hn); [|done]. injection Hk as <-. by apply Hatt.
  - exact Hlt.
Qed.

(** X17.  On a page without leaks, [command("clear")] empties every layer
    and leaves the container without a child. *)
Theorem command_clear_empties_the_container (envs : nat → Env) (w : World) :
  leak_free w →
  controllers w ≠ [] →
  ∃ w', command "clear" envs w = Returned w'
        ∧ children (body w') = []
        ∧ length (controllers w') = length (controllers w)
        ∧ ∀ k c, controllers w !! k = Some c →
                 controllers w' !! k = Some (with_snowflakes [] c).
Proof.
  intros Hw Hne. unfold command.
  destruct (controllers w) as [|c0 rest] eqn:Hcs; [done|]. rewrite <- Hcs.
  destruct (get_property_method c0) as (_ & _ & -> & _).
  pose proof (broadcast_leak_free op_clear envs (length (controllers w)) 0 w) as Hfree.
  destruct (broadcast_pointwise (fun _ c c' => c' = with_snowflakes [] c)
              (fun _ _ => True) op_clear envs) with (n := length (controllers w))
              (k := 0%nat) (w := w)
    as (w' & Hrun & _ & Hlen & _ & Hafter).
  - done.
  - done.
  - intros k p c. cbn [invoke]. unfold clear. by eexists _, _.
  - done.
  - rewrite Hrun in Hfree. destruct Hfree as (_ & _ & Hch & _); [done|done|].
    assert (∀ k c, controllers w !! k = Some c →
                   controllers w' !! k = Some (with_snowflakes [] c)) as Hall.
    { intros k c Hk. destruct (Hafter k c) as (c' & Hk' & ->); [lia|done|done]. }
    exists w'. split_and!; [done| |done|done].
    apply elem_of_nil_inv. intros n Hn. apply Hch in Hn as (k & c' & Hk' & Hn).
    destruct (lookup_lt_is_Some_2 (controllers w) k) as [c Hk].
    { rewrite <- Hlen. by eapply lookup_lt_Some. }
    rewrite (Hall k c Hk) in Hk'. injection Hk' as <-.
    by apply not_elem_of_nil in Hn.
Qed.

Lemma command_clear_empties_the_container_witness :
  let w := {| body := two_flake_page;
              controllers := [controller_with [flake_at 0 3 4; flake_at 1 5 6]] |} in
  leak_free w
  ∧ controllers w ≠ []
  ∧ ∃ w', command "clear" (fun _ => still) w = Returned w'
          ∧ children (body w') = [].
Proof.
  intros w.
  assert (leak_free w) as Hw.
  { apply leak_free_single.
    - split_and!; cbn.
      + apply NoDup_cons. split; [|apply NoDup_singleton].
        rewrite list_elem_of_singleton. lia.
      + done.
      + repeat constructor.
    - done. }
  assert (controllers w ≠ []) as Hne by done.
  split; [exact Hw|]. split; [exact Hne|].
  destruct (command_clear_empties_the_container (fun _ => still) w Hw Hne)
    as (w' & Hrun & Hch & _).
  exists w'. split; [exact Hrun|exact Hch].
Defined.

(** X18.  In every state the page reaches from [main] by ticks, resume
    points, resizes of the window and commands of any name but
    [command("resize")], each controller's snowflakes are distinct objects
    created on the page, its live intervals are exactly the one its
    [interval] field remembers, and a stopped controller has none: no
    controller is ever driven by two intervals.  Every such trace is
    followed to its end. *)
Theorem every_reachable_state_is_sound (layers : list CONFIG) (cw ch : R)
    (evs : list Event) :
  Forall no_bare_resize evs →
  ∃ w', run evs (main layers cw ch) = Some w'
        ∧ Forall (fun c => tidy (body w', c)
                           ∧ timers c = match interval c with
                                        | Some h => [h] | None => [] end
                           ∧ (length (timers c) ≤ 1)%nat
                           ∧ (active c = false → timers c = [])) (controllers w').
Proof.
  intros Hfollowed.
  destruct (run_followed evs (main layers cw ch) Hfollowed) as [w' Hrun].
  exists w'. split; [exact Hrun|].
  assert (sound w') as Hw'.
  { pose proof (main_sound layers cw ch) as H0.
    revert Hrun H0. generalize (main layers cw ch). clear.
    induction evs as [|ev evs IH]; intros w; cbn [run].
    - by intros [= <-].
    - destruct (step ev w) as [w1|] eqn:Hstep; [|done].
      intros Hrun Hw. apply (IH w1 Hrun). by eapply step_sound. }
  eapply Forall_impl; [exact Hw'|]. intros c [Htidy [Hok Hidle]].
  unfold timers_ok in Hok. cbn [snd] in Hok, Hidle. split_and!; [done|done| |].
  - rewrite Hok. destruct (interval c); simpl; lia.
  - intros Hact. by rewrite Hok, (Hidle Hact).
Qed.

Lemma every_reachable_state_is_sound_witness :
  let evs := [Wake 0 0 0.5; Command "stop" (fun _ => still);
              Command "start" (fun _ => still); Command "remove" (fun _ => still)] in
  Forall no_bare_resize evs
  ∧ ∃ w', run evs (main [scenario_config] 100 100) = Some w'
          ∧ Forall (fun c => tidy (body w', c)
                             ∧ timers c = match interval c with
                                          | Some h => [h] | None => [] end
                             ∧ (length (timers c) ≤ 1)%nat
                             ∧ (active c = false → timers c = [])) (controllers w').
Proof.
  intros evs.
  assert (Forall no_bare_resize evs) as Hfollowed by (repeat constructor; done).
  split; [exact Hfollowed|].
  exact (every_reachable_state_is_sound [scenario_config] 100 100 evs Hfollowed).
Defined.

(** ** The scenario in Chromium *)

Lemma rendered_ticks_S (h : Host) (n : nat) (es : nat -> Env) (sc : Scene) :
  Rendered.ticks h (S n) es sc = Rendered.animate h (es n) (Rendered.ticks h n es sc).
Proof. reflexivity. Qed.

(** A tick over a single snowflake that stays inside, and one over a single
    snowflake that leaves. *)
Lemma rendered_single_stay (h : Host) (e : Env) (s : Snowflake) (p : Page) (c : Controller) :
  snowflakes c = [s] →
  Rendered.exits h c (Rendered.move h c (Date_now e 0) s) = false →
  Rendered.animate h e (p, c)
  = (p, with_snowflakes [Rendered.move h c (Date_now e 0) s] c).
Proof.
  intros Hl Hstay.
  pose proof (rendered_loop_animate h e (p, c)) as Ha.
  cbn [snd] in Ha. rewrite Hl in Ha. cbn [length] in Ha.
  rewrite (rendered_loop_step _ _ _ _ s) in Ha by (cbn [snd]; by rewrite Hl).
  rewrite rendered_visit_stay in Ha by done. rewrite Hl in Ha. cbn [insert list_insert] in Ha.
  rewrite rendered_loop_done in Ha by reflexivity.
  by injection Ha as <-.
Qed.

Lemma rendered_single_out (h : Host) (e : Env) (s : Snowflake) (p : Page) (c : Controller) :
  tidy (p, c) →
  snowflakes c = [s] →
  Rendered.exits h c (Rendered.move h c (Date_now e 0) s) = true →
  Rendered.animate h e (p, c)
  = (recycled_page (node (element s)) p,
     with_snowflakes [replacement (Math_random e 0) p c] c).
Proof.
  intros Htidy Hl Hout.
  pose proof (rendered_loop_animate h e (p, c)) as Ha.
  cbn [snd] in Ha. rewrite Hl in Ha. cbn [length] in Ha.
  rewrite (rendered_loop_step _ _ _ _ s) in Ha by (cbn [snd]; by rewrite Hl).
  rewrite rendered_visit_recycle in Ha; [|done|by rewrite Hl|done].
  rewrite Hl in Ha. cbn [delete list_delete app] in Ha.
  rewrite rendered_loop_done in Ha by reflexivity.
  by injection Ha as <-.
Qed.

Lemma whole_tens (n : nat) : 10 * INR n = IZR (10 * Z.of_nat n).
Proof. rewrite mult_IZR, <- INR_IZR_INZ. lra. Qed.

Lemma whole_from_98 (n : nat) : 98 + INR n = IZR (98 + Z.of_nat n).
Proof. rewrite plus_IZR, <- INR_IZR_INZ. lra. Qed.

(** In Chromium, too, the scenario's snowflake falls by 10 per tick and
    drifts by at most 1 per tick, and for the first 11 ticks it is still the
    same snowflake on the same page. *)
Lemma chromium_scenario_falls (left0 : R) (es : nat -> Env) (n : nat) :
  left0 <= 98 →
  (n ≤ 11)%nat →
  ∃ l t, Rendered.ticks chromium n es (scenario_page, scenario_controller left0)
         = (scenario_page, controller_with [flake_at 0 l t])
         ∧ t = 10 * INR n ∧ l <= 98 + INR n.
Proof.
  intros Hleft. induction n as [|n IH]; intros Hn.
  - exists left0, 0. simpl. split; [reflexivity|]. lra.
  - destruct IH as (l & t & Hrun & Ht & Hl); [lia|].
    assert (INR n <= 10) as Hn'.
    { replace 10 with (INR 10) by (simpl; lra). apply le_INR. lia. }
    assert (0 <= INR n) as Hn0 by apply pos_INR.
    rewrite rendered_ticks_S, Hrun.
    set (c := controller_with [flake_at 0 l t]).
    set (s' := Rendered.move chromium c (Date_now (es n) 0) (flake_at 0 l t)).
    assert (six_digits l <= 98 + INR n) as Hread.
    { etransitivity; [apply six_digits_mono, Hl|].
      rewrite whole_from_98. right. apply six_digits_integer. lia. }
    assert (six_digits t = t) as Htop.
    { rewrite Ht, whole_tens. apply six_digits_integer. lia. }
    assert (style_left (element s') <= 98 + INR n + 1) as Hl'.
    { unfold s', Rendered.move, getSine, Rendered.left.
      cbn [set_top set_left element style_left flake_at chromium style_px
           config c controller_with scenario_config SWAY_RATE].
      pose proof (SIN_bound (Date_now (es n) 0 * 0.005)) as [_ Hsin]. lra. }
    assert (style_top (element s') = t + 10) as Ht'.
    { unfold s', Rendered.move, Rendered.top.
      cbn [set_top set_left element style_top flake_at chromium style_px
           config c controller_with scenario_config FALL_RATE].
      by rewrite Htop. }
    rewrite (rendered_single_stay chromium (es n) (flake_at 0 l t)).
    + exists (style_left (element s')), (style_top (element s')).
      split; [reflexivity|]. rewrite S_INR. lra.
    + reflexivity.
    + fold c s'. unfold Rendered.exits, Rendered.bounds.
      cbn [x y width height layout_px chromium document_width document_height
           c controller_with].
      pose proof (sixty_fourths_bounded (style_left (element s')) 110
                    ltac:(lra) ltac:(lra)).
      pose proof (sixty_fourths_bounded (style_top (element s')) 110
                    ltac:(lra) ltac:(lra)).
      rewrite !Rgtb_false; [done| |]; intros ?; lra.
Qed.

(** X19.  In Chromium the scenario (limit 1, fall rate 10, no sway,
    viewport 100 by 100, one snowflake starting at vertical position 0 and
    at most 98 from the left) plays as it does on exact numbers, whatever
    the clock says: the snowflake reads vertical position 10 after one
    tick; after 11 ticks it reads 110, is still inside and attached; the
    twelfth tick removes it and puts a new snowflake at vertical position 0
    in its place. *)
Theorem scenario_in_chromium (left0 : R) (es : nat -> Env) :
  left0 <= 98 →
  let sc0 := (scenario_page, scenario_controller left0) in
  (∃ s, snowflakes (Rendered.ticks chromium 1 es sc0).2 = [s]
        ∧ node (element s) = 0%nat ∧ Rendered.top chromium s = 10)
  ∧ (∃ s, snowflakes (Rendered.ticks chromium 11 es sc0).2 = [s]
          ∧ node (element s) = 0%nat ∧ Rendered.top chromium s = 110
          ∧ Rendered.exits chromium (Rendered.ticks chromium 11 es sc0).2 s = false
          ∧ 0%nat ∈ children (Rendered.ticks chromium 11 es sc0).1)
  ∧ (∃ s, snowflakes (Rendered.ticks chromium 12 es sc0).2 = [s]
          ∧ node (element s) = 1%nat ∧ Rendered.top chromium s = 0
          ∧ (0%nat ∉ children (Rendered.ticks chromium 12 es sc0).1)
          ∧ 1%nat ∈ children (Rendered.ticks chromium 12 es sc0).1).
Proof.
  intros Hleft sc0.
  assert (six_digits 10 = 10) as H10 by (apply (six_digits_integer 10); lia).
  split_and!.
  - destruct (chromium_scenario_falls left0 es 1 Hleft) as (l & t & Hrun & Ht & Hl); [lia|].
    exists (flake_at 0 l t). unfold sc0. rewrite Hrun.
    split_and!; [reflexivity..|].
    unfold Rendered.top. cbn [flake_at element style_top chromium style_px].
    rewrite Ht. simpl. rewrite Rmult_1_r. exact H10.
  - destruct (chromium_scenario_falls left0 es 11 Hleft) as (l & t & Hrun & Ht & Hl); [lia|].
    assert (t = 110) as -> by (rewrite Ht; simpl; lra).
    replace (INR 11) with 11 in Hl by (simpl; lra).
    exists (flake_at 0 l 110). unfold sc0. rewrite Hrun.
    split_and!; [reflexivity..| | |].
    + apply six_digits_110.
    + unfold Rendered.exits, Rendered.bounds.
      cbn [x y width height layout_px chromium document_width document_height
           controller_with snd flake_at element style_left style_top].
      rewrite (sixty_fourths_integer 110).
      pose proof (sixty_fourths_bounded l 110 ltac:(lra) ltac:(lra)).
      rewrite !Rgtb_false; [done| |]; intros ?; lra.
    + cbn. apply list_elem_of_singleton. reflexivity.
  - destruct (chromium_scenario_falls left0 es 11 Hleft) as (l & t & Hrun & Ht & Hl); [lia|].
    assert (t = 110) as -> by (rewrite Ht; simpl; lra).
    unfold sc0. rewrite (rendered_ticks_S chromium 11), Hrun.
    rewrite (rendered_single_out chromium (es 11%nat) (flake_at 0 l 110) scenario_page
               (controller_with [flake_at 0 l 110])).
    + eexists. split_and!; [reflexivity|reflexivity| | |].
      * apply six_digits_0.
      * cbn. rewrite decide_False by (intros H; by apply H).
        cbn. rewrite list_elem_of_singleton. lia.
      * cbn. rewrite decide_False by (intros H; by apply H).
        cbn. apply list_elem_of_singleton. reflexivity.
    + apply one_flake_tidy.
    + reflexivity.
    + apply rendered_exits_spec. right.
      unfold Rendered.bounds, Rendered.move, Rendered.top.
      cbn [x y width height layout_px chromium style_px set_top set_left element
           style_top flake_at config controller_with scenario_config FALL_RATE
           document_height].
      rewrite six_digits_110. replace (110 + 10) with 120 by lra.
      rewrite (sixty_fourths_integer 120). lra.
Qed.

Lemma scenario_in_chromium_witness :
  0 <= 98
  ∧ ∃ s, snowflakes (Rendered.ticks chromium 12 (fun _ => still)
                       (scenario_page, scenario_controller 0)).2 = [s]
         ∧ node (element s) = 1%nat ∧ Rendered.top chromium s = 0
         ∧ (0%nat ∉ children (Rendered.ticks chromium 12 (fun _ => still)
                                 (scenario_page, scenario_controller 0)).1)
         ∧ 1%nat ∈ children (Rendered.ticks chromium 12 (fun _ => still)
                               (scenario_page, scenario_controller 0)).1.
Proof.
  assert (0 <= 98) as H by lra.
  split; [exact H|].
  exact (proj2 (proj2 (scenario_in_chromium 0 (fun _ => still) H))).
Defined.

(** ** Recycling on a host *)

(** On every host a stretch of snowflakes that all stay inside is moved one
    by one, each with the clock reading of its own visit. *)
Lemma rendered_loop_stay (h : Host) (e : Env) (mid pre post : list Snowflake) (p : Page)
    (c : Controller) (fuel : nat) :
  (∀ j s, mid !! j = Some s →
          Rendered.exits h c (Rendered.move h c (Date_now e (length pre + j)) s) = false) →
  Rendered.animate_loop h (length mid + fuel) e (length pre)
    (p, with_snowflakes (pre ++ mid ++ post) c)
  = Rendered.animate_loop h fuel e (length pre + length mid)
      (p, with_snowflakes
            (pre ++ imap (fun j => Rendered.move h c (Date_now e (length pre + j))) mid
                 ++ post) c).
Proof.
  revert pre. induction mid as [|s mid IH]; intros pre Hstay.
  - simpl. by rewrite Nat.add_0_r.
  - change (length (s :: mid) + fuel)%nat with (S (length mid + fuel)).
    rewrite (rendered_loop_step _ _ _ _ s) by (simpl; by rewrite list_lookup_middle).
    pose proof (Hstay 0%nat s eq_refl) as H0. rewrite Nat.add_0_r in H0.
    rewrite rendered_visit_stay by exact H0.
    cbn [snowflakes with_snowflakes config document_width document_height].
    change (Rendered.move h (with_snowflakes (pre ++ (s :: mid) ++ post) c))
      with (Rendered.move h c).
    set (s' := Rendered.move h c (Date_now e (length pre)) s).
    rewrite insert_app_r_alt, Nat.sub_diag by lia. simpl insert.
    rewrite with_snowflakes_twice.
    specialize (IH (pre ++ [s'])).
    rewrite length_app in IH. simpl length in IH.
    rewrite <- !(assoc_L (++)) in IH. simpl app in IH.
    replace (S (length pre)) with (length pre + 1)%nat by lia.
    simpl app.
    rewrite IH.
    + f_equal; [simpl; lia|]. do 3 f_equal. simpl. rewrite Nat.add_0_r. fold s'.
      f_equal. f_equal. apply imap_ext. intros j t _. simpl. do 2 f_equal. lia.
    + intros j t Hj. specialize (Hstay (S j) t Hj).
      by replace (length pre + 1 + j)%nat with (length pre + S j)%nat by lia.
Qed.

(** X20.  On every host: when the snowflake [s] between [pre] and [post]
    is recycled at its visit, what followed it moves one slot down, the
    replacement is appended, and the slot the iterator has just left is
    not visited again in that tick.  When [s] was the last one the tick is
    over and the replacement is as it was spawned.  When a snowflake [nxt]
    followed and everything visited afterwards stays inside, [nxt] is left
    unmoved and the replacement is moved once: the vertical position
    written to it is the fall rate added to what its [0] reads. *)
Theorem recycling_skips_the_next_slot_on_a_host (h : Host) (e : Env) (fuel : nat)
    (pre post : list Snowflake) (s : Snowflake) (p : Page) (c : Controller) :
  tidy (p, c) →
  snowflakes c = pre ++ s :: post →
  Rendered.exits h c (Rendered.move h c (Date_now e (length pre)) s) = true →
  (length post < fuel)%nat →
  let k := length pre in
  let fresh := replacement (Math_random e k) p c in
  Rendered.animate_visit h e k s (p, c)
  = (recycled_page (node (element s)) p, with_snowflakes (pre ++ post ++ [fresh]) c)
  ∧ (∃ sc', Rendered.animate_loop h (S fuel) e k (p, c) = Some sc'
            ∧ snowflakes sc'.2 !! k = (post ++ [fresh]) !! 0%nat)
  ∧ (post = [] →
     Rendered.animate_loop h (S fuel) e k (p, c)
     = Some (recycled_page (node (element s)) p, with_snowflakes (pre ++ [fresh]) c))
  ∧ (∀ nxt post',
       post = nxt :: post' →
       (∀ j t, (post' ++ [fresh]) !! j = Some t →
               Rendered.exits h c (Rendered.move h c (Date_now e (S k + j)) t) = false) →
       Rendered.animate_loop h (S fuel) e k (p, c)
       = Some (recycled_page (node (element s)) p,
               with_snowflakes
                 (pre ++ nxt
                      :: imap (fun j => Rendered.move h c (Date_now e (S k + j))) post'
                      ++ [Rendered.move h c (Date_now e (S k + length post')) fresh]) c)
       ∧ style_top (element (Rendered.move h c (Date_now e (S k + length post')) fresh))
         = style_px h 0 + FALL_RATE (config c)).
Proof.
  intros Htidy Hl Hout Hfuel k fresh.
  assert (snowflakes c !! k = Some s) as Hk by (by rewrite Hl, list_lookup_middle).
  assert (Rendered.animate_visit h e k s (p, c)
          = (recycled_page (node (element s)) p,
             with_snowflakes (pre ++ post ++ [fresh]) c)) as Hvisit.
  { rewrite rendered_visit_recycle by done. unfold k, fresh.
    rewrite Hl, delete_middle, <- (assoc_L (++)). reflexivity. }
  split_and!.
  - exact Hvisit.
  - destruct (rendered_loop_total h e (S fuel) k (p, c)) as [sc' Hsc'].
    { cbn [snd]. rewrite Hl, length_app. simpl. lia. }
    exists sc'. split; [done|].
    rewrite (rendered_loop_step _ _ _ _ s) in Hsc' by done.
    rewrite (rendered_loop_before h e fuel (S k) k _ sc'
               (proj1 (rendered_visit_tidy h e k s _ Htidy Hk))
               (Nat.lt_succ_diag_r k) Hsc').
    rewrite Hvisit. cbn [snd]. rewrite snowflakes_with_snowflakes.
    rewrite lookup_app_r by (unfold k; lia).
    by replace (k - length pre)%nat with 0%nat by (unfold k; lia).
  - intros ->. destruct fuel as [|fuel]; [lia|].
    rewrite (rendered_loop_step _ _ _ _ s) by done. rewrite Hvisit.
    apply rendered_loop_done. cbn [snd]. rewrite snowflakes_with_snowflakes.
    apply lookup_ge_None. rewrite !length_app. simpl. unfold k. lia.
  - intros nxt post' -> Hstay.
    rewrite (rendered_loop_step _ _ _ _ s) by done.
    rewrite Hvisit.
    pose proof (rendered_loop_stay h e (post' ++ [fresh]) (pre ++ [nxt]) []
                  (recycled_page (node (element s)) p) c
                  (fuel - length (post' ++ [fresh]))) as Hloop.
    rewrite app_nil_r in Hloop.
    rewrite !length_app in Hloop. cbn [length] in Hloop.
    simpl in Hfuel.
    replace (length post' + 1 + (fuel - (length post' + 1)))%nat with fuel in Hloop by lia.
    replace (length pre + 1)%nat with (S k) in Hloop by (unfold k; lia).
    rewrite <- !(assoc_L (++)) in Hloop. cbn [app] in Hloop.
    rewrite app_nil_r in Hloop.
    cbn [app]. rewrite Hloop by done. clear Hloop.
    destruct (fuel - (length post' + 1))%nat as [|fuel'] eqn:Hf; [lia|].
    rewrite rendered_loop_done.
    + split; [|reflexivity].
      do 3 f_equal. rewrite imap_app. simpl. by rewrite Nat.add_0_r.
    + cbn [snd]. rewrite snowflakes_with_snowflakes.
      apply lookup_ge_None. cbn [length]. rewrite length_app. cbn [length].
      rewrite length_imap, length_app. simpl. unfold k. lia.
Qed.

Lemma recycling_skips_the_next_slot_on_a_host_witness :
  let c := controller_with [flake_at 0 0 110; flake_at 1 0 0] in
  tidy (two_flake_page, c)
  ∧ snowflakes c = [] ++ flake_at 0 0 110 :: [flake_at 1 0 0]
  ∧ Rendered.exits chromium c
      (Rendered.move chromium c (Date_now still 0) (flake_at 0 0 110)) = true
  ∧ (length [flake_at 1 0 0] < 2)%nat
  ∧ ∃ sc', Rendered.animate_loop chromium 3 still 0 (two_flake_page, c) = Some sc'
           ∧ snowflakes sc'.2 !! 0%nat = Some (flake_at 1 0 0).
Proof.
  intros c.
  assert (tidy (two_flake_page, c)) as Htidy by apply two_flake_tidy.
  assert (Rendered.exits chromium c
            (Rendered.move chromium c (Date_now still 0) (flake_at 0 0 110)) = true)
    as Hout by apply scenario_leaves.
  assert (length [flake_at 1 0 0] < 2)%nat as Hfuel by (simpl; lia).
  split; [exact Htidy|]. split; [reflexivity|]. split; [exact Hout|].
  split; [exact Hfuel|].
  exact (proj1 (proj2
    (recycling_skips_the_next_slot_on_a_host chromium still 2 [] [flake_at 1 0 0]
       (flake_at 0 0 110) two_flake_page c Htidy eq_refl Hout Hfuel))).
Defined.
